(** * FPGA image-processing pipeline simulator (megaproject.cpp)

    A shallow embedding of the execution engine of [src/megaproject.cpp]:
    the fixed-point helpers of [HardwareMath], the [Image] pixel buffer,
    the three [Filter] stages and the double-buffered [Pipeline].

    Conventions of the embedding.
    - A C++ [int] is a [Z].  Signed overflow is undefined in C++, so no
      wrap-around is written for it; the arithmetic of the filters stays
      far below 2^31 for channel values in 0..255 (see [gray_sum_bounds],
      [blur_sum_bounds], [sobel_mag_bounds]).
    - A [uint8_t] is a [Z] in 0..255; the narrowing cast [(uint8_t)v] is
      [v mod 256].
    - An [Image] object owns its pixel block exclusively (the block is
      allocated in both constructors, freed in the destructor and never
      handed out), so an [Image] value carries its block as a
      [list Pixel]; [Image*] pointers are locations of a heap of images.
    - Undefined behaviour (dereferencing a dangling pointer, indexing
      outside a pixel block, [new] of a negative size) is the error of
      the monad: the operation returns [None].
    - [new Pixel[n]] does not initialise the block.  Its indeterminate
      contents are a parameter [junk : nat -> Pixel] of every operation
      that allocates.
    - [Logger] and [IOHandler] only write to streams and files; they are
      not part of the embedding. *)

From Stdlib Require Import ZArith Lia Ascii.
From stdpp Require Import base numbers option list gmap.

Local Open Scope Z_scope.

(** ** MODULE 2: math engine *)

Module HardwareMath.

(** [int fromFixed(int i) { return i >> 8; }] *)
Definition fromFixed (i : Z) : Z := Z.shiftr i 8.

(** [uint8_t clamp(int val)] *)
Definition clamp (val : Z) : Z :=
  if val <? 0 then 0
  else if 255 <? val then 255
  else val mod 256.

End HardwareMath.

(** ** MODULE 3: image buffer *)

Record Pixel : Type := mkPixel { r : Z; g : Z; b : Z }.

(** The brace initialiser [{0,0,0}]. *)
Definition zero_pixel : Pixel := mkPixel 0 0 0.

(** A channel value that fits a [uint8_t]. *)
Definition byte_ok (v : Z) : Prop := 0 <= v <= 255.
Definition pixel_ok (p : Pixel) : Prop :=
  byte_ok (r p) /\ byte_ok (g p) /\ byte_ok (b p).

#[global] Instance Pixel_eq_dec : EqDecision Pixel.
Proof. solve_decision. Defined.

(** Raw pixel blocks: [new Pixel[n]], [data[i]] as an rvalue and as an
    lvalue.  Accesses outside the block are undefined. *)
Definition block_new (n : Z) (junk : nat -> Pixel) : option (list Pixel) :=
  if n <? 0 then None else Some (junk <$> seq 0 (Z.to_nat n)).

Definition block_read (d : list Pixel) (i : Z) : option Pixel :=
  if i <? 0 then None else d !! Z.to_nat i.

Definition block_write (d : list Pixel) (i : Z) (p : Pixel)
  : option (list Pixel) :=
  if (0 <=? i) && (i <? Z.of_nat (length d))
  then Some (<[Z.to_nat i := p]> d) else None.

Record Image : Type := mkImage { width : Z; height : Z; data : list Pixel }.

(** [Image(int w, int h)] *)
Definition Image_new (w h : Z) (junk : nat -> Pixel) : option Image :=
  match block_new (w * h) junk with
  | Some d => Some (mkImage w h d)
  | None => None
  end.

(** The loop [for (i = 0; i < n; i++) data[i] = other.data[i]]. *)
Fixpoint copy_loop (other : list Pixel) (ixs : list Z) (d : list Pixel)
  : option (list Pixel) :=
  match ixs with
  | [] => Some d
  | i :: ixs' =>
      match block_read other i with
      | Some p =>
          match block_write d i p with
          | Some d' => copy_loop other ixs' d'
          | None => None
          end
      | None => None
      end
  end.

(** [Image(const Image& other)], the deep copy. *)
Definition Image_copy (other : Image) (junk : nat -> Pixel) : option Image :=
  match block_new (width other * height other) junk with
  | Some d =>
      match copy_loop (data other)
              (seqZ 0 (width other * height other)) d with
      | Some d' => Some (mkImage (width other) (height other) d')
      | None => None
      end
  | None => None
  end.

Definition getWidth (img : Image) : Z := width img.
Definition getHeight (img : Image) : Z := height img.

(** [Pixel getPixel(int x, int y) const] *)
Definition getPixel (img : Image) (x y : Z) : option Pixel :=
  if (x <? 0) || (width img <=? x) || (y <? 0) || (height img <=? y)
  then Some zero_pixel
  else block_read (data img) (y * width img + x).

(** [void setPixel(int x, int y, Pixel p)] *)
Definition setPixel (img : Image) (x y : Z) (p : Pixel) : option Image :=
  if (0 <=? x) && (x <? width img) && (0 <=? y) && (y <? height img)
  then match block_write (data img) (y * width img + x) p with
       | Some d => Some (mkImage (width img) (height img) d)
       | None => None
       end
  else Some img.

(** ** The heap of [Image] objects and its monad *)

Abbreviation loc := positive (only parsing).
Abbreviation heap := (gmap positive Image) (only parsing).

Definition M (A : Type) : Type := heap -> option (A * heap).

Definition ret {A} (a : A) : M A := fun h => Some (a, h).

Definition bind {A B} (m : M A) (k : A -> M B) : M B :=
  fun h => match m h with
           | Some (a, h') => k a h'
           | None => None
           end.

Definition lift {A} (o : option A) : M A :=
  fun h => match o with Some a => Some (a, h) | None => None end.

Notation "x <- m ;; k" := (bind m (fun x => k))
  (at level 100, m at next level, right associativity).
Notation "m ;;; k" := (bind m (fun _ => k))
  (at level 100, right associativity).

(** [*p] as an rvalue, [*p = img], [new Image(...)], [delete p]. *)
Definition load (p : loc) : M Image :=
  fun h => match h !! p with Some img => Some (img, h) | None => None end.

Definition store (p : loc) (img : Image) : M unit :=
  fun h => match h !! p with
           | Some _ => Some (tt, <[p := img]> h)
           | None => None
           end.

Definition alloc (img : Image) : M loc :=
  fun h => let p := fresh (dom h) in Some (p, <[p := img]> h).

Definition free (p : loc) : M unit :=
  fun h => match h !! p with
           | Some _ => Some (tt, delete p h)
           | None => None
           end.

(** A [for] loop over the values [l] of its counter, threading the local
    variables [s] of the enclosing block. *)
Fixpoint forM {A S} (l : list A) (body : A -> S -> M S) (s : S) : M S :=
  match l with
  | [] => ret s
  | a :: l' => s' <- body a s ;; forM l' body s'
  end.

(** Method calls through an [Image*]. *)
Definition p_getWidth (p : loc) : M Z := img <- load p ;; ret (getWidth img).
Definition p_getHeight (p : loc) : M Z := img <- load p ;; ret (getHeight img).
Definition p_getPixel (p : loc) (x y : Z) : M Pixel :=
  img <- load p ;; lift (getPixel img x y).
Definition p_setPixel (p : loc) (x y : Z) (px : Pixel) : M unit :=
  img <- load p ;; img' <- lift (setPixel img x y px) ;; store p img'.

(** ** MODULE 5: filters

    The loop bounds [src->getHeight()] and [src->getWidth()] are re-read
    by the C++ loop tests at every iteration; [width] and [height] are
    private and assigned by the constructors only, so the embedding reads
    the height once per call and the width once per row. *)

(** [kernel[i][j]] on a 3x3 array of [int]. *)
Definition at2 (k : list (list Z)) (i j : Z) : Z :=
  nth (Z.to_nat j) (nth (Z.to_nat i) k []) 0.

Module GrayscaleFilter.

Definition apply (src dest : loc) : M unit :=
  h <- p_getHeight src ;;
  forM (seqZ 0 h) (fun y _ =>
    w <- p_getWidth src ;;
    forM (seqZ 0 w) (fun x _ =>
      p <- p_getPixel src x y ;;
      let gray := Z.shiftr (r p * 77 + g p * 150 + b p * 29) 8 in
      let val := HardwareMath.clamp gray in
      p_setPixel dest x y (mkPixel val val val)) tt) tt.

End GrayscaleFilter.

Module BlurFilter.

Definition kernel : list (list Z) := [[1; 2; 1]; [2; 4; 2]; [1; 2; 1]].
Definition divisor : Z := 16.

Definition apply (src dest : loc) : M unit :=
  h <- p_getHeight src ;;
  forM (seqZ 0 h) (fun y _ =>
    w <- p_getWidth src ;;
    forM (seqZ 0 w) (fun x _ =>
      sum <- forM (seqZ (-1) 3) (fun ky sum =>
               forM (seqZ (-1) 3) (fun kx sum =>
                 p <- p_getPixel src (x + kx) (y + ky) ;;
                 ret (sum + r p * at2 kernel (ky + 1) (kx + 1))) sum) 0 ;;
      let val := HardwareMath.clamp (sum `quot` divisor) in
      p_setPixel dest x y (mkPixel val val val)) tt) tt.

End BlurFilter.

Module SobelFilter.

Definition gx : list (list Z) := [[-1; 0; 1]; [-2; 0; 2]; [-1; 0; 1]].
Definition gy : list (list Z) := [[-1; -2; -1]; [0; 0; 0]; [1; 2; 1]].

Definition apply (src dest : loc) : M unit :=
  h <- p_getHeight src ;;
  forM (seqZ 1 (h - 1 - 1)) (fun y _ =>
    w <- p_getWidth src ;;
    forM (seqZ 1 (w - 1 - 1)) (fun x _ =>
      sums <- forM (seqZ (-1) 3) (fun i sums =>
                forM (seqZ (-1) 3) (fun j '(sumX, sumY) =>
                  p <- p_getPixel src (x + j) (y + i) ;;
                  let val := r p in
                  ret (sumX + val * at2 gx (i + 1) (j + 1),
                       sumY + val * at2 gy (i + 1) (j + 1))) sums)
                (0, 0) ;;
      let mag := Z.abs (fst sums) + Z.abs (snd sums) in
      let final := HardwareMath.clamp mag in
      p_setPixel dest x y (mkPixel final final final)) tt) tt.

End SobelFilter.

(** The three implementations of the abstract class [Filter]; the
    objects are stateless, so a stage is its dynamic type. *)
Inductive Filter : Type := Grayscale | Blur | Sobel.

(** The virtual call [filter->apply(src, dest)]. *)
Definition Filter_apply (f : Filter) (src dest : loc) : M unit :=
  match f with
  | Grayscale => GrayscaleFilter.apply src dest
  | Blur => BlurFilter.apply src dest
  | Sobel => SobelFilter.apply src dest
  end.

(** ** MODULE 6: pipeline manager *)

Record Pipeline : Type :=
  mkPipeline { stages : list Filter; workingBuffer : loc }.

(** [Pipeline(Image* input)] *)
Definition Pipeline_new (input : loc) (junk : nat -> Pixel) : M Pipeline :=
  img <- load input ;;
  c <- lift (Image_copy img junk) ;;
  wb <- alloc c ;;
  ret (mkPipeline [] wb).

(** [void addStage(Filter* filter)] *)
Definition addStage (P : Pipeline) (filter : Filter) : Pipeline :=
  mkPipeline (stages P ++ [filter]) (workingBuffer P).

(** [void execute()].  The pair threaded through the loop is
    [(workingBuffer, backBuffer)]; the three assignments through [temp]
    exchange its components. *)
Definition execute (P : Pipeline) (junk : nat -> Pixel) : M Pipeline :=
  w <- p_getWidth (workingBuffer P) ;;
  h <- p_getHeight (workingBuffer P) ;;
  bb <- lift (Image_new w h junk) ;;
  backBuffer <- alloc bb ;;
  bufs <- forM (stages P) (fun filter '(wb, back) =>
            Filter_apply filter wb back ;;;
            ret (back, wb)) (workingBuffer P, backBuffer) ;;
  free (snd bufs) ;;;
  ret (mkPipeline (stages P) (fst bufs)).

(** [Image* getResult()] *)
Definition getResult (P : Pipeline) : loc := workingBuffer P.

(** ** What the loops compute, as functions of the source image

    These definitions are not in the C++ text; they name the values the
    loops above produce, so that the theorems can speak about them. *)

(** The data model's invariant of an image buffer: positive dimensions
    and a block of exactly [width * height] pixels. *)
Definition wf_image (img : Image) : Prop :=
  0 < width img /\ 0 < height img /\
  Z.of_nat (length (data img)) = width img * height img.

(** Total versions of the two accessors; they agree with [getPixel] and
    [setPixel] on every well-formed image ([getPixel_px], [setPixel_upd]). *)
Definition px (img : Image) (x y : Z) : Pixel :=
  default zero_pixel (getPixel img x y).

Definition upd (img : Image) (x y : Z) (p : Pixel) : Image :=
  default img (setPixel img x y p).

(** The raster scan [for y in ys, for x in xs: dest.setPixel(x, y, F x y)]. *)
Definition fill_row (xs : list Z) (F : Z -> Z -> Pixel) (d : Image) (y : Z)
  : Image :=
  foldl (fun d x => upd d x y (F x y)) d xs.

Definition fill (ys xs : list Z) (F : Z -> Z -> Pixel) (d : Image) : Image :=
  foldl (fill_row xs F) d ys.

Definition gray_pixel (v : Z) : Pixel := mkPixel v v v.

(** The intensity the grayscale stage computes from one pixel. *)
Definition gray_value (p : Pixel) : Z :=
  HardwareMath.clamp (Z.shiftr (r p * 77 + g p * 150 + b p * 29) 8).

Definition gray_at (s : Image) (x y : Z) : Pixel :=
  gray_pixel (gray_value (px s x y)).

(** The 3x3 convolution of the red channel with the kernel [k]. *)
Definition conv (k : list (list Z)) (s : Image) (x y : Z) : Z :=
  foldl (fun sum ky =>
           foldl (fun sum kx =>
                    sum + r (px s (x + kx) (y + ky)) * at2 k (ky + 1) (kx + 1))
                 sum (seqZ (-1) 3))
        0 (seqZ (-1) 3).

Definition blur_at (s : Image) (x y : Z) : Pixel :=
  gray_pixel (HardwareMath.clamp
                (conv BlurFilter.kernel s x y `quot` BlurFilter.divisor)).

Definition sobel_at (s : Image) (x y : Z) : Pixel :=
  gray_pixel (HardwareMath.clamp
                (Z.abs (conv SobelFilter.gx s x y)
                 + Z.abs (conv SobelFilter.gy s x y))).

(** The image a stage leaves in [dest] when it reads [s] and [dest] held
    [d] before the call ([Filter_apply_eq]). *)
Definition stage_output (f : Filter) (s d : Image) : Image :=
  match f with
  | Grayscale => fill (seqZ 0 (height s)) (seqZ 0 (width s)) (gray_at s) d
  | Blur => fill (seqZ 0 (height s)) (seqZ 0 (width s)) (blur_at s) d
  | Sobel =>
      fill (seqZ 1 (height s - 1 - 1)) (seqZ 1 (width s - 1 - 1))
        (sobel_at s) d
  end.

(** Interior coordinates and the outermost ring of a [w] x [h] grid. *)
Definition interior (w h x y : Z) : Prop :=
  1 <= x <= w - 2 /\ 1 <= y <= h - 2.

Definition on_ring (w h x y : Z) : Prop :=
  0 <= x < w /\ 0 <= y < h /\
  (x = 0 \/ x = w - 1 \/ y = 0 \/ y = h - 1).

(** A buffer whose pixels all hold the colour [c]. *)
Definition uniform (c : Pixel) (img : Image) : Prop :=
  Forall (fun p => p = c) (data img).

(** ** The pipeline of the specification

    The specification's reading of a pipeline run, to be compared with
    [execute]: every stage is a transform of its input alone, writing
    into a buffer that [create(width, height)] initialised to (0,0,0);
    the Sobel stage leaves the outermost ring at that zero pixel. *)

Definition spec_pixel (f : Filter) (s : Image) (x y : Z) : Pixel :=
  match f with
  | Grayscale => gray_at s x y
  | Blur => blur_at s x y
  | Sobel =>
      if (1 <=? x) && (x <=? width s - 2) && (1 <=? y) && (y <=? height s - 2)
      then sobel_at s x y else zero_pixel
  end.

Definition spec_stage (f : Filter) (s : Image) : Image :=
  mkImage (width s) (height s)
    ((fun i => spec_pixel f s (i `mod` width s) (i `div` width s))
       <$> seqZ 0 (width s * height s)).

Definition spec_pipeline (fs : list Filter) (input : Image) : Image :=
  foldl (fun img f => spec_stage f img) input fs.

(** A whole run as [main] performs it: construct the pipeline on the
    image at [input], append the stages [fs], execute, and read the
    buffer [getResult] points to. *)
Definition run (fs : list Filter) (input : loc)
  (junk1 junk2 : nat -> Pixel) : M Image :=
  P <- Pipeline_new input junk1 ;;
  P' <- execute (foldl addStage P fs) junk2 ;;
  load (getResult P').

(** The truth value of a test as a number. *)
Definition bz (c : bool) : Z := if c then 1 else 0.

(** The weight of the kernel row [1 2 1] that falls inside a grid of
    [n] cells when it is centred on cell [t]. *)
Definition edge_weight (n t : Z) : Z := bz (0 <? t) + 2 + bz (t <? n - 1).

(** The two buffers of a run after the stages [fs]: each stage reads the
    front buffer and writes the back buffer, then the roles are
    exchanged ([stage_loop]). *)
Definition ping_pong (fs : list Filter) (bufs : Image * Image)
  : Image * Image :=
  foldl (fun '(front, back) f => (stage_output f front back, front)) bufs fs.

(** ** Sample buffers *)

Definition white : Pixel := mkPixel 255 255 255.

(** The 3x3 all-white image of the specification's end-to-end example. *)
Definition white3 : Image := mkImage 3 3 (replicate 9 white).

(** A heap holding [s] at location 1 and [d] at location 2. *)
Definition two_buffers (s d : Image) : gmap positive Image :=
  <[2%positive := d]> {[1%positive := s]}.

(** What the main pipeline leaves in its result for the all-white 3x3
    input: a zero centre inside a white ring. *)
Definition white_ring3 : Image :=
  mkImage 3 3 [white; white; white; white; zero_pixel; white;
               white; white; white].

(** ** Further operations and predicates *)

(** [~Pipeline()]: releases the working buffer.  The filter objects it
    also deletes are stateless and are not heap objects of the model. *)
Definition Pipeline_delete (P : Pipeline) : M unit :=
  free (workingBuffer P).

(** The life of a pipeline in [main]: construction on the caller's
    image, the stages, execution, destruction at the end of the scope. *)
Definition lifecycle (fs : list Filter) (input : loc)
  (junk1 junk2 : nat -> Pixel) : M unit :=
  P <- Pipeline_new input junk1 ;;
  P' <- execute (foldl addStage P fs) junk2 ;;
  Pipeline_delete P'.

(** Every channel of every pixel of the block fits a [uint8_t]. *)
Definition valid_image (img : Image) : Prop :=
  Forall pixel_ok (data img).

(** A 3x3 image with a black left column and a white right column. *)
Definition step3 : Image :=
  mkImage 3 3 [zero_pixel; zero_pixel; white;
               zero_pixel; zero_pixel; white;
               zero_pixel; zero_pixel; white].

(** ** MODULE 4: file I/O

    [IOHandler] reads and writes files through [ifstream] and
    [ofstream].  The file system is outside the program: [loadPPM] takes
    what opening the file gives ([None] when it cannot be opened, the
    text otherwise) and [savePPM] returns the text it sends to the
    stream.  The stream operations are those of the C++ standard
    library, in the "C" locale, as the C++11 standard describes them:
    an input stream is the characters not yet extracted and the two
    state bits the program can observe. *)

Definition code (c : ascii) : Z := Z.of_N (N_of_ascii c).

(** [std::isspace]: space, and the controls HT, LF, VT, FF, CR. *)
Definition is_space (c : ascii) : bool :=
  (code c =? 32) || ((9 <=? code c) && (code c <=? 13)).

Definition is_digit (c : ascii) : bool :=
  (48 <=? code c) && (code c <=? 57).

Definition digit_value (c : ascii) : Z := code c - 48.
Definition digit_char (d : Z) : ascii := ascii_of_N (Z.to_N (d + 48)).

Definition nl : ascii := "010"%char.
Definition spc : ascii := " "%char.

Fixpoint take_while (f : ascii -> bool) (l : list ascii) : list ascii :=
  match l with
  | c :: l' => if f c then c :: take_while f l' else []
  | [] => []
  end.

Fixpoint drop_while (f : ascii -> bool) (l : list ascii) : list ascii :=
  match l with
  | c :: l' => if f c then drop_while f l' else l
  | [] => []
  end.

Definition is_nil {A} (l : list A) : bool :=
  match l with [] => true | _ => false end.

Definition INT_MAX : Z := 2147483647.
Definition INT_MIN : Z := -2147483648.

(** *** Input streams *)

Record istream : Type :=
  mkIstream { rest : list ascii; eofbit : bool; failbit : bool }.

Definition good (s : istream) : bool := negb (eofbit s) && negb (failbit s).

Definition set_fail (s : istream) : istream :=
  mkIstream (rest s) (eofbit s) true.

(** [ifstream file(filename)]: a file that cannot be opened leaves the
    stream failed. *)
Definition ifstream_open (file : option (list ascii)) : istream :=
  match file with
  | Some text => mkIstream text false false
  | None => mkIstream [] false true
  end.

(** The [sentry] every extraction constructs first.  On a stream that is
    not good it sets [failbit]; otherwise, unless [noskipws], it skips
    white space and fails, setting both bits, if that exhausts the
    input. *)
Definition sentry (noskipws : bool) (s : istream) : bool * istream :=
  if good s then
    if noskipws then (true, s)
    else match drop_while is_space (rest s) with
         | [] => (false, mkIstream [] true true)
         | r => (true, mkIstream r (eofbit s) (failbit s))
         end
  else (false, set_fail s).

(** [file >> str]: the characters up to the next white space or the end
    of the input; the target is left alone when the sentry fails. *)
Definition read_string (s : istream) (old : list ascii)
  : list ascii * istream :=
  let '(ok, s1) := sentry false s in
  if ok then
    let w := take_while (fun c => negb (is_space c)) (rest s1) in
    let r := drop_while (fun c => negb (is_space c)) (rest s1) in
    (w, mkIstream r (eofbit s1 || is_nil r) (failbit s1 || is_nil w))
  else (old, s1).

(** The decimal value of a run of digits. *)
Definition digits_value (ds : list ascii) : Z :=
  foldl (fun acc c => acc * 10 + digit_value c) 0 ds.

(** [file >> n] for an [int]: an optional sign and the digits that
    follow.  No digit: 0 is stored and [failbit] set.  A value outside
    [int]: the nearest bound is stored and [failbit] set.  Reaching the
    end of the input sets [eofbit].  When the sentry fails the target
    keeps its value; [None] is a target never assigned. *)
Definition read_int (s : istream) (old : option Z) : option Z * istream :=
  let '(ok, s1) := sentry false s in
  if ok then
    let '(neg, r1) :=
      match rest s1 with
      | c :: r =>
          if Ascii.eqb c "-" then (true, r)
          else if Ascii.eqb c "+" then (false, r)
          else (false, rest s1)
      | [] => (false, [])
      end in
    let ds := take_while is_digit r1 in
    let r2 := drop_while is_digit r1 in
    let eof := eofbit s1 || is_nil r2 in
    match ds with
    | [] => (Some 0, mkIstream r2 eof true)
    | _ =>
        let v := if neg then - digits_value ds else digits_value ds in
        if INT_MAX <? v then (Some INT_MAX, mkIstream r2 eof true)
        else if v <? INT_MIN then (Some INT_MIN, mkIstream r2 eof true)
        else (Some v, mkIstream r2 eof (failbit s1))
    end
  else (old, s1).

(** [file >> ws]: skips white space; reaching the end of the input sets
    [eofbit] only. *)
Definition skip_ws (s : istream) : istream :=
  let '(ok, s1) := sentry true s in
  if ok then
    let r := drop_while is_space (rest s1) in
    mkIstream r (eofbit s1 || is_nil r) (failbit s1)
  else s1.

(** [file.peek()]: the next character, not extracted; [None] is [EOF]. *)
Definition peek (s : istream) : option ascii * istream :=
  let '(ok, s1) := sentry true s in
  if ok then
    match rest s1 with
    | c :: _ => (Some c, s1)
    | [] => (None, mkIstream [] true (failbit s1))
    end
  else (None, s1).

(** The extraction loop of [ignore(n, delim)]. *)
Fixpoint ignore_loop (n : nat) (delim : ascii) (l : list ascii)
  : list ascii * bool :=
  match n with
  | O => (l, false)
  | S n' =>
      match l with
      | [] => ([], true)
      | c :: l' => if Ascii.eqb c delim then (l', false)
                   else ignore_loop n' delim l'
      end
  end.

(** [file.ignore(n, delim)] *)
Definition ignore (n : nat) (delim : ascii) (s : istream) : istream :=
  let '(ok, s1) := sentry true s in
  if ok then
    let '(r, eof) := ignore_loop n delim (rest s1) in
    mkIstream r (eofbit s1 || eof) (failbit s1)
  else s1.

(** [static void ignoreComments(ifstream& file)].  The [while] loop is
    run on fuel; [ignoreComments_returns] shows that the fuel given
    below is never used up. *)
Fixpoint ignoreComments_loop (fuel : nat) (s : istream) : option istream :=
  match fuel with
  | O => None
  | S fuel' =>
      let s1 := skip_ws s in
      if failbit s1 then Some s1
      else
        let '(c, s2) := peek s1 in
        match c with
        | Some c' =>
            if Ascii.eqb c' "#"
            then ignoreComments_loop fuel' (ignore 4096 nl s2)
            else Some s2
        | None => Some s2
        end
  end.

Definition ignoreComments (s : istream) : option istream :=
  ignoreComments_loop (S (length (rest s))) s.

(** The body of the pixel loop of [loadPPM]:
    [file >> r >> g >> b; img->setPixel(x, y, {(uint8_t)r, ...})].
    The locals [r], [g], [b] are declared before the loops without
    initialiser ([None] until an extraction assigns them); using one
    that was never assigned is undefined. *)
Definition load_pixel (img : loc) (x y : Z)
  (st : istream * option Z * option Z * option Z)
  : M (istream * option Z * option Z * option Z) :=
  let '(s, r, g, b) := st in
  let '(r, s) := read_int s r in
  let '(g, s) := read_int s g in
  let '(b, s) := read_int s b in
  rv <- lift r ;;
  gv <- lift g ;;
  bv <- lift b ;;
  p_setPixel img x y
    (mkPixel (rv `mod` 256) (gv `mod` 256) (bv `mod` 256)) ;;;
  ret (s, r, g, b).

(** [static Image* loadPPM(const string& filename)]; the result [None]
    is [nullptr].  [w] and [h] are read by the log line and by
    [new Image(w, h)]; [maxVal] is never read. *)
Definition loadPPM (file : option (list ascii)) (junk : nat -> Pixel)
  : M (option loc) :=
  let s0 := ifstream_open file in
  if failbit s0 then ret None
  else
    let '(format, s1) := read_string s0 [] in
    if negb (bool_decide (format = ["P"; "3"]%char)) then ret None
    else
      s2 <- lift (ignoreComments s1) ;;
      let '(w, s3) := read_int s2 None in
      s4 <- lift (ignoreComments s3) ;;
      let '(h, s5) := read_int s4 None in
      s6 <- lift (ignoreComments s5) ;;
      let '(maxVal, s7) := read_int s6 None in
      w <- lift w ;;
      h <- lift h ;;
      img0 <- lift (Image_new w h junk) ;;
      img <- alloc img0 ;;
      forM (seqZ 0 h) (fun y st =>
        forM (seqZ 0 w) (fun x st => load_pixel img x y st) st)
        (s7, None, None, None) ;;;
      ret (Some img).

(** *** Output *)

(** The digits [file << n] writes for a non-negative [n]. *)
Fixpoint show_digits (fuel : nat) (n : Z) : list ascii :=
  match fuel with
  | O => []
  | S fuel' =>
      if n <? 10 then [digit_char n]
      else show_digits fuel' (n `div` 10) ++ [digit_char (n `mod` 10)]
  end.

(** [file << n] for an [int]: decimal, a minus sign when negative. *)
Definition show_int (n : Z) : list ascii :=
  if n <? 0 then "-"%char :: show_digits (S (Z.to_nat (Z.log2 (- n)))) (- n)
  else show_digits (S (Z.to_nat (Z.log2 n))) n.

(** [static void savePPM(const Image* img, const string& filename)]:
    the text sent to the file. *)
Definition savePPM (img : loc) : M (list ascii) :=
  w <- p_getWidth img ;;
  h <- p_getHeight img ;;
  let header := ["P"; "3"; nl]%char ++ show_int w ++ [spc] ++ show_int h
                ++ [nl; "2"; "5"; "5"; nl]%char in
  forM (seqZ 0 h) (fun y out =>
    out' <- forM (seqZ 0 w) (fun x out =>
              p <- p_getPixel img x y ;;
              ret (out ++ show_int (r p) ++ [spc] ++ show_int (g p) ++ [spc]
                       ++ show_int (b p) ++ [spc])) out ;;
    ret (out' ++ [nl])) header.

(** *** The text of an image *)

(** What [savePPM] writes for one pixel, one row, and a whole image
    ([savePPM_text]). *)
Definition pix_text (p : Pixel) : list ascii :=
  show_int (r p) ++ [spc] ++ show_int (g p) ++ [spc] ++ show_int (b p)
  ++ [spc].

Definition row_text (P : Z -> Z -> Pixel) (xs : list Z) (y : Z)
  : list ascii :=
  concat ((fun x => pix_text (P x y)) <$> xs).

Definition rows_text (P : Z -> Z -> Pixel) (ys xs : list Z) : list ascii :=
  concat ((fun y => row_text P xs y ++ [nl]) <$> ys).

Definition ppm_header (w h : Z) : list ascii :=
  ["P"; "3"; nl]%char ++ show_int w ++ [spc] ++ show_int h
  ++ [nl; "2"; "5"; "5"; nl]%char.

Definition ppm_text (img : Image) : list ascii :=
  ppm_header (width img) (height img)
  ++ rows_text (px img) (seqZ 0 (height img)) (seqZ 0 (width img)).

(** *** Predicates on texts and streams *)

Definition all_digits (l : list ascii) : Prop :=
  Forall (fun c => is_digit c = true) l.

Definition all_space (l : list ascii) : Prop :=
  Forall (fun c => is_space c = true) l.

(** A pixel whose channels are numbers [file >> n] can extract, and the
    pixel the three casts [(uint8_t)] make of it. *)
Definition int_pixel (p : Pixel) : Prop :=
  0 <= r p <= INT_MAX /\ 0 <= g p <= INT_MAX /\ 0 <= b p <= INT_MAX.

Definition cast_pixel (p : Pixel) : Pixel :=
  mkPixel (r p `mod` 256) (g p `mod` 256) (b p `mod` 256).

(** The header of a P3 file with maximum value [m]; [savePPM] writes it
    with [m = 255]. *)
Definition header_text (w h m : Z) : list ascii :=
  ["P"; "3"; nl]%char ++ show_int w ++ [spc] ++ show_int h ++ [nl]
  ++ show_int m ++ [nl].

(** The values of [r], [g], [b] after the pixels [ps] have been read. *)
Definition vars_after (ps : list Pixel) (v0 : option Z * option Z * option Z)
  : option Z * option Z * option Z :=
  foldl (fun _ p => (Some (r p), Some (g p), Some (b p))) v0 ps.

Definition row_pixels (P : Z -> Z -> Pixel) (xs : list Z) (y : Z)
  : list Pixel :=
  (fun x => P x y) <$> xs.

Definition rows_pixels (P : Z -> Z -> Pixel) (ys xs : list Z) : list Pixel :=
  concat ((fun y => row_pixels P xs y) <$> ys).

(** A stream from which no further number can be extracted. *)
Definition dry (s : istream) : Prop :=
  (good s = true /\ all_space (rest s)) \/ failbit s = true.

Definition first_token (text : list ascii) : list ascii :=
  take_while (fun c => negb (is_space c)) (drop_while is_space text).

(** A comment line: white space, ['#'], the comment, a newline. *)
Definition comment_line (wc : list ascii * list ascii) : list ascii :=
  wc.1 ++ "#"%char :: wc.2 ++ [nl].

Definition short_comment (wc : list ascii * list ascii) : Prop :=
  all_space wc.1 /\ Forall (fun c => c <> nl) wc.2 /\
  (length wc.2 < 4095)%nat.

(** ** Debug frames and [main]

    [execute] also writes one file per stage, and [main] reads file
    names and answers from standard input.  Output files are modelled
    by the list of names and texts sent to [ofstream]s, in the order
    written; the files [main] can read by a function from names to
    texts ([None]: the file cannot be opened). *)

Definition file_log : Type := list (list ascii * list ascii).

(** ["debug_stage_" + to_string(step) + ".ppm"] *)
Definition debug_name (step : Z) : list ascii :=
  ["d"; "e"; "b"; "u"; "g"; "_"; "s"; "t"; "a"; "g"; "e"; "_"]%char
  ++ show_int step ++ ["."; "p"; "p"; "m"]%char.

Definition final_output : list ascii :=
  ["f"; "i"; "n"; "a"; "l"; "_"; "o"; "u"; "t"; "p"; "u"; "t";
   "."; "p"; "p"; "m"]%char.

(** [void execute()] with step 3 of its loop, the debug frame written
    after the swap.  The loop state is
    [(workingBuffer, backBuffer, step, files written)]. *)
Definition execute_frames (P : Pipeline) (junk : nat -> Pixel)
  : M (Pipeline * file_log) :=
  w <- p_getWidth (workingBuffer P) ;;
  h <- p_getHeight (workingBuffer P) ;;
  bb <- lift (Image_new w h junk) ;;
  backBuffer <- alloc bb ;;
  st <- forM (stages P) (fun filter '(wb, back, step, files) =>
          Filter_apply filter wb back ;;;
          let '(wb, back) := (back, wb) in
          text <- savePPM wb ;;
          ret (wb, back, step + 1, files ++ [(debug_name step, text)]))
        (workingBuffer P, backBuffer, 1, []) ;;
  let '(wb, back, _, files) := st in
  free back ;;;
  ret (mkPipeline (stages P) wb, files).

(** [main] from [Pipeline fpgaPipe(inputImg)] to the end: the three
    stages, the run, the final file, [delete inputImg] and the
    destructor of [fpgaPipe]. *)
Definition main_run (inputImg : loc) (junk1 junk2 : nat -> Pixel)
  : M file_log :=
  fpgaPipe <- Pipeline_new inputImg junk1 ;;
  let fpgaPipe := addStage fpgaPipe Grayscale in
  let fpgaPipe := addStage fpgaPipe Blur in
  let fpgaPipe := addStage fpgaPipe Sobel in
  res <- execute_frames fpgaPipe junk2 ;;
  let '(fpgaPipe, files) := res in
  final <- savePPM (getResult fpgaPipe) ;;
  free inputImg ;;;
  Pipeline_delete fpgaPipe ;;;
  ret (files ++ [(final_output, final)]).

(** [cin >> choice] for a [char]: the first character after white
    space; the target is left alone when there is none. *)
Definition read_char (s : istream) (old : option ascii)
  : option ascii * istream :=
  let '(ok, s1) := sentry false s in
  if ok then
    match rest s1 with
    | c :: r => (Some c, mkIstream r (eofbit s1) (failbit s1))
    | [] => (old, mkIstream [] true true)
    end
  else (old, s1).

(** How the input loop of [main] is left. *)
Inductive loop_exit : Type :=
  | Loaded (inputImg : loc)
  | Quit.

(** The [while (true)] loop of [main], run on fuel ([None]: the fuel
    did not suffice).  [choice] is declared without initialiser in each
    iteration; comparing it when the extraction assigned nothing is
    undefined. *)
Fixpoint main_loop (fuel : nat) (fs : list ascii -> option (list ascii))
  (junk : nat -> Pixel) (cin : istream) (filename : list ascii)
  : M (option loop_exit) :=
  match fuel with
  | O => ret None
  | S fuel' =>
      let '(filename, cin) := read_string cin filename in
      inputImg <- loadPPM (fs filename) junk ;;
      match inputImg with
      | Some inputImg => ret (Some (Loaded inputImg))
      | None =>
          let '(choice, cin) := read_char cin None in
          choice <- lift choice ;;
          if Ascii.eqb choice "n" then ret (Some Quit)
          else main_loop fuel' fs junk cin filename
      end
  end.

(** [int main()]: the files written ([None]: the fuel of the input loop
    did not suffice, which [main_input_loop_terminates] excludes). *)
Definition main (cin : istream) (fs : list ascii -> option (list ascii))
  (junk0 junk1 junk2 : nat -> Pixel) : M (option file_log) :=
  e <- main_loop (S (length (rest cin))) fs junk0 cin [] ;;
  match e with
  | Some (Loaded inputImg) =>
      files <- main_run inputImg junk1 junk2 ;; ret (Some files)
  | Some Quit => ret (Some [])
  | None => ret None
  end.

(** *** Debug frames and user input, described *)

(** The debug frames of the stages [fs], numbered from [step], when the
    front buffer holds [bufs.1] and the back buffer [bufs.2]. *)
Fixpoint frames_of (step : Z) (fs : list Filter) (bufs : Image * Image)
  : file_log :=
  match fs with
  | [] => []
  | f :: fs' =>
      let out := stage_output f bufs.1 bufs.2 in
      (debug_name step, ppm_text out) :: frames_of (step + 1) fs' (out, bufs.1)
  end.

(** A file name as [cin >> filename] extracts it. *)
Definition word (w : list ascii) : Prop :=
  w <> [] /\ Forall (fun c => is_space c = false) w.

(** A file [loadPPM] answers with [nullptr]. *)
Definition unloadable (file : option (list ascii)) : Prop :=
  file = None \/
  exists text, file = Some text /\ first_token text <> ["P"; "3"]%char.

(** A failed attempt of the user: the name of a file that does not
    load, then an answer other than [n], each on a line of its own. *)
Definition attempt_text (a : list ascii * ascii) : list ascii :=
  a.1 ++ [nl; a.2; nl].

Definition retry (fs : list ascii -> option (list ascii))
  (a : list ascii * ascii) : Prop :=
  word a.1 /\ unloadable (fs a.1) /\
  is_space a.2 = false /\ a.2 <> "n"%char.

(** * Properties *)

(** ** Fixed-point helpers *)

Section HardwareMathFacts.
Import HardwareMath.

Lemma clamp_range (v : Z) : 0 <= clamp v <= 255.
Proof.
  unfold clamp.
  destruct (Z.ltb_spec v 0); [lia|].
  destruct (Z.ltb_spec 255 v); [lia|].
  rewrite Z.mod_small; lia.
Qed.

Lemma clamp_id (v : Z) : 0 <= v <= 255 -> clamp v = v.
Proof.
  intros Hv. unfold clamp.
  destruct (Z.ltb_spec v 0); [lia|].
  destruct (Z.ltb_spec 255 v); [lia|].
  apply Z.mod_small. lia.
Qed.

Lemma clamp_low (v : Z) : v < 0 -> clamp v = 0.
Proof. intros Hv. unfold clamp. destruct (Z.ltb_spec v 0); [done|lia]. Qed.

Lemma clamp_high (v : Z) : 255 < v -> clamp v = 255.
Proof.
  intros Hv. unfold clamp.
  destruct (Z.ltb_spec v 0); [lia|].
  destruct (Z.ltb_spec 255 v); [done|lia].
Qed.

Lemma fromFixed_div (i : Z) : fromFixed i = i `div` 256.
Proof. unfold fromFixed. by rewrite Z.shiftr_div_pow2. Qed.

(** The sum of the grayscale stage fits an [int] with room to spare. *)
Lemma gray_sum_bounds (p : Pixel) :
  pixel_ok p -> 0 <= r p * 77 + g p * 150 + b p * 29 <= 65280.
Proof. unfold pixel_ok, byte_ok. lia. Qed.

End HardwareMathFacts.

(** C6.  For every integer [v], [clamp v] lies in 0..255, [clamp] is
    idempotent, values below 0 map to 0, values above 255 map to 255 and
    values already in 0..255 are returned unchanged. *)
Theorem clamp_saturates (v : Z) :
  0 <= HardwareMath.clamp v <= 255 /\
  HardwareMath.clamp (HardwareMath.clamp v) = HardwareMath.clamp v /\
  (v < 0 -> HardwareMath.clamp v = 0) /\
  (255 < v -> HardwareMath.clamp v = 255) /\
  (0 <= v <= 255 -> HardwareMath.clamp v = v).
Proof.
  repeat split.
  - apply clamp_range.
  - apply clamp_range.
  - apply clamp_id, clamp_range.
  - apply clamp_low.
  - apply clamp_high.
  - apply clamp_id.
Qed.

Lemma clamp_saturates_witness :
  HardwareMath.clamp (-3) = 0 /\
  HardwareMath.clamp 300 = 255 /\
  HardwareMath.clamp 77 = 77.
Proof.
  split; [|split].
  - apply (clamp_saturates (-3)). lia.
  - apply (clamp_saturates 300). lia.
  - apply (clamp_saturates 77). lia.
Defined.

(** C10.  For channel values in 0..255 the grayscale intensity
    [(r*77 + g*150 + b*29) >> 8] already lies in 0..255: neither
    saturation test of [clamp] fires on it and [clamp] returns it
    unchanged. *)
Theorem gray_intensity_never_saturates (p : Pixel) :
  pixel_ok p ->
  let gray := Z.shiftr (r p * 77 + g p * 150 + b p * 29) 8 in
  0 <= gray <= 255 /\
  (gray <? 0) = false /\ (255 <? gray) = false /\
  HardwareMath.clamp gray = gray.
Proof.
  intros Hp gray.
  assert (Hg : 0 <= gray <= 255).
  { subst gray. rewrite Z.shiftr_div_pow2 by lia.
    pose proof (gray_sum_bounds p Hp) as Hs.
    change (2 ^ 8) with 256. split.
    - apply Z.div_pos; lia.
    - apply Z.div_le_upper_bound; lia. }
  repeat split; try lia.
  apply clamp_id, Hg.
Qed.

Lemma gray_intensity_never_saturates_witness :
  HardwareMath.clamp (Z.shiftr (255 * 77 + 255 * 150 + 255 * 29) 8)
  = Z.shiftr (255 * 77 + 255 * 150 + 255 * 29) 8.
Proof.
  apply (gray_intensity_never_saturates (mkPixel 255 255 255)).
  unfold pixel_ok, byte_ok. simpl. lia.
Defined.


(** ** The pixel buffer *)

(** Decide every integer comparison of the goal. *)
Ltac cmp_cases :=
  repeat match goal with
    | |- context [Z.ltb ?a ?b] => destruct (Z.ltb_spec a b)
    | |- context [Z.leb ?a ?b] => destruct (Z.leb_spec a b)
    end; simpl.

Lemma index_in_block (w h x y : Z) :
  0 <= x < w -> 0 <= y < h -> 0 <= y * w + x < w * h.
Proof. intros Hx Hy. nia. Qed.

Lemma index_injective (w x y x' y' : Z) :
  0 <= x < w -> 0 <= x' < w -> y * w + x = y' * w + x' -> x = x' /\ y = y'.
Proof.
  intros Hx Hx' E.
  assert (y = y') as -> by (destruct (Z.lt_trichotomy y y') as [?|[?|?]]; nia).
  lia.
Qed.

Lemma block_write_ok (d : list Pixel) (i : Z) (p : Pixel) :
  0 <= i < Z.of_nat (length d) ->
  block_write d i p = Some (<[Z.to_nat i := p]> d).
Proof. intros Hi. unfold block_write. cmp_cases; done || lia. Qed.

Lemma block_read_ok (d : list Pixel) (i : Z) :
  0 <= i < Z.of_nat (length d) ->
  exists q, d !! Z.to_nat i = Some q /\ block_read d i = Some q.
Proof.
  intros Hi. unfold block_read. cmp_cases; [lia|].
  destruct (lookup_lt_is_Some_2 d (Z.to_nat i)) as [q Hq]; [lia|].
  by exists q.
Qed.

Section ImageFacts.
Variable img : Image.
Hypothesis Hwf : wf_image img.

Lemma getPixel_out (x y : Z) :
  ~ (0 <= x < width img /\ 0 <= y < height img) ->
  getPixel img x y = Some zero_pixel.
Proof. intros Hout. unfold getPixel. cmp_cases; done || lia. Qed.

Lemma getPixel_in (x y : Z) :
  0 <= x < width img -> 0 <= y < height img ->
  exists q, data img !! Z.to_nat (y * width img + x) = Some q /\
            getPixel img x y = Some q.
Proof using Hwf.
  intros Hx Hy. destruct Hwf as (_ & _ & Hlen).
  pose proof (index_in_block _ _ _ _ Hx Hy) as Hi.
  destruct (block_read_ok (data img) (y * width img + x)) as (q & Hq & Hr);
    [lia|].
  exists q. split; [done|].
  unfold getPixel. cmp_cases; done || lia.
Qed.

Lemma getPixel_px (x y : Z) : getPixel img x y = Some (px img x y).
Proof using Hwf.
  unfold px.
  destruct (decide (0 <= x < width img /\ 0 <= y < height img))
    as [[Hx Hy]|Hout].
  - destruct (getPixel_in x y Hx Hy) as (q & _ & ->). done.
  - by rewrite getPixel_out.
Qed.

Lemma setPixel_out (x y : Z) (p : Pixel) :
  ~ (0 <= x < width img /\ 0 <= y < height img) ->
  setPixel img x y p = Some img.
Proof. intros Hout. unfold setPixel. cmp_cases; done || lia. Qed.

Lemma setPixel_in (x y : Z) (p : Pixel) :
  0 <= x < width img -> 0 <= y < height img ->
  setPixel img x y p
  = Some (mkImage (width img) (height img)
            (<[Z.to_nat (y * width img + x) := p]> (data img))).
Proof using Hwf.
  intros Hx Hy. destruct Hwf as (_ & _ & Hlen).
  pose proof (index_in_block _ _ _ _ Hx Hy) as Hi.
  unfold setPixel. rewrite block_write_ok by lia.
  cmp_cases; done || lia.
Qed.

Lemma setPixel_upd (x y : Z) (p : Pixel) :
  setPixel img x y p = Some (upd img x y p).
Proof using Hwf.
  unfold upd.
  destruct (decide (0 <= x < width img /\ 0 <= y < height img))
    as [[Hx Hy]|Hout].
  - by rewrite setPixel_in.
  - by rewrite setPixel_out.
Qed.

Lemma upd_out (x y : Z) (p : Pixel) :
  ~ (0 <= x < width img /\ 0 <= y < height img) -> upd img x y p = img.
Proof. intros Hout. unfold upd. by rewrite setPixel_out. Qed.

Lemma upd_in (x y : Z) (p : Pixel) :
  0 <= x < width img -> 0 <= y < height img ->
  upd img x y p
  = mkImage (width img) (height img)
      (<[Z.to_nat (y * width img + x) := p]> (data img)).
Proof using Hwf. intros Hx Hy. unfold upd. by rewrite setPixel_in. Qed.

Lemma width_upd (x y : Z) (p : Pixel) : width (upd img x y p) = width img.
Proof using Hwf.
  destruct (decide (0 <= x < width img /\ 0 <= y < height img))
    as [[Hx Hy]|Hout].
  - by rewrite upd_in.
  - by rewrite upd_out.
Qed.

Lemma height_upd (x y : Z) (p : Pixel) : height (upd img x y p) = height img.
Proof using Hwf.
  destruct (decide (0 <= x < width img /\ 0 <= y < height img))
    as [[Hx Hy]|Hout].
  - by rewrite upd_in.
  - by rewrite upd_out.
Qed.

Lemma wf_upd (x y : Z) (p : Pixel) : wf_image (upd img x y p).
Proof using Hwf.
  destruct (decide (0 <= x < width img /\ 0 <= y < height img))
    as [[Hx Hy]|Hout].
  - rewrite upd_in by done. destruct Hwf as (Hw & Hh & Hlen).
    repeat split; simpl; try done. by rewrite length_insert.
  - by rewrite upd_out.
Qed.

End ImageFacts.

Lemma px_upd_same (img : Image) (x y : Z) (p : Pixel) :
  wf_image img -> 0 <= x < width img -> 0 <= y < height img ->
  px (upd img x y p) x y = p.
Proof.
  intros Hwf Hx Hy.
  pose proof (wf_upd img Hwf x y p) as Hwf'.
  destruct (getPixel_in _ Hwf' x y) as (q & Hq & Hg).
  { by rewrite width_upd. } { by rewrite height_upd. }
  unfold px. rewrite Hg. simpl.
  rewrite upd_in in Hq by done. simpl in Hq.
  rewrite list_lookup_insert_eq in Hq; [congruence|].
  destruct Hwf as (_ & _ & Hlen).
  pose proof (index_in_block _ _ _ _ Hx Hy). lia.
Qed.

Lemma px_upd_other (img : Image) (x y x' y' : Z) (p : Pixel) :
  wf_image img -> ~ (x = x' /\ y = y') ->
  px (upd img x y p) x' y' = px img x' y'.
Proof.
  intros Hwf Hne.
  destruct (decide (0 <= x < width img /\ 0 <= y < height img))
    as [[Hx Hy]|Hout]; [|by rewrite upd_out].
  pose proof (wf_upd img Hwf x y p) as Hwf'.
  destruct (decide (0 <= x' < width img /\ 0 <= y' < height img))
    as [[Hx' Hy']|Hout'].
  - destruct (getPixel_in _ Hwf' x' y') as (q & Hq & Hg).
    { by rewrite width_upd. } { by rewrite height_upd. }
    destruct (getPixel_in _ Hwf x' y' Hx' Hy') as (q' & Hq' & Hg').
    unfold px. rewrite Hg, Hg'. simpl.
    rewrite upd_in in Hq by done. simpl in Hq.
    rewrite list_lookup_insert_ne in Hq; [congruence|].
    intros E. apply Hne.
    apply (index_injective (width img)); [done|done|].
    pose proof (index_in_block _ _ _ _ Hx Hy).
    pose proof (index_in_block _ _ _ _ Hx' Hy'). lia.
  - unfold px. rewrite !getPixel_out; [done|done|].
    by rewrite width_upd, height_upd.
Qed.

(** Two well-formed images of equal dimensions that read the same at
    every coordinate are equal. *)
Lemma image_ext (a c : Image) :
  wf_image a -> wf_image c ->
  width a = width c -> height a = height c ->
  (forall x y, 0 <= x < width a -> 0 <= y < height a -> px a x y = px c x y) ->
  a = c.
Proof.
  intros Ha Hc Hw Hh Hpx.
  destruct a as [wa ha da], c as [wc hc dc]. simpl in *. subst wc hc.
  f_equal. apply list_eq_same_length with (n := length da); [|done|].
  { destruct Ha as (_ & _ & La), Hc as (_ & _ & Lc). simpl in *. lia. }
  intros i p q Hi Hp Hq.
  pose proof Ha as (Hw0 & Hh0 & La). simpl in *.
  set (x := Z.of_nat i `mod` wa). set (y := Z.of_nat i `div` wa).
  assert (Hx : 0 <= x < wa) by (apply Z.mod_pos_bound; lia).
  assert (Hy : 0 <= y < ha).
  { split; [apply Z.div_pos; lia|]. apply Z.div_lt_upper_bound; lia. }
  assert (Ei : Z.to_nat (y * wa + x) = i).
  { subst x y. rewrite (Z.mul_comm _ wa), <- Z.div_mod by lia. lia. }
  specialize (Hpx x y Hx Hy).
  destruct (getPixel_in _ Ha x y Hx Hy) as (p' & Hp' & Hg).
  destruct (getPixel_in _ Hc x y Hx Hy) as (q' & Hq' & Hg').
  simpl in *. unfold px in Hpx. rewrite Hg, Hg' in Hpx. simpl in Hpx.
  rewrite Ei in Hp', Hq'. congruence.
Qed.


(** C4.  On a buffer of dimensions at least 1x1, [getPixel] returns the
    zero pixel at every coordinate outside the grid and the stored pixel
    inside it; [setPixel] outside the grid leaves the whole buffer as it
    was; and neither operation fails, whatever the coordinate. *)
Theorem image_access_zero_padded (img : Image) (x y : Z) (p : Pixel) :
  wf_image img ->
  (0 <= x < width img /\ 0 <= y < height img ->
   exists q, data img !! Z.to_nat (y * width img + x) = Some q /\
             getPixel img x y = Some q) /\
  (~ (0 <= x < width img /\ 0 <= y < height img) ->
   getPixel img x y = Some zero_pixel /\ setPixel img x y p = Some img) /\
  is_Some (getPixel img x y) /\ is_Some (setPixel img x y p).
Proof.
  intros Hwf. split; [|split; [|split]].
  - intros [Hx Hy]. by apply getPixel_in.
  - intros Hout. split; [by apply getPixel_out | by apply setPixel_out].
  - rewrite getPixel_px by done. by eexists.
  - rewrite setPixel_upd by done. by eexists.
Qed.

Lemma image_access_zero_padded_witness :
  getPixel (mkImage 2 1 [mkPixel 1 2 3; mkPixel 4 5 6]) 2 0 = Some zero_pixel /\
  setPixel (mkImage 2 1 [mkPixel 1 2 3; mkPixel 4 5 6]) 2 0 (mkPixel 9 9 9)
  = Some (mkImage 2 1 [mkPixel 1 2 3; mkPixel 4 5 6]).
Proof.
  apply (image_access_zero_padded
           (mkImage 2 1 [mkPixel 1 2 3; mkPixel 4 5 6]) 2 0 (mkPixel 9 9 9)).
  - unfold wf_image. simpl. lia.
  - simpl. lia.
Defined.

(** ** Raster scans *)

Section FillFacts.
Variable F : Z -> Z -> Pixel.

Lemma fill_row_shape (xs : list Z) (y : Z) (d : Image) :
  wf_image d ->
  wf_image (fill_row xs F d y) /\
  width (fill_row xs F d y) = width d /\
  height (fill_row xs F d y) = height d.
Proof.
  revert d. induction xs as [|a xs IH]; intros d Hd; [done|].
  simpl. destruct (IH (upd d a y (F a y))) as (Hwf & Hw & Hh).
  { by apply wf_upd. }
  by rewrite Hw, Hh, width_upd, height_upd.
Qed.

Lemma fill_shape (ys xs : list Z) (d : Image) :
  wf_image d ->
  wf_image (fill ys xs F d) /\
  width (fill ys xs F d) = width d /\
  height (fill ys xs F d) = height d.
Proof.
  revert d. induction ys as [|a ys IH]; intros d Hd; [done|].
  unfold fill. simpl.
  destruct (fill_row_shape xs a d Hd) as (Hwf & Hw & Hh).
  destruct (IH _ Hwf) as (Hwf' & Hw' & Hh').
  unfold fill in *. by rewrite Hw', Hh', Hw, Hh.
Qed.

Lemma px_fill_row_other (xs : list Z) (y0 : Z) (d : Image) (x y : Z) :
  wf_image d -> ~ (y = y0 /\ x ∈ xs) ->
  px (fill_row xs F d y0) x y = px d x y.
Proof.
  revert d. induction xs as [|a xs IH]; intros d Hd Hn; [done|].
  simpl. rewrite IH.
  - apply px_upd_other; [done|]. intros [-> ->]. apply Hn. split; [done|].
    apply elem_of_cons. by left.
  - by apply wf_upd.
  - intros [-> Hx]. apply Hn. split; [done|]. apply elem_of_cons. by right.
Qed.

Lemma px_fill_row_written (xs : list Z) (y : Z) (d : Image) (x : Z) :
  wf_image d -> x ∈ xs -> 0 <= x < width d -> 0 <= y < height d ->
  px (fill_row xs F d y) x y = F x y.
Proof.
  revert d. induction xs as [|a xs IH]; intros d Hd Hin Hx Hy.
  { by apply elem_of_nil in Hin. }
  simpl. destruct (decide (x ∈ xs)) as [Hxs|Hxs].
  - apply IH; [by apply wf_upd|done| |].
    + by rewrite width_upd.
    + by rewrite height_upd.
  - apply elem_of_cons in Hin as [->|Hin]; [|done].
    rewrite px_fill_row_other; [|by apply wf_upd|tauto].
    by apply px_upd_same.
Qed.

Lemma px_fill_other (ys xs : list Z) (d : Image) (x y : Z) :
  wf_image d -> ~ (y ∈ ys /\ x ∈ xs) ->
  px (fill ys xs F d) x y = px d x y.
Proof.
  revert d. induction ys as [|a ys IH]; intros d Hd Hn; [done|].
  unfold fill in *. simpl.
  destruct (fill_row_shape xs a d Hd) as (Hwf & _ & _).
  rewrite IH; [|done|].
  - apply px_fill_row_other; [done|]. intros [-> Hx]. apply Hn.
    split; [|done]. apply elem_of_cons. by left.
  - intros [Hy Hx]. apply Hn. split; [|done]. apply elem_of_cons. by right.
Qed.

Lemma px_fill_written (ys xs : list Z) (d : Image) (x y : Z) :
  wf_image d -> y ∈ ys -> x ∈ xs ->
  0 <= x < width d -> 0 <= y < height d ->
  px (fill ys xs F d) x y = F x y.
Proof.
  revert d. induction ys as [|a ys IH]; intros d Hd Hiy Hix Hx Hy.
  { by apply elem_of_nil in Hiy. }
  unfold fill in *. simpl.
  destruct (fill_row_shape xs a d Hd) as (Hwf & Hw & Hh).
  destruct (decide (y ∈ ys)) as [Hys|Hys].
  - apply IH; try done; congruence.
  - apply elem_of_cons in Hiy as [->|Hiy]; [|done].
    pose proof (px_fill_other ys xs _ x a Hwf) as Ho. unfold fill in Ho.
    rewrite Ho by tauto.
    by apply px_fill_row_written.
Qed.

End FillFacts.

(** ** The heap monad *)

Lemma load_ok (h : heap) (p : loc) (img : Image) :
  h !! p = Some img -> load p h = Some (img, h).
Proof. intros E. unfold load. by rewrite E. Qed.

Lemma p_getWidth_ok (h : heap) (p : loc) (img : Image) :
  h !! p = Some img -> p_getWidth p h = Some (width img, h).
Proof. intros E. unfold p_getWidth, bind. by rewrite (load_ok h p img). Qed.

Lemma p_getHeight_ok (h : heap) (p : loc) (img : Image) :
  h !! p = Some img -> p_getHeight p h = Some (height img, h).
Proof. intros E. unfold p_getHeight, bind. by rewrite (load_ok h p img). Qed.

Lemma p_getPixel_ok (h : heap) (p : loc) (img : Image) (x y : Z) :
  h !! p = Some img -> wf_image img ->
  p_getPixel p x y h = Some (px img x y, h).
Proof.
  intros E Hwf. unfold p_getPixel, bind, lift.
  by rewrite (load_ok h p img), getPixel_px.
Qed.

Lemma p_setPixel_ok (h : heap) (p : loc) (img : Image) (x y : Z) (q : Pixel) :
  h !! p = Some img -> wf_image img ->
  p_setPixel p x y q h = Some (tt, <[p := upd img x y q]> h).
Proof.
  intros E Hwf. unfold p_setPixel, bind, lift, store.
  by rewrite (load_ok h p img), setPixel_upd, E.
Qed.

Lemma bind_eq {A B} (m : M A) (k : A -> M B) (h h' : heap) (a : A) :
  m h = Some (a, h') -> bind m k h = k a h'.
Proof. intros E. unfold bind. by rewrite E. Qed.

(** A loop whose body only reads the heap is a fold over its counter. *)
Lemma forM_read {A S} (l : list A) (body : A -> S -> M S)
    (f : S -> A -> S) (h : heap) :
  (forall a s, body a s h = Some (f s a, h)) ->
  forall s, forM l body s h = Some (foldl f s l, h).
Proof.
  intros Hbody. induction l as [|a l IH]; intros s; [done|].
  simpl. unfold bind. by rewrite Hbody, IH.
Qed.

(** A loop whose body rewrites the image at [dest], and nothing else, is
    a fold over its counter on that image. *)
Lemma forM_write {A} (h0 : heap) (dest : loc) (l : list A)
    (body : A -> unit -> M unit) (step : Image -> A -> Image) :
  (forall a d, wf_image d ->
     body a tt (<[dest := d]> h0) = Some (tt, <[dest := step d a]> h0) /\
     wf_image (step d a)) ->
  forall d, wf_image d ->
    forM l body tt (<[dest := d]> h0)
    = Some (tt, <[dest := foldl step d l]> h0) /\
    wf_image (foldl step d l).
Proof.
  intros Hbody. induction l as [|a l IH]; intros d Hd; [done|].
  simpl. unfold bind. destruct (Hbody a d Hd) as [-> Hwf]. by apply IH.
Qed.

(** ** The filters as raster scans *)

Section FilterFacts.
Variables (h0 : heap) (src dest : loc) (s : Image).
Hypothesis Hne : src <> dest.
Hypothesis Hsrc : h0 !! src = Some s.
Hypothesis Hs : wf_image s.

Lemma src_lookup (d : Image) : <[dest := d]> h0 !! src = Some s.
Proof using Hne Hsrc. by rewrite lookup_insert_ne. Qed.

Lemma write_dest (d : Image) (x y : Z) (q : Pixel) :
  wf_image d ->
  p_setPixel dest x y q (<[dest := d]> h0)
  = Some (tt, <[dest := upd d x y q]> h0).
Proof.
  intros Hd.
  rewrite (p_setPixel_ok _ dest d) by (done || apply lookup_insert_eq).
  by rewrite insert_insert_eq.
Qed.

Lemma raster_scan (F : Z -> Z -> Pixel) (body : Z -> Z -> M unit)
    (ys : list Z) (xs : Z -> list Z) :
  (forall x y d, wf_image d ->
     body x y (<[dest := d]> h0)
     = Some (tt, <[dest := upd d x y (F x y)]> h0)) ->
  forall d, wf_image d ->
    forM ys (fun y _ =>
               w <- p_getWidth src ;;
               forM (xs w) (fun x _ => body x y) tt) tt (<[dest := d]> h0)
    = Some (tt, <[dest := fill ys (xs (width s)) F d]> h0).
Proof using Hne Hsrc.
  intros Hbody d Hd.
  apply (forM_write h0 dest ys _ (fill_row (xs (width s)) F)); [|done].
  clear d Hd. intros y d Hd. unfold bind.
  rewrite (p_getWidth_ok _ src s) by apply src_lookup.
  destruct (forM_write h0 dest (xs (width s)) (fun x _ => body x y)
              (fun d x => upd d x y (F x y))) with (d := d) as [E Hwf];
    [|done|done].
  intros x d' Hd'. split; [by apply Hbody | by apply wf_upd].
Qed.

Lemma gray_body (x y : Z) (d : Image) :
  wf_image d ->
  (p <- p_getPixel src x y ;;
   let gray := Z.shiftr (r p * 77 + g p * 150 + b p * 29) 8 in
   let val := HardwareMath.clamp gray in
   p_setPixel dest x y (mkPixel val val val)) (<[dest := d]> h0)
  = Some (tt, <[dest := upd d x y (gray_at s x y)]> h0).
Proof using Hne Hsrc Hs.
  intros Hd. unfold bind.
  rewrite (p_getPixel_ok _ src s) by (done || apply src_lookup).
  simpl. by rewrite write_dest.
Qed.

Lemma conv_loop (k : list (list Z)) (x y : Z) (d : Image) :
  forM (seqZ (-1) 3) (fun ky sum =>
    forM (seqZ (-1) 3) (fun kx sum =>
      p <- p_getPixel src (x + kx) (y + ky) ;;
      ret (sum + r p * at2 k (ky + 1) (kx + 1))) sum) 0 (<[dest := d]> h0)
  = Some (conv k s x y, <[dest := d]> h0).
Proof using Hne Hsrc Hs.
  unfold conv. apply forM_read. intros ky sum.
  apply (forM_read _ _
           (fun sum kx =>
              sum + r (px s (x + kx) (y + ky)) * at2 k (ky + 1) (kx + 1))).
  intros kx sum'. unfold bind, ret.
  by rewrite (p_getPixel_ok _ src s) by (done || apply src_lookup).
Qed.

Lemma blur_body (x y : Z) (d : Image) :
  wf_image d ->
  (sum <- forM (seqZ (-1) 3) (fun ky sum =>
            forM (seqZ (-1) 3) (fun kx sum =>
              p <- p_getPixel src (x + kx) (y + ky) ;;
              ret (sum + r p * at2 BlurFilter.kernel (ky + 1) (kx + 1)))
              sum) 0 ;;
   let val := HardwareMath.clamp (sum `quot` BlurFilter.divisor) in
   p_setPixel dest x y (mkPixel val val val)) (<[dest := d]> h0)
  = Some (tt, <[dest := upd d x y (blur_at s x y)]> h0).
Proof using Hne Hsrc Hs.
  intros Hd. erewrite bind_eq by apply conv_loop. simpl. by rewrite write_dest.
Qed.

(** The Sobel loop accumulates both gradients in one pass. *)
Lemma sobel_loop (x y : Z) (d : Image) :
  forM (seqZ (-1) 3) (fun i sums =>
    forM (seqZ (-1) 3) (fun j '(sumX, sumY) =>
      p <- p_getPixel src (x + j) (y + i) ;;
      let val := r p in
      ret (sumX + val * at2 SobelFilter.gx (i + 1) (j + 1),
           sumY + val * at2 SobelFilter.gy (i + 1) (j + 1))) sums)
    (0, 0) (<[dest := d]> h0)
  = Some ((conv SobelFilter.gx s x y, conv SobelFilter.gy s x y),
          <[dest := d]> h0).
Proof using Hne Hsrc Hs.
  rewrite (forM_read _ _
    (fun sums i =>
       foldl (fun '(sumX, sumY) j =>
                (sumX + r (px s (x + j) (y + i))
                        * at2 SobelFilter.gx (i + 1) (j + 1),
                 sumY + r (px s (x + j) (y + i))
                        * at2 SobelFilter.gy (i + 1) (j + 1)))
             sums (seqZ (-1) 3))).
  - done.
  - intros i sums. apply forM_read. intros j [sumX sumY]. unfold bind, ret.
    by rewrite (p_getPixel_ok _ src s) by (done || apply src_lookup).
Qed.

Lemma sobel_body (x y : Z) (d : Image) :
  wf_image d ->
  (sums <- forM (seqZ (-1) 3) (fun i sums =>
             forM (seqZ (-1) 3) (fun j '(sumX, sumY) =>
               p <- p_getPixel src (x + j) (y + i) ;;
               let val := r p in
               ret (sumX + val * at2 SobelFilter.gx (i + 1) (j + 1),
                    sumY + val * at2 SobelFilter.gy (i + 1) (j + 1))) sums)
             (0, 0) ;;
   let mag := Z.abs (fst sums) + Z.abs (snd sums) in
   let final := HardwareMath.clamp mag in
   p_setPixel dest x y (mkPixel final final final)) (<[dest := d]> h0)
  = Some (tt, <[dest := upd d x y (sobel_at s x y)]> h0).
Proof using Hne Hsrc Hs.
  intros Hd. erewrite bind_eq by apply sobel_loop. simpl. by rewrite write_dest.
Qed.

End FilterFacts.

(** Every stage, run on two distinct well-formed buffers, terminates
    without error, rewrites [dest] to [stage_output] and touches nothing
    else in the heap. *)
Lemma Filter_apply_eq (f : Filter) (h : heap) (src dest : loc) (s d : Image) :
  src <> dest -> h !! src = Some s -> h !! dest = Some d ->
  wf_image s -> wf_image d ->
  Filter_apply f src dest h = Some (tt, <[dest := stage_output f s d]> h).
Proof.
  intros Hne Hsrc Hdest Hs Hd.
  rewrite <- (insert_id h dest d Hdest) at 1.
  destruct f; simpl;
    unfold GrayscaleFilter.apply, BlurFilter.apply, SobelFilter.apply;
    erewrite bind_eq by (by apply (p_getHeight_ok _ src s), src_lookup).
  - apply (raster_scan h src dest s Hne Hsrc (gray_at s) _ _ (fun w => seqZ 0 w));
      [|done].
    intros. by apply gray_body.
  - apply (raster_scan h src dest s Hne Hsrc (blur_at s) _ _ (fun w => seqZ 0 w));
      [|done].
    intros. by apply blur_body.
  - apply (raster_scan h src dest s Hne Hsrc (sobel_at s) _ _
             (fun w => seqZ 1 (w - 1 - 1))); [|done].
    intros. by apply sobel_body.
Qed.

(** The image a stage leaves behind is well formed and keeps the
    dimensions of the destination. *)
Lemma stage_output_shape (f : Filter) (s d : Image) :
  wf_image d ->
  wf_image (stage_output f s d) /\
  width (stage_output f s d) = width d /\
  height (stage_output f s d) = height d.
Proof. intros Hd. destruct f; by apply fill_shape. Qed.

(** The block of a well-formed image, read through its coordinates. *)
Lemma lookup_px (img : Image) (i : nat) (p : Pixel) :
  wf_image img -> data img !! i = Some p ->
  0 <= Z.of_nat i `mod` width img < width img /\
  0 <= Z.of_nat i `div` width img < height img /\
  px img (Z.of_nat i `mod` width img) (Z.of_nat i `div` width img) = p.
Proof.
  intros Hwf Hp. pose proof Hwf as (Hw & Hh & Hlen).
  apply lookup_lt_Some in Hp as Hi.
  set (x := Z.of_nat i `mod` width img). set (y := Z.of_nat i `div` width img).
  assert (Hx : 0 <= x < width img) by (apply Z.mod_pos_bound; lia).
  assert (Hy : 0 <= y < height img).
  { split; [apply Z.div_pos; lia|]. apply Z.div_lt_upper_bound; lia. }
  assert (Ei : Z.to_nat (y * width img + x) = i).
  { subst x y. rewrite (Z.mul_comm _ (width img)), <- Z.div_mod by lia. lia. }
  repeat split; try lia.
  destruct (getPixel_in _ Hwf x y Hx Hy) as (q & Hq & Hg).
  unfold px. rewrite Hg. simpl. rewrite Ei in Hq. congruence.
Qed.

(** ** The grayscale stage *)

(** C5.  The grayscale stage writes, at every in-range coordinate, the
    pixel whose three channels equal
    [clamp ((r*77 + g*150 + b*29) >> 8)] of the source pixel at that
    coordinate; every pixel of the output has equal red, green and blue
    channels. *)
Theorem grayscale_writes_luminance
    (h : heap) (src dest : loc) (s d : Image) :
  src <> dest -> h !! src = Some s -> h !! dest = Some d ->
  wf_image s -> wf_image d ->
  width d = width s -> height d = height s ->
  exists d',
    GrayscaleFilter.apply src dest h = Some (tt, <[dest := d']> h) /\
    (forall x y, 0 <= x < width s -> 0 <= y < height s ->
       exists p, getPixel s x y = Some p /\
         getPixel d' x y
         = Some (let v := HardwareMath.clamp
                            (Z.shiftr (r p * 77 + g p * 150 + b p * 29) 8)
                 in mkPixel v v v)) /\
    Forall (fun q => r q = g q /\ g q = b q) (data d').
Proof.
  intros Hne Hsrc Hdest Hs Hd Hw Hh.
  exists (stage_output Grayscale s d).
  destruct (stage_output_shape Grayscale s d Hd) as (Hwf' & Hw' & Hh').
  split; [by apply (Filter_apply_eq Grayscale)|].
  assert (Hpx : forall x y, 0 <= x < width s -> 0 <= y < height s ->
            px (stage_output Grayscale s d) x y = gray_at s x y).
  { intros x y Hx Hy. apply px_fill_written; try done; try lia.
    - apply elem_of_seqZ. lia.
    - apply elem_of_seqZ. lia. }
  split.
  - intros x y Hx Hy. exists (px s x y). split; [by apply getPixel_px|].
    rewrite getPixel_px by done. by rewrite Hpx.
  - apply Forall_lookup. intros i q Hq.
    destruct (lookup_px _ i q Hwf' Hq) as (Hx & Hy & <-).
    rewrite Hw', Hw in *. rewrite Hh', Hh in *.
    by rewrite Hpx.
Qed.

Lemma grayscale_writes_luminance_witness :
  exists d',
    GrayscaleFilter.apply 1%positive 2%positive
      (<[2%positive := mkImage 1 1 [mkPixel 9 9 9]]>
         {[1%positive := mkImage 1 1 [mkPixel 255 0 0]]})
    = Some (tt, <[2%positive := d']>
                  (<[2%positive := mkImage 1 1 [mkPixel 9 9 9]]>
                     {[1%positive := mkImage 1 1 [mkPixel 255 0 0]]})) /\
    Forall (fun q => r q = g q /\ g q = b q) (data d').
Proof.
  destruct (grayscale_writes_luminance
              (<[2%positive := mkImage 1 1 [mkPixel 9 9 9]]>
                 {[1%positive := mkImage 1 1 [mkPixel 255 0 0]]})
              1%positive 2%positive
              (mkImage 1 1 [mkPixel 255 0 0]) (mkImage 1 1 [mkPixel 9 9 9]))
    as (d' & E & _ & Hgray);
    [done | done | done
    | unfold wf_image; simpl; lia | unfold wf_image; simpl; lia
    | done | done | ].
  exists d'. by split.
Defined.

(** ** The frame of a stage *)

(** C8.  Each of the three filters, applied to a source buffer and a
    destination buffer (two buffers, hence two distinct objects), returns
    normally and leaves the source buffer equal by value to its state
    before the call. *)
Theorem filters_preserve_source
    (f : Filter) (h : heap) (src dest : loc) (s d : Image) :
  src <> dest -> h !! src = Some s -> h !! dest = Some d ->
  wf_image s -> wf_image d ->
  exists h', Filter_apply f src dest h = Some (tt, h') /\ h' !! src = Some s.
Proof.
  intros Hne Hsrc Hdest Hs Hd.
  exists (<[dest := stage_output f s d]> h).
  split; [by apply Filter_apply_eq|].
  by rewrite lookup_insert_ne.
Qed.

Lemma filters_preserve_source_witness :
  exists h',
    Filter_apply Blur 1%positive 2%positive
      (<[2%positive := mkImage 1 1 [mkPixel 9 9 9]]>
         {[1%positive := mkImage 1 1 [mkPixel 255 0 0]]})
    = Some (tt, h') /\
    h' !! 1%positive = Some (mkImage 1 1 [mkPixel 255 0 0]).
Proof.
  apply (filters_preserve_source Blur _ 1%positive 2%positive
           (mkImage 1 1 [mkPixel 255 0 0]) (mkImage 1 1 [mkPixel 9 9 9])).
  - done.
  - done.
  - done.
  - unfold wf_image; simpl; lia.
  - unfold wf_image; simpl; lia.
Defined.

(** A stage handed one buffer as both source and destination overwrites
    it: the distinctness of the two buffers is what the frame needs. *)
Remark filter_in_place_overwrites :
  exists h',
    Filter_apply Grayscale 1%positive 1%positive
      {[1%positive := mkImage 1 1 [mkPixel 255 0 0]]} = Some (tt, h') /\
    h' !! 1%positive = Some (mkImage 1 1 [mkPixel 76 76 76]).
Proof. eexists. split; by vm_compute. Qed.

(** ** Convolutions of a uniform buffer *)

Lemma conv_terms (k : list (list Z)) (s : Image) (x y : Z) :
  conv k s x y
  = 0 + r (px s (x + -1) (y + -1)) * at2 k 0 0
      + r (px s (x + 0) (y + -1)) * at2 k 0 1
      + r (px s (x + 1) (y + -1)) * at2 k 0 2
      + r (px s (x + -1) (y + 0)) * at2 k 1 0
      + r (px s (x + 0) (y + 0)) * at2 k 1 1
      + r (px s (x + 1) (y + 0)) * at2 k 1 2
      + r (px s (x + -1) (y + 1)) * at2 k 2 0
      + r (px s (x + 0) (y + 1)) * at2 k 2 1
      + r (px s (x + 1) (y + 1)) * at2 k 2 2.
Proof. reflexivity. Qed.

Section UniformFacts.
Variables (s : Image) (c : Pixel).
Hypothesis Hs : wf_image s.
Hypothesis Hu : uniform c s.

Lemma px_uniform_in (x y : Z) :
  0 <= x < width s -> 0 <= y < height s -> px s x y = c.
Proof using Hs Hu.
  intros Hx Hy. destruct (getPixel_in s Hs x y Hx Hy) as (q & Hq & Hg).
  unfold px. rewrite Hg. simpl.
  unfold uniform in Hu. rewrite Forall_lookup in Hu. by apply (Hu _ _ Hq).
Qed.

Lemma px_uniform_out (x y : Z) :
  ~ (0 <= x < width s /\ 0 <= y < height s) -> px s x y = zero_pixel.
Proof. intros Hout. unfold px. by rewrite getPixel_out. Qed.

(** The red channel read at any coordinate: the uniform value inside the
    grid, the zero padding outside. *)
Lemma red_uniform (x y : Z) :
  r (px s x y)
  = r c * bz ((0 <=? x) && (x <? width s)) * bz ((0 <=? y) && (y <? height s)).
Proof using Hs Hu.
  destruct (decide (0 <= x < width s /\ 0 <= y < height s)) as [[Hx Hy]|Hout].
  - rewrite px_uniform_in by done. cmp_cases; lia.
  - rewrite px_uniform_out by done. cmp_cases; lia.
Qed.

(** In the interior all nine taps are inside the grid. *)
Lemma conv_uniform_interior (k : list (list Z)) (x y : Z) :
  interior (width s) (height s) x y ->
  conv k s x y
  = r c * (at2 k 0 0 + at2 k 0 1 + at2 k 0 2 + at2 k 1 0 + at2 k 1 1
           + at2 k 1 2 + at2 k 2 0 + at2 k 2 1 + at2 k 2 2).
Proof using Hs Hu.
  intros [Hx Hy]. rewrite conv_terms.
  rewrite !px_uniform_in by lia. ring.
Qed.

End UniformFacts.

(** ** The Sobel stage *)

(** The magnitude of the Sobel stage fits an [int]. *)
Lemma sobel_mag_bounds (s : Image) (x y : Z) :
  (forall x y, byte_ok (r (px s x y))) ->
  0 <= Z.abs (conv SobelFilter.gx s x y) + Z.abs (conv SobelFilter.gy s x y)
    <= 2040.
Proof.
  intros Hb. rewrite !conv_terms.
  unfold at2; simpl.
  pose proof (Hb (x + -1) (y + -1)). pose proof (Hb (x + 0) (y + -1)).
  pose proof (Hb (x + 1) (y + -1)). pose proof (Hb (x + -1) (y + 0)).
  pose proof (Hb (x + 0) (y + 0)). pose proof (Hb (x + 1) (y + 0)).
  pose proof (Hb (x + -1) (y + 1)). pose proof (Hb (x + 0) (y + 1)).
  pose proof (Hb (x + 1) (y + 1)).
  unfold byte_ok in *. lia.
Qed.

(** C7.  On a uniform-colour buffer the Sobel stage writes the zero gray
    value at every interior pixel: both gradient sums vanish there, so
    the magnitude |sumX| + |sumY| is 0. *)
Theorem sobel_uniform_interior_zero
    (h : heap) (src dest : loc) (s d : Image) (c : Pixel) :
  src <> dest -> h !! src = Some s -> h !! dest = Some d ->
  wf_image s -> wf_image d ->
  width d = width s -> height d = height s ->
  uniform c s ->
  exists d',
    SobelFilter.apply src dest h = Some (tt, <[dest := d']> h) /\
    forall x y, interior (width s) (height s) x y ->
      Z.abs (conv SobelFilter.gx s x y) + Z.abs (conv SobelFilter.gy s x y) = 0 /\
      getPixel d' x y = Some zero_pixel.
Proof.
  intros Hne Hsrc Hdest Hs Hd Hw Hh Hu.
  exists (stage_output Sobel s d).
  destruct (stage_output_shape Sobel s d Hd) as (Hwf' & Hw' & Hh').
  split; [by apply (Filter_apply_eq Sobel)|].
  intros x y Hin. pose proof Hin as [Hx Hy].
  assert (Ex : conv SobelFilter.gx s x y = 0).
  { rewrite (conv_uniform_interior s c) by done. unfold at2; simpl. lia. }
  assert (Ey : conv SobelFilter.gy s x y = 0).
  { rewrite (conv_uniform_interior s c) by done. unfold at2; simpl. lia. }
  split; [by rewrite Ex, Ey|].
  rewrite getPixel_px by done. f_equal. simpl.
  rewrite px_fill_written; try done; try lia.
  - unfold sobel_at. by rewrite Ex, Ey.
  - apply elem_of_seqZ. lia.
  - apply elem_of_seqZ. lia.
Qed.

Lemma white3_wf : wf_image white3.
Proof. unfold wf_image. simpl. lia. Qed.

Lemma white3_uniform : uniform white white3.
Proof. unfold uniform, white3. simpl. repeat constructor. Qed.

Lemma sobel_uniform_interior_zero_witness :
  exists d',
    SobelFilter.apply 1%positive 2%positive (two_buffers white3 white3)
    = Some (tt, <[2%positive := d']> (two_buffers white3 white3)) /\
    forall x y, interior 3 3 x y ->
      Z.abs (conv SobelFilter.gx white3 x y)
      + Z.abs (conv SobelFilter.gy white3 x y) = 0 /\
      getPixel d' x y = Some zero_pixel.
Proof.
  apply (sobel_uniform_interior_zero (two_buffers white3 white3)
           1%positive 2%positive white3 white3 white).
  - done.
  - done.
  - done.
  - apply white3_wf.
  - apply white3_wf.
  - done.
  - done.
  - apply white3_uniform.
Defined.

(** C2 (as amended).  The Sobel stage writes interior pixels only: every
    pixel of the destination outside the interior, and so every pixel of
    its outermost ring, holds when [apply] returns the value it held
    before the call; it is the zero pixel where the destination held the
    zero pixel. *)
Theorem sobel_writes_interior_only
    (h : heap) (src dest : loc) (s d : Image) :
  src <> dest -> h !! src = Some s -> h !! dest = Some d ->
  wf_image s -> wf_image d ->
  width d = width s -> height d = height s ->
  exists d',
    SobelFilter.apply src dest h = Some (tt, <[dest := d']> h) /\
    (forall x y, ~ interior (width s) (height s) x y ->
       getPixel d' x y = getPixel d x y) /\
    (forall x y, on_ring (width s) (height s) x y ->
       getPixel d' x y = getPixel d x y /\
       (getPixel d x y = Some zero_pixel -> getPixel d' x y = Some zero_pixel)).
Proof.
  intros Hne Hsrc Hdest Hs Hd Hw Hh.
  exists (stage_output Sobel s d).
  destruct (stage_output_shape Sobel s d Hd) as (Hwf' & Hw' & Hh').
  split; [by apply (Filter_apply_eq Sobel)|].
  assert (Hout : forall x y, ~ interior (width s) (height s) x y ->
            getPixel (stage_output Sobel s d) x y = getPixel d x y).
  { intros x y Hni. rewrite !getPixel_px by done. f_equal.
    apply px_fill_other; [done|]. rewrite !elem_of_seqZ.
    unfold interior in Hni. lia. }
  split; [done|].
  intros x y (Hx & Hy & Hedge).
  assert (Hni : ~ interior (width s) (height s) x y)
    by (unfold interior; lia).
  split; [by apply Hout|]. intros E. by rewrite Hout.
Qed.

Lemma sobel_writes_interior_only_witness :
  exists d',
    SobelFilter.apply 1%positive 2%positive (two_buffers white3 white3)
    = Some (tt, <[2%positive := d']> (two_buffers white3 white3)) /\
    (forall x y, ~ interior 3 3 x y -> getPixel d' x y = getPixel white3 x y).
Proof.
  destruct (sobel_writes_interior_only (two_buffers white3 white3)
              1%positive 2%positive white3 white3)
    as (d' & E & Hout & _);
    [done | done | done | apply white3_wf | apply white3_wf | done | done |].
  exists d'. by split.
Defined.

(** C2 as stated fails.  The all-white 3x3 buffer is a destination the
    stage can meet, both as a block that [new] left white and as the
    back buffer still holding the grayscale stage's output; its ring is
    still white, not zero, when [apply] returns. *)
Lemma sobel_ring_not_zeroed :
  Image_new 3 3 (fun _ => white) = Some white3 /\
  exists d',
    SobelFilter.apply 1%positive 2%positive (two_buffers white3 white3)
    = Some (tt, <[2%positive := d']> (two_buffers white3 white3)) /\
    on_ring 3 3 0 0 /\
    getPixel d' 0 0 = Some white /\
    getPixel d' 0 0 <> Some zero_pixel.
Proof.
  split; [done|]. exists white_ring3.
  split; [by vm_compute|]. split; [unfold on_ring; lia|]. by split.
Qed.

(** ** The blur stage *)

(** The sum of the blur stage fits an [int]. *)
Lemma blur_sum_bounds (s : Image) (x y : Z) :
  (forall x y, byte_ok (r (px s x y))) ->
  0 <= conv BlurFilter.kernel s x y <= 4080.
Proof.
  intros Hb. rewrite conv_terms. unfold at2; simpl.
  pose proof (Hb (x + -1) (y + -1)). pose proof (Hb (x + 0) (y + -1)).
  pose proof (Hb (x + 1) (y + -1)). pose proof (Hb (x + -1) (y + 0)).
  pose proof (Hb (x + 0) (y + 0)). pose proof (Hb (x + 1) (y + 0)).
  pose proof (Hb (x + -1) (y + 1)). pose proof (Hb (x + 0) (y + 1)).
  pose proof (Hb (x + 1) (y + 1)).
  unfold byte_ok in *. lia.
Qed.

Lemma edge_weight_range (n t : Z) : 2 <= edge_weight n t <= 4.
Proof. unfold edge_weight, bz. cmp_cases; lia. Qed.

Lemma edge_weight_interior (n t : Z) : 1 <= t <= n - 2 -> edge_weight n t = 4.
Proof. intros Ht. unfold edge_weight, bz. cmp_cases; lia. Qed.

Lemma edge_weight_border (n t : Z) :
  0 <= t < n -> t = 0 \/ t = n - 1 -> edge_weight n t <= 3.
Proof. intros Ht Hb. unfold edge_weight, bz. cmp_cases; lia. Qed.

(** The kernel [1 2 1] x [1 2 1] is separable, and so is the part of it
    that the zero padding leaves. *)
Lemma conv_blur_uniform (s : Image) (c : Pixel) (x y : Z) :
  wf_image s -> uniform c s ->
  0 <= x < width s -> 0 <= y < height s ->
  conv BlurFilter.kernel s x y
  = r c * edge_weight (width s) x * edge_weight (height s) y.
Proof.
  intros Hs Hu Hx Hy. rewrite conv_terms.
  rewrite !(red_uniform s c Hs Hu).
  assert (A0 : bz ((0 <=? x + 0) && (x + 0 <? width s)) = 1)
    by (unfold bz; cmp_cases; lia).
  assert (Am : bz ((0 <=? x + -1) && (x + -1 <? width s)) = bz (0 <? x))
    by (unfold bz; cmp_cases; lia).
  assert (Ap : bz ((0 <=? x + 1) && (x + 1 <? width s)) = bz (x <? width s - 1))
    by (unfold bz; cmp_cases; lia).
  assert (B0 : bz ((0 <=? y + 0) && (y + 0 <? height s)) = 1)
    by (unfold bz; cmp_cases; lia).
  assert (Bm : bz ((0 <=? y + -1) && (y + -1 <? height s)) = bz (0 <? y))
    by (unfold bz; cmp_cases; lia).
  assert (Bp : bz ((0 <=? y + 1) && (y + 1 <? height s)) = bz (y <? height s - 1))
    by (unfold bz; cmp_cases; lia).
  rewrite A0, Am, Ap, B0, Bm, Bp.
  unfold at2, edge_weight; simpl. ring.
Qed.

Lemma blur_at_uniform (s : Image) (c : Pixel) (x y : Z) :
  wf_image s -> uniform c s -> byte_ok (r c) ->
  0 <= x < width s -> 0 <= y < height s ->
  blur_at s x y
  = gray_pixel
      ((r c * edge_weight (width s) x * edge_weight (height s) y) `div` 16).
Proof.
  intros Hs Hu Hc Hx Hy. unfold blur_at, BlurFilter.divisor.
  rewrite (conv_blur_uniform s c) by done.
  pose proof (edge_weight_range (width s) x).
  pose proof (edge_weight_range (height s) y).
  unfold byte_ok in Hc.
  assert (H1 : 0 <= r c * edge_weight (width s) x <= 1020) by nia.
  set (m := r c * edge_weight (width s) x) in *.
  assert (Hn : 0 <= m * edge_weight (height s) y <= 4080) by nia.
  set (n := m * edge_weight (height s) y) in *.
  rewrite Z.quot_div_nonneg by lia.
  rewrite clamp_id; [done|].
  split; [apply Z.div_pos; lia|].
  apply Z.div_le_upper_bound; lia.
Qed.

(** C3 (as amended).  On a uniform buffer of colour [c] the blur stage
    writes at every in-range coordinate the gray value
    [c.r * k / 16] rounded down, where [k] is the kernel weight that
    falls inside the grid: 16 at interior pixels, which therefore hold
    the gray pixel of [c.r] (the source pixel itself when [c] is gray),
    and at most 12 on the outermost ring, where the zero padding lowers
    every non-zero value. *)
Theorem blur_uniform_fixed_in_interior
    (h : heap) (src dest : loc) (s d : Image) (c : Pixel) :
  src <> dest -> h !! src = Some s -> h !! dest = Some d ->
  wf_image s -> wf_image d ->
  width d = width s -> height d = height s ->
  uniform c s -> pixel_ok c ->
  exists d',
    BlurFilter.apply src dest h = Some (tt, <[dest := d']> h) /\
    (forall x y, 0 <= x < width s -> 0 <= y < height s ->
       getPixel d' x y
       = Some (gray_pixel
                 ((r c * edge_weight (width s) x * edge_weight (height s) y)
                    `div` 16))) /\
    (forall x y, interior (width s) (height s) x y ->
       getPixel d' x y = Some (gray_pixel (r c)) /\
       (g c = r c -> b c = r c -> getPixel d' x y = getPixel s x y)) /\
    (forall x y, on_ring (width s) (height s) x y -> 0 < r c ->
       exists v, getPixel d' x y = Some (gray_pixel v) /\ v < r c).
Proof.
  intros Hne Hsrc Hdest Hs Hd Hw Hh Hu (Hr & Hg & Hb).
  exists (stage_output Blur s d).
  destruct (stage_output_shape Blur s d Hd) as (Hwf' & Hw' & Hh').
  split; [by apply (Filter_apply_eq Blur)|].
  assert (Hall : forall x y, 0 <= x < width s -> 0 <= y < height s ->
            getPixel (stage_output Blur s d) x y
            = Some (gray_pixel
                      ((r c * edge_weight (width s) x
                        * edge_weight (height s) y) `div` 16))).
  { intros x y Hx Hy. rewrite getPixel_px by done. f_equal. simpl.
    rewrite px_fill_written; try done; try lia.
    - by apply blur_at_uniform.
    - apply elem_of_seqZ. lia.
    - apply elem_of_seqZ. lia. }
  split; [done|]. split.
  - intros x y [Hx Hy].
    assert (E : getPixel (stage_output Blur s d) x y = Some (gray_pixel (r c))).
    { rewrite Hall by lia. rewrite !edge_weight_interior by lia.
      do 2 f_equal. replace (r c * 4 * 4) with (r c * 16) by lia.
      apply Z.div_mul. lia. }
    split; [done|]. intros Eg Eb. rewrite E.
    rewrite (getPixel_px s Hs), (px_uniform_in s c Hs Hu) by lia.
    f_equal. destruct c as [cr cg cb]. simpl in *. by subst.
  - intros x y (Hx & Hy & Hedge) Hpos. eexists. split; [by apply Hall|].
    pose proof (edge_weight_range (width s) x).
    pose proof (edge_weight_range (height s) y).
    assert (Hk : edge_weight (width s) x * edge_weight (height s) y <= 12).
    { destruct Hedge as [E|[E|[E|E]]].
      - pose proof (edge_weight_border (width s) x Hx (or_introl E)). nia.
      - pose proof (edge_weight_border (width s) x Hx (or_intror E)). nia.
      - pose proof (edge_weight_border (height s) y Hy (or_introl E)). nia.
      - pose proof (edge_weight_border (height s) y Hy (or_intror E)). nia. }
    apply Z.div_lt_upper_bound; [lia|]. unfold byte_ok in Hr.
    rewrite <- Z.mul_assoc.
    set (k := edge_weight (width s) x * edge_weight (height s) y) in *. nia.
Qed.

Lemma blur_uniform_fixed_in_interior_witness :
  exists d',
    BlurFilter.apply 1%positive 2%positive (two_buffers white3 white3)
    = Some (tt, <[2%positive := d']> (two_buffers white3 white3)) /\
    (forall x y, interior 3 3 x y ->
       getPixel d' x y = Some (gray_pixel 255) /\
       (255 = 255 -> 255 = 255 -> getPixel d' x y = getPixel white3 x y)).
Proof.
  destruct (blur_uniform_fixed_in_interior (two_buffers white3 white3)
              1%positive 2%positive white3 white3 white)
    as (d' & E & _ & Hin & _);
    [ done | done | done | apply white3_wf | apply white3_wf | done | done
    | apply white3_uniform | unfold pixel_ok, byte_ok; simpl; lia | ].
  exists d'. by split.
Defined.

(** C3 as stated fails: the blur of the all-white 3x3 buffer is not the
    all-white buffer; the zero padding drags its corners down to 143 and
    its edges to 191. *)
Lemma blur_moves_uniform_white :
  uniform white white3 /\
  exists d',
    BlurFilter.apply 1%positive 2%positive (two_buffers white3 white3)
    = Some (tt, <[2%positive := d']> (two_buffers white3 white3)) /\
    getPixel d' 0 0 = Some (gray_pixel 143) /\
    getPixel d' 1 0 = Some (gray_pixel 191) /\
    d' <> white3.
Proof.
  split; [apply white3_uniform|].
  exists (mkImage 3 3
            [gray_pixel 143; gray_pixel 191; gray_pixel 143;
             gray_pixel 191; gray_pixel 255; gray_pixel 191;
             gray_pixel 143; gray_pixel 191; gray_pixel 143]).
  split; [by vm_compute|]. by repeat split.
Qed.

(** ** Construction and deep copy *)

Lemma block_new_ok (n : Z) (junk : nat -> Pixel) :
  0 <= n ->
  exists d, block_new n junk = Some d /\ Z.of_nat (length d) = n.
Proof.
  intros Hn. unfold block_new. cmp_cases; [lia|].
  eexists. split; [done|]. rewrite length_fmap, length_seq. lia.
Qed.

Lemma Image_new_ok (w h : Z) (junk : nat -> Pixel) :
  0 < w -> 0 < h ->
  exists B, Image_new w h junk = Some B /\
            wf_image B /\ width B = w /\ height B = h.
Proof.
  intros Hw Hh. unfold Image_new.
  destruct (block_new_ok (w * h) junk) as (d & -> & Hlen); [nia|].
  eexists. split; [done|]. by repeat split.
Qed.

(** The copy loop overwrites exactly the cells it visits. *)
Lemma copy_loop_spec (other : list Pixel) (ixs : list Z) :
  (forall i, i ∈ ixs -> 0 <= i < Z.of_nat (length other)) ->
  forall d, length d = length other ->
  exists d',
    copy_loop other ixs d = Some d' /\ length d' = length other /\
    forall j : nat,
      d' !! j = if decide (Z.of_nat j ∈ ixs) then other !! j else d !! j.
Proof.
  induction ixs as [|i ixs IH]; intros Hix d Hlen.
  { exists d. split; [done|]. split; [done|]. intros j.
    destruct (decide _) as [Hin|_]; [by apply elem_of_nil in Hin|done]. }
  assert (Hi : 0 <= i < Z.of_nat (length other))
    by (apply Hix, elem_of_cons; by left).
  simpl.
  destruct (block_read_ok other i Hi) as (p & Hp & ->).
  rewrite block_write_ok by lia.
  destruct (IH (fun k Hk => Hix k (proj2 (elem_of_cons _ _ _) (or_intror Hk)))
              (<[Z.to_nat i := p]> d)) as (d' & -> & Hlen' & Hd').
  { by rewrite length_insert. }
  exists d'. split; [done|]. split; [done|]. intros j. rewrite Hd'.
  destruct (decide (Z.of_nat j ∈ ixs)) as [Hj|Hj].
  - rewrite decide_True; [done|]. apply elem_of_cons. by right.
  - destruct (decide (Z.of_nat j = i)) as [<-|Hne].
    + rewrite decide_True by (apply elem_of_cons; by left).
      rewrite Nat2Z.id in *. rewrite list_lookup_insert_eq by lia. done.
    + rewrite decide_False.
      * apply list_lookup_insert_ne. lia.
      * intros [?|?]%elem_of_cons; done.
Qed.

(** The copy constructor yields an image equal by value to its argument,
    whatever the fresh block held. *)
Lemma Image_copy_ok (img : Image) (junk : nat -> Pixel) :
  wf_image img -> Image_copy img junk = Some img.
Proof.
  intros (Hw & Hh & Hlen). unfold Image_copy.
  destruct (block_new_ok (width img * height img) junk) as (d & -> & Hd);
    [nia|].
  destruct (copy_loop_spec (data img) (seqZ 0 (width img * height img)))
    with (d := d) as (d' & -> & Hlen' & Hd').
  { intros i Hi%elem_of_seqZ. lia. }
  { lia. }
  destruct img as [w h dat]. simpl in *. f_equal. f_equal.
  apply list_eq. intros j. rewrite Hd'.
  destruct (decide (Z.of_nat j ∈ seqZ 0 (w * h))) as [Hj|Hj]; [done|].
  rewrite elem_of_seqZ in Hj.
  rewrite !lookup_ge_None_2; [done|lia|lia].
Qed.

Lemma fresh_unused (h : heap) : h !! fresh (dom h) = None.
Proof. apply not_elem_of_dom, is_fresh. Qed.

Lemma Pipeline_new_ok (h : heap) (input : loc) (img : Image)
    (junk : nat -> Pixel) :
  h !! input = Some img -> wf_image img ->
  Pipeline_new input junk h
  = Some (mkPipeline [] (fresh (dom h)), <[fresh (dom h) := img]> h).
Proof.
  intros Hin Hwf. unfold Pipeline_new.
  erewrite bind_eq by (by apply load_ok).
  unfold bind, lift. by rewrite Image_copy_ok.
Qed.

(** ** Execution *)

(** The stage loop of [execute]: it never fails, ends with the two
    buffers it started with (in one order or the other), leaves in them
    what [ping_pong] computes and touches no other object. *)
Lemma stage_loop (fs : list Filter) :
  forall (h : heap) (wb bb : loc) (a c : Image),
    wb <> bb -> h !! wb = Some a -> h !! bb = Some c ->
    wf_image a -> wf_image c ->
    exists wb' bb' h',
      forM fs (fun filter '(wb, back) =>
                 Filter_apply filter wb back ;;; ret (back, wb)) (wb, bb) h
      = Some ((wb', bb'), h') /\
      (wb' = wb /\ bb' = bb \/ wb' = bb /\ bb' = wb) /\
      h' !! wb' = Some (fst (ping_pong fs (a, c))) /\
      h' !! bb' = Some (snd (ping_pong fs (a, c))) /\
      (forall l, l <> wb -> l <> bb -> h' !! l = h !! l).
Proof.
  induction fs as [|f fs IH]; intros h wb bb a c Hne Hwb Hbb Ha Hc.
  { exists wb, bb, h. simpl. repeat split; try done. by left. }
  simpl.
  erewrite bind_eq
    by (erewrite bind_eq by (by apply (Filter_apply_eq f h wb bb a c)); done).
  destruct (stage_output_shape f a c Hc) as (Hwf & _ & _).
  destruct (IH (<[bb := stage_output f a c]> h) bb wb (stage_output f a c) a)
    as (wb' & bb' & h' & E & Hor & Hf & Hb & Hframe); try done.
  { apply lookup_insert_eq. }
  { by rewrite lookup_insert_ne. }
  exists wb', bb', h'. repeat split; try done.
  - tauto.
  - intros l H1 H2. rewrite Hframe by done. by rewrite lookup_insert_ne.
Qed.

Lemma execute_ok (P : Pipeline) (junk : nat -> Pixel) (h : heap) (W : Image) :
  h !! workingBuffer P = Some W -> wf_image W ->
  exists B P' h',
    Image_new (width W) (height W) junk = Some B /\
    execute P junk h = Some (P', h') /\
    stages P' = stages P /\
    h' !! getResult P' = Some (fst (ping_pong (stages P) (W, B))) /\
    (forall l, l <> workingBuffer P -> is_Some (h !! l) -> h' !! l = h !! l).
Proof.
  intros HW Hwf. pose proof Hwf as (Hw & Hh & _).
  destruct (Image_new_ok (width W) (height W) junk Hw Hh)
    as (B & EB & HB & HwB & HhB).
  pose proof (fresh_unused h) as Hfresh. set (bb := fresh (dom h)) in *.
  assert (Hne : workingBuffer P <> bb) by congruence.
  destruct (stage_loop (stages P) (<[bb := B]> h) (workingBuffer P) bb W B)
    as (wb' & bb' & h' & E & Hor & Hf & Hb & Hframe); try done.
  { by rewrite lookup_insert_ne. }
  { apply lookup_insert_eq. }
  exists B, (mkPipeline (stages P) wb'), (delete bb' h').
  split; [done|]. split.
  - unfold execute.
    erewrite bind_eq by (by apply p_getWidth_ok).
    erewrite bind_eq by (by apply p_getHeight_ok).
    unfold getWidth, getHeight.
    erewrite bind_eq by (unfold lift; by rewrite EB).
    erewrite bind_eq by (unfold alloc; fold bb; done).
    erewrite bind_eq by apply E.
    simpl. unfold bind, free, ret. by rewrite Hb.
  - split; [done|]. split.
    + simpl. rewrite lookup_delete_ne; [done|]. destruct Hor as [[-> ->]|[-> ->]]; done.
    + intros l Hl [v Hv].
      assert (l <> bb) by congruence.
      rewrite lookup_delete_ne by (destruct Hor as [[_ ->]|[_ ->]]; done).
      rewrite Hframe by done. by rewrite lookup_insert_ne.
Qed.

Lemma stages_foldl_addStage (fs : list Filter) (P : Pipeline) :
  stages (foldl addStage P fs) = stages P ++ fs /\
  workingBuffer (foldl addStage P fs) = workingBuffer P.
Proof.
  revert P. induction fs as [|f fs IH]; intros P; simpl.
  - by rewrite app_nil_r.
  - destruct (IH (addStage P f)) as [-> ->]. simpl.
    by rewrite <- app_assoc.
Qed.

(** A whole run: it returns, its result is the front buffer of
    [ping_pong] started on the copy of the input and on the back buffer
    as [new] left it, and the caller's image is as it was. *)
Lemma run_ok (fs : list Filter) (h : heap) (input : loc) (img : Image)
    (junk1 junk2 : nat -> Pixel) :
  h !! input = Some img -> wf_image img ->
  exists B h',
    Image_new (width img) (height img) junk2 = Some B /\
    run fs input junk1 junk2 h = Some (fst (ping_pong fs (img, B)), h') /\
    h' !! input = Some img.
Proof.
  intros Hin Hwf.
  pose proof (fresh_unused h) as Hfresh. set (wb := fresh (dom h)) in *.
  destruct (stages_foldl_addStage fs (mkPipeline [] wb)) as [Est Ewb].
  simpl in Est, Ewb.
  destruct (execute_ok (foldl addStage (mkPipeline [] wb) fs) junk2
              (<[wb := img]> h) img)
    as (B & P' & h' & EB & E & _ & Hres & Hframe); [|done|].
  { rewrite Ewb. apply lookup_insert_eq. }
  rewrite Est in Hres.
  assert (Hne : input <> wb) by congruence.
  exists B, h'. split; [done|]. split.
  - unfold run.
    erewrite bind_eq by (by apply Pipeline_new_ok).
    fold wb. erewrite bind_eq by apply E.
    by apply load_ok.
  - rewrite Hframe.
    + by rewrite lookup_insert_ne.
    + by rewrite Ewb.
    + rewrite lookup_insert_ne by done. by eexists.
Qed.

(** C9.  A pipeline constructed from an input image, with no stage
    appended: construction places a copy equal by value to the input in
    a buffer of its own, [execute] returns, [getResult] then points to a
    buffer equal by value to that copy, and the caller's image is as it
    was after construction and after execution. *)
Theorem empty_pipeline_returns_copy
    (h : heap) (input : loc) (img : Image) (junk1 junk2 : nat -> Pixel) :
  h !! input = Some img -> wf_image img ->
  exists P h1 P' h2,
    Pipeline_new input junk1 h = Some (P, h1) /\
    stages P = [] /\
    getResult P <> input /\
    h1 !! getResult P = Some img /\
    h1 !! input = Some img /\
    execute P junk2 h1 = Some (P', h2) /\
    h2 !! getResult P' = Some img /\
    h2 !! input = Some img.
Proof.
  intros Hin Hwf.
  pose proof (fresh_unused h) as Hfresh. set (wb := fresh (dom h)) in *.
  assert (Hne : wb <> input) by congruence.
  destruct (execute_ok (mkPipeline [] wb) junk2 (<[wb := img]> h) img)
    as (B & P' & h2 & _ & E & _ & Hres & Hframe); [|done|].
  { apply lookup_insert_eq. }
  exists (mkPipeline [] wb), (<[wb := img]> h), P', h2.
  split; [by apply Pipeline_new_ok|]. split; [done|]. split; [done|].
  split; [apply lookup_insert_eq|].
  split; [by rewrite lookup_insert_ne|].
  split; [done|]. split; [done|].
  rewrite Hframe.
  - by rewrite lookup_insert_ne.
  - done.
  - rewrite lookup_insert_ne by done. by eexists.
Qed.

Lemma empty_pipeline_returns_copy_witness :
  exists P h1 P' h2,
    Pipeline_new 1%positive (fun _ => mkPixel 7 7 7) {[1%positive := white3]}
    = Some (P, h1) /\
    stages P = [] /\
    getResult P <> 1%positive /\
    h1 !! getResult P = Some white3 /\
    h1 !! 1%positive = Some white3 /\
    execute P (fun _ => mkPixel 7 7 7) h1 = Some (P', h2) /\
    h2 !! getResult P' = Some white3 /\
    h2 !! 1%positive = Some white3.
Proof.
  apply (empty_pipeline_returns_copy {[1%positive := white3]} 1%positive white3).
  - done.
  - unfold wf_image. simpl. lia.
Defined.

(** ** The pipeline against its specification *)

Lemma spec_stage_wf (f : Filter) (s : Image) :
  wf_image s -> wf_image (spec_stage f s).
Proof.
  intros (Hw & Hh & Hlen). unfold spec_stage, wf_image. simpl.
  repeat split; try done. rewrite length_fmap, length_seqZ. nia.
Qed.

Lemma px_spec_stage (f : Filter) (s : Image) (x y : Z) :
  wf_image s -> 0 <= x < width s -> 0 <= y < height s ->
  px (spec_stage f s) x y = spec_pixel f s x y.
Proof.
  intros Hs Hx Hy.
  destruct (getPixel_in _ (spec_stage_wf f s Hs) x y Hx Hy) as (q & Hq & Hg).
  unfold px. rewrite Hg. simpl. simpl in Hq.
  pose proof (index_in_block _ _ _ _ Hx Hy) as Hi.
  rewrite list_lookup_fmap, lookup_seqZ_lt in Hq by lia.
  simpl in Hq. injection Hq as <-.
  rewrite Z2Nat.id, Z.add_0_l by lia.
  rewrite (Z.add_comm (y * width s)), Z.mod_add, Z.div_add by lia.
  rewrite Z.mod_small, Z.div_small by lia. done.
Qed.

(** A stage run by the code agrees with the specification's transform
    whenever it overwrites the whole destination; for the Sobel stage,
    whenever the ring of the destination held the zero pixel before. *)
Lemma stage_output_spec (f : Filter) (s d : Image) :
  wf_image s -> wf_image d ->
  width d = width s -> height d = height s ->
  (f = Sobel ->
   forall x y, on_ring (width s) (height s) x y -> px d x y = zero_pixel) ->
  stage_output f s d = spec_stage f s.
Proof.
  intros Hs Hd Hw Hh Hring.
  destruct (stage_output_shape f s d Hd) as (Hwf & Hw' & Hh').
  apply image_ext; [done|by apply spec_stage_wf|simpl; congruence..|].
  rewrite Hw', Hh', Hw, Hh. intros x y Hx Hy.
  rewrite px_spec_stage by done.
  destruct f; simpl.
  - apply px_fill_written; try done; try lia; apply elem_of_seqZ; lia.
  - apply px_fill_written; try done; try lia; apply elem_of_seqZ; lia.
  - cmp_cases;
      first [ apply px_fill_written; try done; try lia; apply elem_of_seqZ; lia
            | rewrite px_fill_other; [|done|rewrite !elem_of_seqZ; lia];
              apply Hring; [done|]; unfold on_ring; lia ].
Qed.

Lemma ping_pong_spec (fs : list Filter) :
  Forall (fun f => f <> Sobel) fs ->
  forall a c, wf_image a -> wf_image c ->
    width c = width a -> height c = height a ->
    fst (ping_pong fs (a, c)) = spec_pipeline fs a.
Proof.
  induction 1 as [|f fs Hf _ IH]; intros a c Ha Hc Hw Hh; [done|].
  simpl. rewrite (stage_output_spec f a c) by done.
  apply IH; [by apply spec_stage_wf|done|done|done].
Qed.

(** Where the double buffering does what the specification says: a
    pipeline of grayscale and blur stages, which overwrite every pixel
    of their destination, returns the composition of its stages'
    transforms, whatever the fresh buffers held. *)
Lemma run_without_sobel_refines_spec
    (fs : list Filter) (h : heap) (input : loc) (img : Image)
    (junk1 junk2 : nat -> Pixel) :
  Forall (fun f => f <> Sobel) fs ->
  h !! input = Some img -> wf_image img ->
  exists h', run fs input junk1 junk2 h = Some (spec_pipeline fs img, h').
Proof.
  intros Hfs Hin Hwf.
  destruct (run_ok fs h input img junk1 junk2 Hin Hwf) as (B & h' & EB & E & _).
  pose proof Hwf as (Hw & Hh & _).
  destruct (Image_new_ok (width img) (height img) junk2 Hw Hh)
    as (B' & EB' & HB & HwB & HhB).
  assert (B' = B) as -> by congruence.
  exists h'. by rewrite E, (ping_pong_spec fs Hfs img B).
Qed.

(** C1 fails on the pipeline [main] builds.  For the all-white 3x3 input
    and the stages grayscale, blur, Sobel, whatever the fresh buffers
    held: the composition of the three transforms is the all-zero
    image, but the buffer [getResult] points to has a white outermost
    ring, the ring the grayscale stage wrote two stages earlier into the
    buffer that the Sobel stage reuses and does not overwrite. *)
Theorem main_pipeline_keeps_stage1_ring (junk1 junk2 : nat -> Pixel) :
  (exists h',
     run [Grayscale; Blur; Sobel] 1%positive junk1 junk2
       {[1%positive := white3]} = Some (white_ring3, h')) /\
  spec_pipeline [Grayscale; Blur; Sobel] white3
  = mkImage 3 3 (replicate 9 zero_pixel) /\
  white_ring3 <> spec_pipeline [Grayscale; Blur; Sobel] white3 /\
  getPixel white_ring3 0 0
  = getPixel (spec_pipeline [Grayscale] white3) 0 0.
Proof.
  split; [|by vm_compute].
  destruct (run_ok [Grayscale; Blur; Sobel] {[1%positive := white3]}
              1%positive white3 junk1 junk2)
    as (B & h' & EB & E & _); [done|apply white3_wf|].
  exists h'. rewrite E. f_equal. f_equal.
  vm_compute in EB. injection EB as <-. by vm_compute.
Qed.

(** The result of that pipeline is not even a function of what its last
    stage reads: two 1x1 inputs whose blurred grayscale is the same
    image end in different results. *)
Remark result_depends_on_stage1_output (junk1 junk2 : nat -> Pixel) :
  spec_pipeline [Grayscale; Blur] (mkImage 1 1 [mkPixel 0 0 0])
  = spec_pipeline [Grayscale; Blur] (mkImage 1 1 [mkPixel 1 1 1]) /\
  (exists h',
     run [Grayscale; Blur; Sobel] 1%positive junk1 junk2
       {[1%positive := mkImage 1 1 [mkPixel 0 0 0]]}
     = Some (mkImage 1 1 [mkPixel 0 0 0], h')) /\
  (exists h',
     run [Grayscale; Blur; Sobel] 1%positive junk1 junk2
       {[1%positive := mkImage 1 1 [mkPixel 1 1 1]]}
     = Some (mkImage 1 1 [mkPixel 1 1 1], h')).
Proof.
  split; [by vm_compute|]. split.
  - destruct (run_ok [Grayscale; Blur; Sobel]
                {[1%positive := mkImage 1 1 [mkPixel 0 0 0]]}
                1%positive (mkImage 1 1 [mkPixel 0 0 0]) junk1 junk2)
      as (B & h' & EB & E & _); [done|unfold wf_image; simpl; lia|].
    exists h'. rewrite E. f_equal. f_equal.
    vm_compute in EB. injection EB as <-. by vm_compute.
  - destruct (run_ok [Grayscale; Blur; Sobel]
                {[1%positive := mkImage 1 1 [mkPixel 1 1 1]]}
                1%positive (mkImage 1 1 [mkPixel 1 1 1]) junk1 junk2)
      as (B & h' & EB & E & _); [done|unfold wf_image; simpl; lia|].
    exists h'. rewrite E. f_equal. f_equal.
    vm_compute in EB. injection EB as <-. by vm_compute.
Qed.

(** * Further properties of the code *)

(** ** The pixel buffer *)

(** X1.  [setPixel] at a coordinate inside the grid overwrites exactly
    that pixel: the buffer keeps its dimensions and its block length,
    [getPixel] at the same coordinate returns the pixel written, and
    [getPixel] at every other coordinate returns what it returned
    before. *)
Theorem setPixel_overwrites_one_pixel (img : Image) (x y : Z) (p : Pixel) :
  wf_image img -> 0 <= x < width img -> 0 <= y < height img ->
  exists img',
    setPixel img x y p = Some img' /\
    wf_image img' /\ width img' = width img /\ height img' = height img /\
    getPixel img' x y = Some p /\
    forall x' y', ~ (x' = x /\ y' = y) ->
      getPixel img' x' y' = getPixel img x' y'.
Proof.
  intros Hwf Hx Hy. exists (upd img x y p).
  pose proof (wf_upd img Hwf x y p) as Hwf'.
  split; [by apply setPixel_upd|]. split; [done|].
  split; [by apply width_upd|]. split; [by apply height_upd|]. split.
  - rewrite getPixel_px by done. f_equal. by apply px_upd_same.
  - intros x' y' Hne. rewrite !getPixel_px by done. f_equal.
    apply px_upd_other; [done|]. intros [-> ->]. by apply Hne.
Qed.

Lemma setPixel_overwrites_one_pixel_witness :
  exists img',
    setPixel (mkImage 2 1 [mkPixel 1 2 3; mkPixel 4 5 6]) 1 0 (mkPixel 9 9 9)
    = Some img' /\
    getPixel img' 1 0 = Some (mkPixel 9 9 9) /\
    getPixel img' 0 0 = Some (mkPixel 1 2 3).
Proof.
  destruct (setPixel_overwrites_one_pixel
              (mkImage 2 1 [mkPixel 1 2 3; mkPixel 4 5 6]) 1 0 (mkPixel 9 9 9))
    as (img' & E & _ & _ & _ & Hsame & Hother);
    [unfold wf_image; simpl; lia | simpl; lia | simpl; lia |].
  exists img'. split; [done|]. split; [done|].
  rewrite Hother by lia. reflexivity.
Defined.

(** X2.  The copy constructor makes a deep copy equal by value: for a
    well-formed image it returns normally an image with the same
    dimensions and the same pixels, whatever the freshly allocated block
    held. *)
Theorem copy_constructor_equal_by_value (img : Image) (junk : nat -> Pixel) :
  wf_image img -> Image_copy img junk = Some img.
Proof. apply Image_copy_ok. Qed.

Lemma copy_constructor_equal_by_value_witness :
  Image_copy white3 (fun _ => mkPixel 7 7 7) = Some white3.
Proof.
  apply (copy_constructor_equal_by_value white3 (fun _ => mkPixel 7 7 7)).
  unfold wf_image. simpl. lia.
Defined.



(** ** The filters on arbitrary buffers *)

Lemma px_in_data (img : Image) (x y : Z) :
  wf_image img -> 0 <= x < width img -> 0 <= y < height img ->
  data img !! Z.to_nat (y * width img + x) = Some (px img x y).
Proof.
  intros Hwf Hx Hy. destruct (getPixel_in img Hwf x y Hx Hy) as (q & Hq & Hg).
  unfold px. by rewrite Hg.
Qed.

Lemma zero_pixel_ok : pixel_ok zero_pixel.
Proof. unfold pixel_ok, byte_ok. simpl. lia. Qed.

Lemma px_valid (img : Image) (x y : Z) :
  wf_image img -> valid_image img -> pixel_ok (px img x y).
Proof.
  intros Hwf Hv.
  destruct (decide (0 <= x < width img /\ 0 <= y < height img)) as [[Hx Hy]|Hout].
  - unfold valid_image in Hv. rewrite Forall_lookup in Hv.
    apply (Hv _ _ (px_in_data img x y Hwf Hx Hy)).
  - unfold px. rewrite getPixel_out by done. apply zero_pixel_ok.
Qed.

Lemma gray_pixel_clamp_ok (v : Z) : pixel_ok (gray_pixel (HardwareMath.clamp v)).
Proof. unfold pixel_ok, byte_ok. simpl. pose proof (clamp_range v). lia. Qed.

(** A pixel of a raster scan is either one the scan computed or the one
    the destination held. *)
Lemma px_fill_cases (F : Z -> Z -> Pixel) (ys xs : list Z) (d : Image) (x y : Z) :
  wf_image d -> 0 <= x < width d -> 0 <= y < height d ->
  px (fill ys xs F d) x y = F x y \/ px (fill ys xs F d) x y = px d x y.
Proof.
  intros Hd Hx Hy. destruct (decide (y ∈ ys /\ x ∈ xs)) as [[Hiy Hix]|Hn].
  - left. by apply px_fill_written.
  - right. by apply px_fill_other.
Qed.

Lemma stage_pixel_ok (f : Filter) (s d : Image) (x y : Z) :
  wf_image d -> valid_image d -> pixel_ok (px (stage_output f s d) x y).
Proof.
  intros Hd Hv.
  destruct (stage_output_shape f s d Hd) as (Hwf & Hw & Hh).
  destruct (decide (0 <= x < width d /\ 0 <= y < height d)) as [[Hx Hy]|Hout].
  - destruct f; simpl;
      (edestruct px_fill_cases as [-> | ->];
       [done | done | done | apply gray_pixel_clamp_ok | by apply px_valid]).
  - unfold px. rewrite getPixel_out by (rewrite Hw, Hh; done).
    apply zero_pixel_ok.
Qed.

(** X4.  A stage never fails and never writes outside its destination,
    whatever the dimensions of the two buffers: the destination keeps
    its dimensions and block length, and every pixel of it at a
    coordinate outside the source's grid is as it was. *)
Theorem filter_apply_any_dimensions
    (f : Filter) (h : heap) (src dest : loc) (s d : Image) :
  src <> dest -> h !! src = Some s -> h !! dest = Some d ->
  wf_image s -> wf_image d ->
  exists d',
    Filter_apply f src dest h = Some (tt, <[dest := d']> h) /\
    wf_image d' /\ width d' = width d /\ height d' = height d /\
    forall x y, ~ (0 <= x < width s /\ 0 <= y < height s) ->
      getPixel d' x y = getPixel d x y.
Proof.
  intros Hne Hsrc Hdest Hs Hd. exists (stage_output f s d).
  destruct (stage_output_shape f s d Hd) as (Hwf & Hw & Hh).
  split; [by apply Filter_apply_eq|]. split; [done|].
  split; [done|]. split; [done|].
  intros x y Hout. rewrite !getPixel_px by done. f_equal.
  destruct f; simpl; (apply px_fill_other; [done|]);
    rewrite !elem_of_seqZ; lia.
Qed.

Lemma filter_apply_any_dimensions_witness :
  exists d',
    Filter_apply Blur 1%positive 2%positive
      (two_buffers (mkImage 1 1 [white]) white3)
    = Some (tt, <[2%positive := d']>
                  (two_buffers (mkImage 1 1 [white]) white3)) /\
    wf_image d' /\ width d' = 3 /\ height d' = 3 /\
    forall x y, ~ (0 <= x < 1 /\ 0 <= y < 1) ->
      getPixel d' x y = getPixel white3 x y.
Proof.
  apply (filter_apply_any_dimensions Blur
           (two_buffers (mkImage 1 1 [white]) white3)
           1%positive 2%positive (mkImage 1 1 [white]) white3).
  - done.
  - done.
  - done.
  - unfold wf_image. simpl. lia.
  - unfold wf_image. simpl. lia.
Defined.

(** X5.  The stages keep pixel data within bytes: if every channel of
    the destination fits a [uint8_t] before a stage runs, every channel
    fits after it, whatever the source holds. *)
Theorem filters_keep_valid_bytes
    (f : Filter) (h : heap) (src dest : loc) (s d : Image) :
  src <> dest -> h !! src = Some s -> h !! dest = Some d ->
  wf_image s -> wf_image d -> valid_image d ->
  exists d',
    Filter_apply f src dest h = Some (tt, <[dest := d']> h) /\
    valid_image d'.
Proof.
  intros Hne Hsrc Hdest Hs Hd Hv. exists (stage_output f s d).
  destruct (stage_output_shape f s d Hd) as (Hwf & Hw & Hh).
  split; [by apply Filter_apply_eq|].
  apply Forall_lookup. intros i q Hq.
  destruct (lookup_px _ i q Hwf Hq) as (_ & _ & <-).
  by apply stage_pixel_ok.
Qed.

Lemma filters_keep_valid_bytes_witness :
  exists d',
    Filter_apply Sobel 1%positive 2%positive (two_buffers step3 white3)
    = Some (tt, <[2%positive := d']> (two_buffers step3 white3)) /\
    valid_image d'.
Proof.
  apply (filters_keep_valid_bytes Sobel (two_buffers step3 white3)
           1%positive 2%positive step3 white3).
  - done.
  - done.
  - done.
  - unfold wf_image. simpl. lia.
  - unfold wf_image. simpl. lia.
  - unfold valid_image, white3, pixel_ok, byte_ok. simpl.
    repeat constructor; simpl; lia.
Defined.

(** X6.  On a source whose channels are bytes the blur stage never
    saturates: the kernel sum lies in 0..4080, its sixteenth lies in
    0..255, and that value is what the stage writes. *)
Theorem blur_never_saturates
    (h : heap) (src dest : loc) (s d : Image) :
  src <> dest -> h !! src = Some s -> h !! dest = Some d ->
  wf_image s -> wf_image d ->
  width d = width s -> height d = height s ->
  valid_image s ->
  exists d',
    BlurFilter.apply src dest h = Some (tt, <[dest := d']> h) /\
    forall x y, 0 <= x < width s -> 0 <= y < height s ->
      0 <= conv BlurFilter.kernel s x y <= 4080 /\
      0 <= conv BlurFilter.kernel s x y `div` 16 <= 255 /\
      getPixel d' x y
      = Some (gray_pixel (conv BlurFilter.kernel s x y `div` 16)).
Proof.
  intros Hne Hsrc Hdest Hs Hd Hw Hh Hv. exists (stage_output Blur s d).
  destruct (stage_output_shape Blur s d Hd) as (Hwf & Hw' & Hh').
  split; [by apply (Filter_apply_eq Blur)|].
  intros x y Hx Hy.
  assert (Hsum : 0 <= conv BlurFilter.kernel s x y <= 4080).
  { apply blur_sum_bounds. intros x0 y0.
    by destruct (px_valid s x0 y0 Hs Hv) as (Hr & _). }
  assert (Hq : 0 <= conv BlurFilter.kernel s x y `div` 16 <= 255).
  { split; [apply Z.div_pos; lia|]. apply Z.div_le_upper_bound; lia. }
  split; [done|]. split; [done|].
  rewrite getPixel_px by done. f_equal. simpl.
  rewrite px_fill_written; try done; try lia; try (apply elem_of_seqZ; lia).
  unfold blur_at, BlurFilter.divisor.
  rewrite Z.quot_div_nonneg by lia. by rewrite clamp_id.
Qed.

Lemma blur_never_saturates_witness :
  exists d',
    BlurFilter.apply 1%positive 2%positive (two_buffers white3 white3)
    = Some (tt, <[2%positive := d']> (two_buffers white3 white3)) /\
    forall x y, 0 <= x < 3 -> 0 <= y < 3 ->
      0 <= conv BlurFilter.kernel white3 x y <= 4080 /\
      0 <= conv BlurFilter.kernel white3 x y `div` 16 <= 255 /\
      getPixel d' x y
      = Some (gray_pixel (conv BlurFilter.kernel white3 x y `div` 16)).
Proof.
  apply (blur_never_saturates (two_buffers white3 white3)
           1%positive 2%positive white3 white3).
  - done.
  - done.
  - done.
  - apply white3_wf.
  - apply white3_wf.
  - done.
  - done.
  - unfold valid_image, white3, pixel_ok, byte_ok. simpl.
    repeat constructor; simpl; lia.
Defined.

(** X7.  At an interior pixel of a source whose channels are bytes the
    Sobel stage writes the saturated magnitude: |sumX| + |sumY| lies in
    0..2040 and the gray value written is the smaller of it and 255. *)
Theorem sobel_writes_saturated_magnitude
    (h : heap) (src dest : loc) (s d : Image) :
  src <> dest -> h !! src = Some s -> h !! dest = Some d ->
  wf_image s -> wf_image d ->
  width d = width s -> height d = height s ->
  valid_image s ->
  exists d',
    SobelFilter.apply src dest h = Some (tt, <[dest := d']> h) /\
    forall x y, interior (width s) (height s) x y ->
      let mag := Z.abs (conv SobelFilter.gx s x y)
                 + Z.abs (conv SobelFilter.gy s x y) in
      0 <= mag <= 2040 /\
      getPixel d' x y = Some (gray_pixel (Z.min mag 255)).
Proof.
  intros Hne Hsrc Hdest Hs Hd Hw Hh Hv. exists (stage_output Sobel s d).
  destruct (stage_output_shape Sobel s d Hd) as (Hwf & Hw' & Hh').
  split; [by apply (Filter_apply_eq Sobel)|].
  intros x y [Hx Hy] mag.
  assert (Hmag : 0 <= mag <= 2040).
  { apply sobel_mag_bounds. intros x0 y0.
    by destruct (px_valid s x0 y0 Hs Hv) as (Hr & _). }
  split; [done|].
  rewrite getPixel_px by done. f_equal. simpl.
  rewrite px_fill_written; try done; try lia; try (apply elem_of_seqZ; lia).
  unfold sobel_at. fold mag. f_equal.
  destruct (Z.le_gt_cases mag 255).
  - rewrite clamp_id by lia. lia.
  - rewrite clamp_high by lia. lia.
Qed.

Lemma step3_wf : wf_image step3.
Proof. unfold wf_image. simpl. lia. Qed.

Lemma step3_valid : valid_image step3.
Proof.
  unfold valid_image, step3, white, zero_pixel, pixel_ok, byte_ok. simpl.
  repeat constructor; simpl; lia.
Qed.

Lemma sobel_writes_saturated_magnitude_witness :
  exists d',
    SobelFilter.apply 1%positive 2%positive (two_buffers step3 white3)
    = Some (tt, <[2%positive := d']> (two_buffers step3 white3)) /\
    getPixel d' 1 1 = Some (gray_pixel 255).
Proof.
  destruct (sobel_writes_saturated_magnitude (two_buffers step3 white3)
              1%positive 2%positive step3 white3)
    as (d' & E & Hpx);
    [ done | done | done | apply step3_wf | apply white3_wf | done | done
    | apply step3_valid | ].
  exists d'. split; [done|].
  destruct (Hpx 1 1) as [_ Hg]; [unfold interior; simpl; lia|].
  exact Hg.
Defined.

(** X8.  The gray value the grayscale stage writes lies between the
    smallest and the largest channel of the source pixel; a source
    pixel that is already gray is written back unchanged. *)
Theorem grayscale_between_channels
    (h : heap) (src dest : loc) (s d : Image) :
  src <> dest -> h !! src = Some s -> h !! dest = Some d ->
  wf_image s -> wf_image d ->
  width d = width s -> height d = height s ->
  valid_image s ->
  exists d',
    GrayscaleFilter.apply src dest h = Some (tt, <[dest := d']> h) /\
    forall x y, 0 <= x < width s -> 0 <= y < height s ->
      exists p v,
        getPixel s x y = Some p /\
        getPixel d' x y = Some (mkPixel v v v) /\
        Z.min (r p) (Z.min (g p) (b p)) <= v
          <= Z.max (r p) (Z.max (g p) (b p)) /\
        (r p = g p -> g p = b p -> mkPixel v v v = p).
Proof.
  intros Hne Hsrc Hdest Hs Hd Hw Hh Hv. exists (stage_output Grayscale s d).
  destruct (stage_output_shape Grayscale s d Hd) as (Hwf & Hw' & Hh').
  split; [by apply (Filter_apply_eq Grayscale)|].
  intros x y Hx Hy.
  exists (px s x y), (gray_value (px s x y)).
  split; [by apply getPixel_px|]. split.
  { rewrite getPixel_px by done. f_equal. simpl.
    rewrite px_fill_written; try done; try lia; apply elem_of_seqZ; lia. }
  destruct (px_valid s x y Hs Hv) as (Hr & Hg & Hb).
  destruct (px s x y) as [pr pg pb]. unfold byte_ok in *. simpl in *.
  assert (Hval : gray_value (mkPixel pr pg pb)
                 = (pr * 77 + pg * 150 + pb * 29) `div` 256).
  { unfold gray_value. simpl. rewrite Z.shiftr_div_pow2 by lia.
    change (2 ^ 8) with 256. apply clamp_id. split.
    - apply Z.div_pos; lia.
    - apply Z.div_le_upper_bound; lia. }
  rewrite Hval. split.
  - split.
    + apply Z.div_le_lower_bound; lia.
    + apply Z.div_le_upper_bound; lia.
  - intros <- <-. f_equal;
      (replace (pr * 77 + pr * 150 + pr * 29) with (pr * 256) by lia;
       apply Z.div_mul; lia).
Qed.

Lemma grayscale_between_channels_witness :
  exists d',
    GrayscaleFilter.apply 1%positive 2%positive (two_buffers white3 step3)
    = Some (tt, <[2%positive := d']> (two_buffers white3 step3)) /\
    forall x y, 0 <= x < 3 -> 0 <= y < 3 ->
      exists p v,
        getPixel white3 x y = Some p /\
        getPixel d' x y = Some (mkPixel v v v) /\
        Z.min (r p) (Z.min (g p) (b p)) <= v
          <= Z.max (r p) (Z.max (g p) (b p)) /\
        (r p = g p -> g p = b p -> mkPixel v v v = p).
Proof.
  apply (grayscale_between_channels (two_buffers white3 step3)
           1%positive 2%positive white3 step3).
  - done.
  - done.
  - done.
  - apply white3_wf.
  - apply step3_wf.
  - done.
  - done.
  - unfold valid_image, white3, pixel_ok, byte_ok. simpl.
    repeat constructor; simpl; lia.
Defined.

Lemma fill_no_columns (F : Z -> Z -> Pixel) (ys : list Z) (d : Image) :
  fill ys [] F d = d.
Proof. unfold fill. induction ys as [|y ys IH]; [done|]. simpl. apply IH. Qed.

(** X9.  On a source narrower or lower than three pixels the Sobel
    stage has no interior pixel to process: it returns normally and
    leaves the whole heap, the destination included, as it was. *)
Theorem sobel_small_image_untouched
    (h : heap) (src dest : loc) (s d : Image) :
  src <> dest -> h !! src = Some s -> h !! dest = Some d ->
  wf_image s -> wf_image d ->
  width s <= 2 \/ height s <= 2 ->
  SobelFilter.apply src dest h = Some (tt, h).
Proof.
  intros Hne Hsrc Hdest Hs Hd Hsmall.
  pose proof (Filter_apply_eq Sobel h src dest s d Hne Hsrc Hdest Hs Hd) as E.
  simpl in E. rewrite E. f_equal. f_equal.
  assert (Hout : fill (seqZ 1 (height s - 1 - 1)) (seqZ 1 (width s - 1 - 1))
                   (sobel_at s) d = d).
  { destruct Hsmall as [Hw|Hh].
    - replace (seqZ 1 (width s - 1 - 1)) with (@nil Z).
      + apply fill_no_columns.
      + symmetry. apply seqZ_nil. lia.
    - replace (seqZ 1 (height s - 1 - 1)) with (@nil Z); [done|].
      symmetry. apply seqZ_nil. lia. }
  rewrite Hout. by apply insert_id.
Qed.

Lemma sobel_small_image_untouched_witness :
  SobelFilter.apply 1%positive 2%positive
    (two_buffers (mkImage 2 1 [white; zero_pixel])
                 (mkImage 2 1 [zero_pixel; white]))
  = Some (tt, two_buffers (mkImage 2 1 [white; zero_pixel])
                          (mkImage 2 1 [zero_pixel; white])).
Proof.
  apply (sobel_small_image_untouched _ 1%positive 2%positive
           (mkImage 2 1 [white; zero_pixel]) (mkImage 2 1 [zero_pixel; white])).
  - done.
  - done.
  - done.
  - unfold wf_image. simpl. lia.
  - unfold wf_image. simpl. lia.
  - simpl. lia.
Defined.

(** ** Whole runs of the pipeline *)

Lemma ping_pong_snoc (fs : list Filter) (f : Filter) (bufs : Image * Image) :
  ping_pong (fs ++ [f]) bufs
  = (stage_output f (fst (ping_pong fs bufs)) (snd (ping_pong fs bufs)),
     fst (ping_pong fs bufs)).
Proof.
  unfold ping_pong. rewrite foldl_app. simpl.
  by destruct (foldl _ bufs fs) as [a c].
Qed.

(** Both buffers stay well formed and keep the dimensions of the input
    through any sequence of stages. *)
Lemma ping_pong_inv (fs : list Filter) (a c : Image) :
  wf_image a -> wf_image c ->
  width c = width a -> height c = height a ->
  wf_image (fst (ping_pong fs (a, c))) /\
  wf_image (snd (ping_pong fs (a, c))) /\
  width (fst (ping_pong fs (a, c))) = width a /\
  height (fst (ping_pong fs (a, c))) = height a /\
  width (snd (ping_pong fs (a, c))) = width a /\
  height (snd (ping_pong fs (a, c))) = height a.
Proof.
  intros Ha Hc Hw Hh.
  induction fs as [|f fs IH] using rev_ind; [done|].
  rewrite ping_pong_snoc. simpl.
  destruct IH as (H1 & H2 & H3 & H4 & H5 & H6).
  destruct (stage_output_shape f (fst (ping_pong fs (a, c)))
              (snd (ping_pong fs (a, c))) H2) as (Hwf & Hw' & Hh').
  split; [done|]. split; [done|]. split; [congruence|].
  split; [congruence|]. by split.
Qed.

Lemma run_result (fs : list Filter) (h : heap) (input : loc) (img : Image)
    (junk1 junk2 : nat -> Pixel) :
  h !! input = Some img -> wf_image img ->
  exists B h',
    wf_image B /\ width B = width img /\ height B = height img /\
    Image_new (width img) (height img) junk2 = Some B /\
    run fs input junk1 junk2 h = Some (fst (ping_pong fs (img, B)), h') /\
    h' !! input = Some img.
Proof.
  intros Hin Hwf.
  destruct (run_ok fs h input img junk1 junk2 Hin Hwf) as (B & h' & EB & E & Hi).
  pose proof Hwf as (Hw & Hh & _).
  destruct (Image_new_ok (width img) (height img) junk2 Hw Hh)
    as (B' & EB' & HB & HwB & HhB).
  assert (B' = B) as -> by congruence.
  by exists B, h'.
Qed.

(** X10.  A run never fails, whatever the stages: [getResult] then
    points to a well-formed buffer with the dimensions of the input, and
    the caller's image is as it was. *)
Theorem run_returns_well_formed_result
    (fs : list Filter) (h : heap) (input : loc) (img : Image)
    (junk1 junk2 : nat -> Pixel) :
  h !! input = Some img -> wf_image img ->
  exists res h',
    run fs input junk1 junk2 h = Some (res, h') /\
    wf_image res /\ width res = width img /\ height res = height img /\
    h' !! input = Some img.
Proof.
  intros Hin Hwf.
  destruct (run_result fs h input img junk1 junk2 Hin Hwf)
    as (B & h' & HB & HwB & HhB & _ & E & Hi).
  destruct (ping_pong_inv fs img B Hwf HB HwB HhB) as (H1 & _ & H3 & H4 & _).
  by exists (fst (ping_pong fs (img, B))), h'.
Qed.

Lemma run_returns_well_formed_result_witness :
  exists res h',
    run [Sobel; Blur; Sobel; Grayscale] 1%positive
      (fun _ => mkPixel 7 7 7) (fun _ => mkPixel 8 8 8)
      {[1%positive := step3]} = Some (res, h') /\
    wf_image res /\ width res = 3 /\ height res = 3 /\
    h' !! 1%positive = Some step3.
Proof.
  apply (run_returns_well_formed_result [Sobel; Blur; Sobel; Grayscale]
           {[1%positive := step3]} 1%positive step3).
  - done.
  - unfold wf_image. simpl. lia.
Defined.

Lemma run_snoc_full (fs : list Filter) (f : Filter) (h : heap) (input : loc)
    (img : Image) (junk1 junk2 : nat -> Pixel) :
  f <> Sobel -> h !! input = Some img -> wf_image img ->
  exists res h1 h2,
    wf_image res /\
    run fs input junk1 junk2 h = Some (res, h1) /\
    run (fs ++ [f]) input junk1 junk2 h = Some (spec_stage f res, h2).
Proof.
  intros Hf Hin Hwf.
  destruct (run_result fs h input img junk1 junk2 Hin Hwf)
    as (B & h1 & HB & HwB & HhB & EB & E1 & _).
  destruct (run_result (fs ++ [f]) h input img junk1 junk2 Hin Hwf)
    as (B' & h2 & _ & _ & _ & EB' & E2 & _).
  assert (B' = B) as -> by congruence.
  destruct (ping_pong_inv fs img B Hwf HB HwB HhB)
    as (H1 & H2 & H3 & H4 & H5 & H6).
  exists (fst (ping_pong fs (img, B))), h1, h2.
  split; [done|]. split; [done|].
  rewrite E2, ping_pong_snoc. simpl.
  rewrite stage_output_spec; try done; congruence.
Qed.

(** X11.  When the last stage is the grayscale or the blur stage, the
    result is that stage's transform of what the pipeline without it
    returns, whatever stages came before and whatever the fresh buffers
    held. *)
Theorem last_full_stage_determines_result
    (fs : list Filter) (f : Filter) (h : heap) (input : loc)
    (img : Image) (junk1 junk2 : nat -> Pixel) :
  f <> Sobel -> h !! input = Some img -> wf_image img ->
  exists res h1 h2,
    run fs input junk1 junk2 h = Some (res, h1) /\
    run (fs ++ [f]) input junk1 junk2 h = Some (spec_stage f res, h2).
Proof.
  intros Hf Hin Hwf.
  destruct (run_snoc_full fs f h input img junk1 junk2 Hf Hin Hwf)
    as (res & h1 & h2 & _ & E1 & E2).
  by exists res, h1, h2.
Qed.

Lemma last_full_stage_determines_result_witness :
  exists res h1 h2,
    run [Sobel] 1%positive (fun _ => mkPixel 7 7 7) (fun _ => mkPixel 8 8 8)
      {[1%positive := step3]} = Some (res, h1) /\
    run ([Sobel] ++ [Blur]) 1%positive
      (fun _ => mkPixel 7 7 7) (fun _ => mkPixel 8 8 8)
      {[1%positive := step3]} = Some (spec_stage Blur res, h2).
Proof.
  apply (last_full_stage_determines_result [Sobel] Blur
           {[1%positive := step3]} 1%positive step3).
  - done.
  - done.
  - unfold wf_image. simpl. lia.
Defined.

(** X12.  A Sobel stage that follows at least one other stage returns,
    outside the interior, the pixels of the pipeline two stages shorter:
    the ring of the result of [fs ++ [f; Sobel]] is the ring of the
    result of [fs]. *)
Theorem trailing_sobel_keeps_older_ring
    (fs : list Filter) (f : Filter) (h : heap) (input : loc)
    (img : Image) (junk1 junk2 : nat -> Pixel) :
  h !! input = Some img -> wf_image img ->
  exists res0 res2 h0 h2,
    run fs input junk1 junk2 h = Some (res0, h0) /\
    run (fs ++ [f; Sobel]) input junk1 junk2 h = Some (res2, h2) /\
    forall x y, ~ interior (width img) (height img) x y ->
      getPixel res2 x y = getPixel res0 x y.
Proof.
  intros Hin Hwf.
  destruct (run_result fs h input img junk1 junk2 Hin Hwf)
    as (B & h0 & HB & HwB & HhB & EB & E0 & _).
  destruct (run_result (fs ++ [f; Sobel]) h input img junk1 junk2 Hin Hwf)
    as (B' & h2 & _ & _ & _ & EB' & E2 & _).
  assert (B' = B) as -> by congruence.
  destruct (ping_pong_inv fs img B Hwf HB HwB HhB)
    as (H1 & H2 & H3 & H4 & H5 & H6).
  eexists _, _, h0, h2. split; [exact E0|]. split; [exact E2|].
  intros x y Hni.
  replace (fs ++ [f; Sobel]) with ((fs ++ [f]) ++ [Sobel])
    by (by rewrite <- app_assoc).
  rewrite !ping_pong_snoc. simpl.
  set (a := fst (ping_pong fs (img, B))) in *.
  set (c := snd (ping_pong fs (img, B))) in *.
  destruct (stage_output_shape f a c H2) as (Hwf' & Hw' & Hh').
  destruct (stage_output_shape Sobel (stage_output f a c) a H1)
    as (Hwf2 & _ & _).
  rewrite !getPixel_px by done. f_equal.
  apply px_fill_other; [done|]. rewrite !elem_of_seqZ.
  unfold interior in Hni. rewrite Hw', Hh'. lia.
Qed.

Lemma trailing_sobel_keeps_older_ring_witness :
  exists res0 res2 h0 h2,
    run [Grayscale] 1%positive (fun _ => mkPixel 7 7 7) (fun _ => mkPixel 8 8 8)
      {[1%positive := white3]} = Some (res0, h0) /\
    run ([Grayscale] ++ [Blur; Sobel]) 1%positive
      (fun _ => mkPixel 7 7 7) (fun _ => mkPixel 8 8 8)
      {[1%positive := white3]} = Some (res2, h2) /\
    forall x y, ~ interior 3 3 x y -> getPixel res2 x y = getPixel res0 x y.
Proof.
  apply (trailing_sobel_keeps_older_ring [Grayscale] Blur
           {[1%positive := white3]} 1%positive white3).
  - done.
  - unfold wf_image. simpl. lia.
Defined.

Lemma gray_value_fixed (p : Pixel) :
  gray_value (gray_pixel (gray_value p)) = gray_value p.
Proof.
  unfold gray_value at 1. simpl.
  assert (Hv : 0 <= gray_value p <= 255) by apply clamp_range.
  set (v := gray_value p) in *.
  replace (v * 77 + v * 150 + v * 29) with (v * 256) by lia.
  rewrite Z.shiftr_div_pow2 by lia. change (2 ^ 8) with 256.
  rewrite Z.div_mul by lia. by apply clamp_id.
Qed.

Lemma spec_stage_gray_idem (a : Image) :
  wf_image a ->
  spec_stage Grayscale (spec_stage Grayscale a) = spec_stage Grayscale a.
Proof.
  intros Ha. pose proof (spec_stage_wf Grayscale a Ha) as Hwf.
  apply image_ext; [by apply spec_stage_wf|done|done|done|].
  simpl. intros x y Hx Hy.
  rewrite (px_spec_stage Grayscale (spec_stage Grayscale a)) by done.
  simpl. unfold gray_at.
  rewrite (px_spec_stage Grayscale a) by done. simpl. unfold gray_at.
  by rewrite gray_value_fixed.
Qed.

(** X13.  The grayscale stage is idempotent in a pipeline: appending a
    second grayscale stage right after a grayscale stage does not change
    the result, whatever stages came before. *)
Theorem second_grayscale_changes_nothing
    (fs : list Filter) (h : heap) (input : loc) (img : Image)
    (junk1 junk2 : nat -> Pixel) :
  h !! input = Some img -> wf_image img ->
  exists res h1 h2,
    run (fs ++ [Grayscale]) input junk1 junk2 h = Some (res, h1) /\
    run (fs ++ [Grayscale; Grayscale]) input junk1 junk2 h = Some (res, h2).
Proof.
  intros Hin Hwf.
  destruct (run_snoc_full fs Grayscale h input img junk1 junk2)
    as (res & h0 & h1 & Hres & E0 & E1); [done|done|done|].
  destruct (run_snoc_full (fs ++ [Grayscale]) Grayscale h input img
              junk1 junk2)
    as (res' & h1' & h2 & _ & E1' & E2); [done|done|done|].
  rewrite E1 in E1'. injection E1' as <- <-.
  rewrite <- app_assoc in E2. simpl in E2.
  rewrite spec_stage_gray_idem in E2 by done.
  by exists (spec_stage Grayscale res), h1, h2.
Qed.

Lemma second_grayscale_changes_nothing_witness :
  exists res h1 h2,
    run ([Sobel] ++ [Grayscale]) 1%positive
      (fun _ => mkPixel 7 7 7) (fun _ => mkPixel 8 8 8)
      {[1%positive := step3]} = Some (res, h1) /\
    run ([Sobel] ++ [Grayscale; Grayscale]) 1%positive
      (fun _ => mkPixel 7 7 7) (fun _ => mkPixel 8 8 8)
      {[1%positive := step3]} = Some (res, h2).
Proof.
  apply (second_grayscale_changes_nothing [Sobel]
           {[1%positive := step3]} 1%positive step3).
  - done.
  - unfold wf_image. simpl. lia.
Defined.

(** ** The buffers of [execute] *)

(** The pair of pointers after the stage loop only depends on the
    parity of the number of stages. *)
Lemma stage_loop_parity (fs : list Filter) :
  forall (h h' : heap) (wb bb : loc) (res : loc * loc),
    forM fs (fun filter '(wb, back) =>
               Filter_apply filter wb back ;;; ret (back, wb)) (wb, bb) h
    = Some (res, h') ->
    res = if Nat.even (length fs) then (wb, bb) else (bb, wb).
Proof.
  induction fs as [|f fs IH]; intros h h' wb bb res E.
  { simpl in E. unfold ret in E. by injection E as <- _. }
  simpl in E. unfold bind at 1 in E. unfold bind at 1 in E.
  destruct (Filter_apply f wb bb h) as [[[] h1]|]; [|done].
  unfold ret at 1 in E. apply IH in E. rewrite E.
  change (length (f :: fs)) with (S (length fs)).
  rewrite Nat.even_succ, <- Nat.negb_even.
  by destruct (Nat.even (length fs)).
Qed.

(** What [execute] leaves in the heap, location by location. *)
Lemma execute_exact (P : Pipeline) (junk : nat -> Pixel) (h : heap)
    (W : Image) :
  h !! workingBuffer P = Some W -> wf_image W ->
  exists wb' bb' h',
    execute P junk h = Some (mkPipeline (stages P) wb', h') /\
    (wb', bb') = (if Nat.even (length (stages P))
                  then (workingBuffer P, fresh (dom h))
                  else (fresh (dom h), workingBuffer P)) /\
    is_Some (h' !! wb') /\
    h' !! bb' = None /\
    (forall l, l <> workingBuffer P -> l <> fresh (dom h) -> h' !! l = h !! l).
Proof.
  intros HW Hwf. pose proof Hwf as (Hw & Hh & _).
  destruct (Image_new_ok (width W) (height W) junk Hw Hh)
    as (B & EB & HB & HwB & HhB).
  pose proof (fresh_unused h) as Hfresh. set (bb := fresh (dom h)) in *.
  assert (Hne : workingBuffer P <> bb) by congruence.
  destruct (stage_loop (stages P) (<[bb := B]> h) (workingBuffer P) bb W B)
    as (wb' & bb' & h' & E & Hor & Hf & Hb & Hframe); try done.
  { by rewrite lookup_insert_ne. }
  { apply lookup_insert_eq. }
  pose proof (stage_loop_parity _ _ _ _ _ _ E) as Hpar.
  assert (Hne' : wb' <> bb') by (destruct Hor as [[-> ->]|[-> ->]]; done).
  exists wb', bb', (delete bb' h').
  split.
  { unfold execute.
    erewrite bind_eq by (by apply p_getWidth_ok).
    erewrite bind_eq by (by apply p_getHeight_ok).
    unfold getWidth, getHeight.
    erewrite bind_eq by (unfold lift; by rewrite EB).
    erewrite bind_eq by (unfold alloc; fold bb; done).
    erewrite bind_eq by apply E.
    simpl. unfold bind, free, ret. by rewrite Hb. }
  split; [done|]. split.
  { rewrite lookup_delete_ne by done. by eexists. }
  split; [apply lookup_delete_eq|].
  intros l H1 H2.
  rewrite lookup_delete_ne by (destruct Hor as [[_ ->]|[_ ->]]; done).
  rewrite Hframe by done. by rewrite lookup_insert_ne.
Qed.

(** X14.  Which buffer [getResult] points to after [execute] depends on
    the parity of the number of stages: after an even number it is the
    buffer the pipeline was constructed with; after an odd number it is
    the buffer [execute] allocated, and the buffer [getResult] pointed
    to before [execute] has been deleted. *)
Theorem execute_result_buffer_by_parity
    (P : Pipeline) (junk : nat -> Pixel) (h : heap) (W : Image) :
  h !! workingBuffer P = Some W -> wf_image W ->
  exists P' h',
    execute P junk h = Some (P', h') /\
    is_Some (h' !! getResult P') /\
    (Nat.even (length (stages P)) = true ->
     getResult P' = getResult P /\ h' !! fresh (dom h) = None) /\
    (Nat.even (length (stages P)) = false ->
     getResult P' = fresh (dom h) /\ h' !! getResult P = None).
Proof.
  intros HW Hwf.
  destruct (execute_exact P junk h W HW Hwf)
    as (wb' & bb' & h' & E & Hpar & Hres & Hfreed & _).
  exists (mkPipeline (stages P) wb'), h'.
  split; [done|]. split; [done|].
  unfold getResult. simpl.
  destruct (Nat.even (length (stages P)));
    injection Hpar as -> ->; split; intros; done.
Qed.

Lemma execute_result_buffer_by_parity_witness :
  exists P' h',
    execute (mkPipeline [Grayscale] 1%positive) (fun _ => mkPixel 7 7 7)
      {[1%positive := white3]} = Some (P', h') /\
    getResult P' = 2%positive /\ h' !! 1%positive = None.
Proof.
  destruct (execute_result_buffer_by_parity (mkPipeline [Grayscale] 1%positive)
              (fun _ => mkPixel 7 7 7) {[1%positive := white3]} white3)
    as (P' & h' & E & _ & _ & Hodd);
    [done | unfold wf_image; simpl; lia |].
  exists P', h'. split; [done|]. apply Hodd. reflexivity.
Defined.

(** X15.  A pipeline's life leaks no buffer and frees none of the
    caller's: constructing a pipeline on an image, running any stages
    and destroying the pipeline returns the heap to exactly what it was
    before construction. *)
Theorem pipeline_lifecycle_restores_heap
    (fs : list Filter) (h : heap) (input : loc) (img : Image)
    (junk1 junk2 : nat -> Pixel) :
  h !! input = Some img -> wf_image img ->
  lifecycle fs input junk1 junk2 h = Some (tt, h).
Proof.
  intros Hin Hwf.
  pose proof (fresh_unused h) as Hfresh. set (wb := fresh (dom h)) in *.
  destruct (stages_foldl_addStage fs (mkPipeline [] wb)) as [Est Ewb].
  simpl in Est, Ewb.
  pose proof (fresh_unused (<[wb := img]> h)) as Hfresh2.
  destruct (execute_exact (foldl addStage (mkPipeline [] wb) fs) junk2
              (<[wb := img]> h) img)
    as (wb' & bb' & h' & E & Hpar & [res Hres] & Hfreed & Hframe); [|done|].
  { rewrite Ewb. apply lookup_insert_eq. }
  rewrite Ewb in Hpar, Hframe.
  set (bb := fresh (dom (<[wb := img]> h))) in *.
  assert (Hbb : h !! bb = None /\ bb <> wb).
  { destruct (decide (bb = wb)) as [Eq|Hne].
    - rewrite Eq, lookup_insert_eq in Hfresh2. done.
    - by rewrite lookup_insert_ne in Hfresh2. }
  destruct Hbb as [Hbb Hne].
  unfold lifecycle.
  erewrite bind_eq by (by apply Pipeline_new_ok).
  fold wb. erewrite bind_eq by apply E.
  unfold Pipeline_delete, free. simpl. rewrite Hres. f_equal. f_equal.
  apply map_eq. intros l.
  assert (Hcases : (wb' = wb /\ bb' = bb) \/ (wb' = bb /\ bb' = wb)).
  { destruct (Nat.even (length (stages _))); injection Hpar as -> ->; tauto. }
  destruct (decide (l = wb')) as [->|H1]; [rewrite lookup_delete_eq|
    rewrite lookup_delete_ne by done].
  - destruct Hcases as [[-> _]|[-> _]]; done.
  - destruct (decide (l = bb')) as [->|H2].
    + rewrite Hfreed. destruct Hcases as [[_ ->]|[_ ->]]; done.
    + rewrite Hframe.
      * apply lookup_insert_ne. destruct Hcases as [[-> ->]|[-> ->]]; done.
      * destruct Hcases as [[-> ->]|[-> ->]]; done.
      * destruct Hcases as [[-> ->]|[-> ->]]; done.
Qed.

Lemma pipeline_lifecycle_restores_heap_witness :
  lifecycle [Grayscale; Blur; Sobel] 1%positive
    (fun _ => mkPixel 7 7 7) (fun _ => mkPixel 8 8 8) {[1%positive := white3]}
  = Some (tt, {[1%positive := white3]}).
Proof.
  apply (pipeline_lifecycle_restores_heap [Grayscale; Blur; Sobel]
           {[1%positive := white3]} 1%positive white3).
  - done.
  - unfold wf_image. simpl. lia.
Defined.

(** X16.  A pipeline of grayscale and blur stages only returns the
    composition of its stages' transforms applied to the input, each
    stage reading the output of the one before; the result does not
    depend on what the freshly allocated buffers held. *)
Theorem grayscale_blur_pipeline_is_composition
    (fs : list Filter) (h : heap) (input : loc) (img : Image)
    (junk1 junk2 : nat -> Pixel) :
  Forall (fun f => f <> Sobel) fs ->
  h !! input = Some img -> wf_image img ->
  exists h', run fs input junk1 junk2 h = Some (spec_pipeline fs img, h').
Proof. apply run_without_sobel_refines_spec. Qed.

Lemma grayscale_blur_pipeline_is_composition_witness :
  exists h',
    run [Grayscale; Blur; Grayscale] 1%positive
      (fun _ => mkPixel 7 7 7) (fun _ => mkPixel 8 8 8)
      {[1%positive := step3]}
    = Some (spec_pipeline [Grayscale; Blur; Grayscale] step3, h').
Proof.
  apply (grayscale_blur_pipeline_is_composition [Grayscale; Blur; Grayscale]
           {[1%positive := step3]} 1%positive step3).
  - repeat constructor; discriminate.
  - done.
  - unfold wf_image. simpl. lia.
Defined.

(** X17.  With the Sobel stage as the only stage, every pixel of the
    result outside the interior is a cell of the block [execute]
    allocated and never initialised: the result shows whatever that
    memory held. *)
Theorem sobel_alone_returns_uninitialised_ring
    (h : heap) (input : loc) (img : Image) (junk1 junk2 : nat -> Pixel) :
  h !! input = Some img -> wf_image img ->
  exists res h',
    run [Sobel] input junk1 junk2 h = Some (res, h') /\
    forall x y, on_ring (width img) (height img) x y ->
      getPixel res x y = Some (junk2 (Z.to_nat (y * width img + x))).
Proof.
  intros Hin Hwf.
  destruct (run_result [Sobel] h input img junk1 junk2 Hin Hwf)
    as (B & h' & HB & HwB & HhB & EB & E & _).
  eexists _, h'. split; [exact E|].
  intros x y (Hx & Hy & Hedge). simpl.
  destruct (stage_output_shape Sobel img B HB) as (Hwf' & _ & _).
  rewrite getPixel_px by done. f_equal.
  unfold stage_output. rewrite px_fill_other;
    [|done|rewrite !elem_of_seqZ; lia].
  pose proof (px_in_data B x y HB) as Hpx.
  rewrite HwB, HhB in Hpx. specialize (Hpx Hx Hy).
  unfold Image_new, block_new in EB.
  pose proof (index_in_block _ _ _ _ Hx Hy) as Hi.
  destruct (width img * height img <? 0) eqn:Hneg; [lia|].
  injection EB as <-. simpl in Hpx.
  rewrite list_lookup_fmap, lookup_seq_lt in Hpx by lia.
  simpl in Hpx. by injection Hpx as <-.
Qed.

Lemma sobel_alone_returns_uninitialised_ring_witness :
  exists res h',
    run [Sobel] 1%positive (fun _ => mkPixel 7 7 7)
      (fun i => mkPixel (Z.of_nat i) 8 8) {[1%positive := white3]}
    = Some (res, h') /\
    forall x y, on_ring 3 3 x y ->
      getPixel res x y = Some (mkPixel (Z.of_nat (Z.to_nat (y * 3 + x))) 8 8).
Proof.
  apply (sobel_alone_returns_uninitialised_ring {[1%positive := white3]}
           1%positive white3 (fun _ => mkPixel 7 7 7)
           (fun i => mkPixel (Z.of_nat i) 8 8)).
  - done.
  - unfold wf_image. simpl. lia.
Defined.

(** ** Fixed point *)

(** X18.  [fromFixed] returns the integer part of a Q8.8 value, rounding
    toward minus infinity: for every integer [n] and fraction [f] in
    0..255, [fromFixed (n * 256 + f) = n], also when [n] is negative. *)
Theorem fromFixed_integer_part (n f : Z) :
  0 <= f < 256 -> HardwareMath.fromFixed (n * 256 + f) = n.
Proof.
  intros Hf. rewrite fromFixed_div.
  rewrite Z.add_comm, Z.div_add by lia.
  rewrite Z.div_small by lia. lia.
Qed.

Lemma fromFixed_integer_part_witness :
  HardwareMath.fromFixed (-3 * 256 + 128) = -3.
Proof. apply (fromFixed_integer_part (-3) 128). lia. Defined.

(** * File input and output *)

Lemma digit_cases (d : Z) :
  0 <= d < 10 ->
  d = 0 \/ d = 1 \/ d = 2 \/ d = 3 \/ d = 4 \/ d = 5 \/ d = 6 \/ d = 7
  \/ d = 8 \/ d = 9.
Proof. lia. Qed.

Lemma digit_char_facts (d : Z) :
  0 <= d < 10 ->
  is_digit (digit_char d) = true /\
  is_space (digit_char d) = false /\
  digit_value (digit_char d) = d /\
  Ascii.eqb (digit_char d) "-" = false /\
  Ascii.eqb (digit_char d) "+" = false /\
  Ascii.eqb (digit_char d) "#" = false.
Proof.
  intros Hd.
  destruct (digit_cases d Hd) as [->|[->|[->|[->|[->|[->|[->|[->|[->| ->]]]]]]]]];
    by vm_compute.
Qed.

Lemma is_digit_not_space (c : ascii) : is_digit c = true -> is_space c = false.
Proof.
  unfold is_digit, is_space. intros H.
  destruct (Z.leb_spec 48 (code c)); [|done].
  destruct (Z.eqb_spec (code c) 32); [lia|].
  destruct (Z.leb_spec 9 (code c)); [|done].
  destruct (Z.leb_spec (code c) 13); [lia|done].
Qed.

Lemma is_digit_not_sign (c : ascii) :
  is_digit c = true ->
  Ascii.eqb c "-" = false /\ Ascii.eqb c "+" = false /\ Ascii.eqb c "#" = false.
Proof.
  intros H. repeat split.
  - destruct (Ascii.eqb_spec c "-") as [->|]; [by vm_compute in H|done].
  - destruct (Ascii.eqb_spec c "+") as [->|]; [by vm_compute in H|done].
  - destruct (Ascii.eqb_spec c "#") as [->|]; [by vm_compute in H|done].
Qed.

Lemma digits_value_snoc (l : list ascii) (c : ascii) :
  digits_value (l ++ [c]) = digits_value l * 10 + digit_value c.
Proof. unfold digits_value. by rewrite foldl_app. Qed.

Lemma show_digits_spec (fuel : nat) :
  forall n, (0 < fuel)%nat -> 0 <= n < 2 ^ Z.of_nat fuel ->
    show_digits fuel n <> [] /\
    all_digits (show_digits fuel n) /\
    digits_value (show_digits fuel n) = n.
Proof.
  induction fuel as [|fuel IH]; intros n Hf Hn; [lia|].
  simpl. destruct (Z.ltb_spec n 10) as [Hlt|Hge].
  - destruct Hn as [Hn0 _].
    destruct (digit_char_facts n) as (Hd & _ & Hv & _); [lia|].
    split; [done|]. split; [by repeat constructor|].
    change (digits_value [digit_char n])
      with (0 * 10 + digit_value (digit_char n)). lia.
  - assert (Hq : 0 <= n `div` 10 < 2 ^ Z.of_nat fuel).
    { split; [apply Z.div_pos; lia|].
      apply Z.div_lt_upper_bound; [lia|].
      rewrite Nat2Z.inj_succ, Z.pow_succ_r in Hn by lia. lia. }
    assert (Hf' : (0 < fuel)%nat).
    { destruct fuel; [|lia]. simpl in Hq.
      assert (1 <= n `div` 10) by (apply Z.div_le_lower_bound; lia). lia. }
    destruct (IH _ Hf' Hq) as (Hne & Hall & Hval).
    destruct (digit_char_facts (n `mod` 10)) as (Hd & _ & Hv & _).
    { apply Z.mod_pos_bound. lia. }
    split; [by destruct (show_digits fuel (n `div` 10))|].
    split.
    + apply Forall_app. split; [done|by repeat constructor].
    + rewrite digits_value_snoc, Hval, Hv.
      pose proof (Z.div_mod n 10). lia.
Qed.

Lemma show_int_nonneg (n : Z) :
  0 <= n ->
  exists d ds,
    show_int n = d :: ds /\ all_digits (d :: ds) /\ digits_value (d :: ds) = n.
Proof.
  intros Hn. unfold show_int. destruct (Z.ltb_spec n 0); [lia|].
  destruct (show_digits_spec (S (Z.to_nat (Z.log2 n))) n) as (Hne & Hall & Hval).
  { lia. }
  { split; [done|]. rewrite Nat2Z.inj_succ, Z2Nat.id by apply Z.log2_nonneg.
    destruct (Z.eq_dec n 0) as [->|]; [done|].
    apply Z.log2_spec. lia. }
  destruct (show_digits _ n) as [|d ds]; [done|]. by exists d, ds.
Qed.

Lemma drop_while_app (f : ascii -> bool) (l tl : list ascii) :
  Forall (fun c => f c = true) l ->
  drop_while f (l ++ tl) = drop_while f tl.
Proof. induction 1 as [|c l Hc _ IH]; [done|]. simpl. by rewrite Hc. Qed.

Lemma take_while_app (f : ascii -> bool) (l : list ascii) (c : ascii)
    (tl : list ascii) :
  Forall (fun c => f c = true) l -> f c = false ->
  take_while f (l ++ c :: tl) = l.
Proof.
  intros Hl Hc. induction Hl as [|a l Ha _ IH]; simpl.
  - by rewrite Hc.
  - by rewrite Ha, IH.
Qed.

Lemma drop_while_stop (f : ascii -> bool) (c : ascii) (tl : list ascii) :
  f c = false -> drop_while f (c :: tl) = c :: tl.
Proof. intros Hc. simpl. by rewrite Hc. Qed.

Lemma sentry_skip (ws : list ascii) (c : ascii) (tl : list ascii) :
  all_space ws -> is_space c = false ->
  sentry false (mkIstream (ws ++ c :: tl) false false)
  = (true, mkIstream (c :: tl) false false).
Proof.
  intros Hws Hc. unfold sentry. cbn [good eofbit failbit negb andb rest].
  by rewrite drop_while_app, drop_while_stop.
Qed.

(** Extracting an [int] from a good stream that holds, after white
    space, the digits [file << n] writes and then a character that is
    not a digit. *)
Lemma read_int_text (ws : list ascii) (n : Z) (c : ascii) (tl : list ascii)
    (old : option Z) :
  all_space ws -> 0 <= n <= INT_MAX -> is_digit c = false ->
  read_int (mkIstream (ws ++ show_int n ++ c :: tl) false false) old
  = (Some n, mkIstream (c :: tl) false false).
Proof.
  intros Hws Hn Hc.
  destruct (show_int_nonneg n) as (d & ds & -> & Hall & Hval); [lia|].
  pose proof (Forall_inv Hall) as Hd. simpl in Hd.
  pose proof (is_digit_not_space d Hd) as Hsp.
  destruct (is_digit_not_sign d Hd) as (Hm & Hp & _).
  unfold read_int.
  change ((d :: ds) ++ c :: tl) with (d :: (ds ++ c :: tl)).
  rewrite sentry_skip by done. cbn [rest eofbit failbit].
  rewrite Hm, Hp.
  change (d :: ds ++ c :: tl) with ((d :: ds) ++ c :: tl).
  rewrite take_while_app, drop_while_app, drop_while_stop by done.
  cbn [is_nil orb]. rewrite Hval.
  destruct (Z.ltb_spec INT_MAX n); [lia|].
  destruct (Z.ltb_spec n INT_MIN); [unfold INT_MIN in *; lia|].
  done.
Qed.

Lemma not_digit_spc : is_digit spc = false.
Proof. done. Qed.

Lemma not_digit_nl : is_digit nl = false.
Proof. done. Qed.

Lemma ignore_loop_length (n : nat) (delim : ascii) (l : list ascii) :
  (length (ignore_loop n delim l).1 <= length l)%nat.
Proof.
  revert l. induction n as [|n IH]; intros l; [done|].
  destruct l as [|c l]; [done|]. simpl.
  destruct (Ascii.eqb c delim); simpl; [lia|].
  specialize (IH l). lia.
Qed.

Lemma drop_while_length (f : ascii -> bool) (l : list ascii) :
  (length (drop_while f l) <= length l)%nat.
Proof.
  induction l as [|c l IH]; [done|]. simpl. destruct (f c); simpl; lia.
Qed.

Lemma ignore_shrinks (n : nat) (delim c : ascii) (r : list ascii) :
  (length (rest (ignore (S n) delim (mkIstream (c :: r) false false)))
   <= length r)%nat.
Proof.
  unfold ignore, sentry. cbn [good eofbit failbit rest negb andb].
  change (ignore_loop (S n) delim (c :: r))
    with (if Ascii.eqb c delim then (r, false) else ignore_loop n delim r).
  pose proof (ignore_loop_length n delim r) as Hi.
  destruct (Ascii.eqb c delim); [done|].
  by destruct (ignore_loop n delim r) as [r' e].
Qed.

(** The loop of [ignoreComments] terminates: every iteration that goes
    on extracts at least the ['#'] it has just seen. *)
Lemma ignoreComments_loop_returns (fuel : nat) :
  forall s, (length (rest s) < fuel)%nat ->
    is_Some (ignoreComments_loop fuel s).
Proof.
  induction fuel as [|fuel IH]; intros s Hlen; [lia|].
  cbn [ignoreComments_loop]. unfold skip_ws, sentry.
  destruct (good s) eqn:Hg; cbn [failbit set_fail].
  2:{ by eexists. }
  cbn [rest eofbit failbit].
  assert (Hf : failbit s = false).
  { unfold good in Hg. by destruct (eofbit s), (failbit s). }
  assert (He : eofbit s = false).
  { unfold good in Hg. by destruct (eofbit s). }
  rewrite Hf, He. unfold peek, sentry, good. cbn [eofbit failbit rest].
  pose proof (drop_while_length is_space (rest s)) as Hdrop.
  destruct (drop_while is_space (rest s)) as [|c r] eqn:Hr.
  - cbn. by eexists.
  - cbn [is_nil orb negb andb rest].
    destruct (Ascii.eqb c "#"); [|by eexists].
    apply IH.
    pose proof (ignore_shrinks 4095 nl c r) as Hi.
    cbn [length] in Hdrop. lia.
Qed.

Lemma ignoreComments_returns (s : istream) : is_Some (ignoreComments s).
Proof. apply ignoreComments_loop_returns. lia. Qed.

(** Where no comment follows the white space, [ignoreComments] only
    skips the white space. *)
Lemma ignoreComments_no_comment (ws : list ascii) (c : ascii)
    (tl : list ascii) :
  all_space ws -> is_space c = false -> Ascii.eqb c "#" = false ->
  ignoreComments (mkIstream (ws ++ c :: tl) false false)
  = Some (mkIstream (c :: tl) false false).
Proof.
  intros Hws Hc Hh. unfold ignoreComments. cbn [ignoreComments_loop].
  unfold skip_ws, sentry. cbn [good eofbit failbit negb andb rest].
  rewrite drop_while_app, drop_while_stop by done.
  cbn [is_nil orb failbit]. unfold peek, sentry.
  cbn [good eofbit failbit negb andb rest]. by rewrite Hh.
Qed.

(** *** What [savePPM] writes *)

Lemma foldl_app_concat {A} (f : A -> list ascii) (l : list A)
    (acc : list ascii) :
  foldl (fun out a => out ++ f a) acc l = acc ++ concat (f <$> l).
Proof.
  revert acc. induction l as [|a l IH]; intros acc; simpl.
  - by rewrite app_nil_r.
  - by rewrite IH, app_assoc.
Qed.

Lemma savePPM_text (h : gmap positive Image) (l : positive) (img : Image) :
  h !! l = Some img -> wf_image img ->
  savePPM l h = Some (ppm_text img, h).
Proof.
  intros Hl Hwf. unfold savePPM.
  erewrite bind_eq by (by apply p_getWidth_ok).
  erewrite bind_eq by (by apply p_getHeight_ok).
  unfold getWidth, getHeight.
  rewrite (forM_read _ _
             (fun out y => out ++ row_text (px img) (seqZ 0 (width img)) y
                               ++ [nl])).
  - f_equal. f_equal. unfold ppm_text, rows_text, ppm_header.
    rewrite foldl_app_concat. by rewrite <- !app_assoc.
  - intros y out.
    erewrite bind_eq.
    2:{ apply (forM_read _ _ (fun out x => out ++ pix_text (px img x y))).
        intros x out'. unfold bind, ret.
        by rewrite (p_getPixel_ok _ l img) by done. }
    unfold ret. rewrite foldl_app_concat. unfold row_text.
    by rewrite <- app_assoc.
Qed.

(** *** Reading a P3 text *)

Lemma ppm_header_255 (w h : Z) : ppm_header w h = header_text w h 255.
Proof. reflexivity. Qed.

Lemma pixel_ok_int (p : Pixel) : pixel_ok p -> int_pixel p.
Proof. unfold pixel_ok, byte_ok, int_pixel, INT_MAX. lia. Qed.

Lemma cast_pixel_ok (p : Pixel) : pixel_ok p -> cast_pixel p = p.
Proof.
  intros (Hr & Hg & Hb). unfold cast_pixel, byte_ok in *.
  rewrite !Z.mod_small by lia. by destruct p.
Qed.

Lemma all_space_spc : all_space [spc].
Proof. by repeat constructor. Qed.

Lemma all_space_nl : all_space [nl].
Proof. by repeat constructor. Qed.

Lemma load_pixel_text (h0 : gmap positive Image) (img : positive)
    (x y : Z) (d : Image) (ws : list ascii) (p : Pixel) (tl : list ascii)
    (r0 g0 b0 : option Z) :
  all_space ws -> int_pixel p -> wf_image d ->
  load_pixel img x y
    (mkIstream (ws ++ pix_text p ++ tl) false false, r0, g0, b0)
    (<[img := d]> h0)
  = Some ((mkIstream (spc :: tl) false false,
           Some (r p), Some (g p), Some (b p)),
          <[img := upd d x y (cast_pixel p)]> h0).
Proof.
  intros Hws (Hr & Hg & Hb) Hd. unfold load_pixel, pix_text.
  rewrite <- !app_assoc. cbn [app].
  rewrite read_int_text by (done || apply not_digit_spc).
  change (spc :: show_int (g p) ++ ?t) with ([spc] ++ show_int (g p) ++ t).
  rewrite read_int_text by (apply all_space_spc || done || apply not_digit_spc).
  change (spc :: show_int (b p) ++ ?t) with ([spc] ++ show_int (b p) ++ t).
  rewrite read_int_text by (apply all_space_spc || done || apply not_digit_spc).
  unfold bind, lift. by rewrite write_dest.
Qed.

Lemma load_row (h0 : gmap positive Image) (img : positive) (y : Z)
    (P : Z -> Z -> Pixel) (tl : list ascii) (xs : list Z) :
  forall (ws : list ascii) (d : Image) (v0 : option Z * option Z * option Z),
    all_space ws -> (forall x, x ∈ xs -> int_pixel (P x y)) -> wf_image d ->
    exists ws',
      all_space ws' /\
      forM xs (fun x st => load_pixel img x y st)
        (mkIstream (ws ++ row_text P xs y ++ tl) false false,
         v0.1.1, v0.1.2, v0.2)
        (<[img := d]> h0)
      = Some ((mkIstream (ws' ++ tl) false false,
               (vars_after (row_pixels P xs y) v0).1.1,
               (vars_after (row_pixels P xs y) v0).1.2,
               (vars_after (row_pixels P xs y) v0).2),
              <[img := fill_row xs (fun x y => cast_pixel (P x y)) d y]> h0).
Proof.
  induction xs as [|x xs IH]; intros ws d v0 Hws HP Hd.
  { exists ws. by split. }
  unfold row_text. cbn [fmap list_fmap concat forM].
  rewrite <- (app_assoc (pix_text (P x y))).
  erewrite bind_eq.
  2:{ apply load_pixel_text; [done| |done]. apply HP, elem_of_cons. by left. }
  destruct (IH [spc] (upd d x y (cast_pixel (P x y)))
              (Some (r (P x y)), Some (g (P x y)), Some (b (P x y))))
    as (ws' & Hws' & E).
  { apply all_space_spc. }
  { intros x' Hx'. apply HP, elem_of_cons. by right. }
  { by apply wf_upd. }
  exists ws'. split; [done|]. exact E.
Qed.

Lemma vars_after_app (l1 l2 : list Pixel)
    (v0 : option Z * option Z * option Z) :
  vars_after (l1 ++ l2) v0 = vars_after l2 (vars_after l1 v0).
Proof. unfold vars_after. by rewrite foldl_app. Qed.

Lemma load_rows (h0 : gmap positive Image) (img : positive)
    (P : Z -> Z -> Pixel) (tl : list ascii) (xs ys : list Z) :
  forall (ws : list ascii) (d : Image) (v0 : option Z * option Z * option Z),
    all_space ws ->
    (forall x y, x ∈ xs -> y ∈ ys -> int_pixel (P x y)) -> wf_image d ->
    exists ws',
      all_space ws' /\
      forM ys (fun y st => forM xs (fun x st => load_pixel img x y st) st)
        (mkIstream (ws ++ rows_text P ys xs ++ tl) false false,
         v0.1.1, v0.1.2, v0.2)
        (<[img := d]> h0)
      = Some ((mkIstream (ws' ++ tl) false false,
               (vars_after (rows_pixels P ys xs) v0).1.1,
               (vars_after (rows_pixels P ys xs) v0).1.2,
               (vars_after (rows_pixels P ys xs) v0).2),
              <[img := fill ys xs (fun x y => cast_pixel (P x y)) d]> h0).
Proof.
  induction ys as [|y ys IH]; intros ws d v0 Hws HP Hd.
  { exists ws. by split. }
  unfold rows_text, rows_pixels. cbn [fmap list_fmap concat forM].
  rewrite <- !app_assoc.
  destruct (load_row h0 img y P
              ([nl] ++ concat ((fun y => row_text P xs y ++ [nl]) <$> ys) ++ tl)
              xs ws d v0)
    as (ws1 & Hws1 & E1); [done| |done|].
  { intros x Hx. apply HP; [done|]. apply elem_of_cons. by left. }
  erewrite bind_eq by exact E1.
  destruct (fill_row_shape (fun x y => cast_pixel (P x y)) xs y d Hd)
    as (Hwf1 & _ & _).
  destruct (IH (ws1 ++ [nl])
              (fill_row xs (fun x y => cast_pixel (P x y)) d y)
              (vars_after (row_pixels P xs y) v0))
    as (ws' & Hws' & E2).
  { apply Forall_app. split; [done|by repeat constructor]. }
  { intros x y' Hx Hy'. apply HP; [done|]. apply elem_of_cons. by right. }
  { done. }
  exists ws'. split; [done|].
  unfold rows_text, rows_pixels in E2. rewrite <- app_assoc in E2.
  rewrite vars_after_app. exact E2.
Qed.

Lemma ignoreComments_digits (ws : list ascii) (n : Z) (tl : list ascii) :
  all_space ws -> 0 <= n ->
  ignoreComments (mkIstream (ws ++ show_int n ++ tl) false false)
  = Some (mkIstream (show_int n ++ tl) false false).
Proof.
  intros Hws Hn.
  destruct (show_int_nonneg n Hn) as (d & ds & -> & Hall & _).
  pose proof (Forall_inv Hall) as Hd. simpl in Hd.
  destruct (is_digit_not_sign d Hd) as (_ & _ & Hh).
  apply (ignoreComments_no_comment ws d (ds ++ tl)); [done| |done].
  by apply is_digit_not_space.
Qed.

Lemma read_string_P3 (tl : list ascii) :
  read_string (mkIstream ("P" :: "3" :: nl :: tl)%char false false) []
  = (["P"; "3"]%char, mkIstream (nl :: tl) false false).
Proof. reflexivity. Qed.

(** One header field: [ignoreComments(file); file >> n]. *)
Lemma read_header_field (c : ascii) (n : Z) (c' : ascii) (tl : list ascii) :
  is_space c = true -> 0 <= n <= INT_MAX -> is_digit c' = false ->
  exists s,
    ignoreComments (mkIstream (c :: show_int n ++ c' :: tl) false false)
    = Some s /\
    read_int s None = (Some n, mkIstream (c' :: tl) false false).
Proof.
  intros Hc Hn Hc'.
  exists (mkIstream (show_int n ++ c' :: tl) false false). split.
  - apply (ignoreComments_digits [c] n (c' :: tl)); [|lia].
    by repeat constructor.
  - apply (read_int_text [] n c' tl None); [by constructor|done|done].
Qed.

(** [loadPPM] on a file that starts with a P3 header: what is left is
    the allocation and the pixel loops, on the stream positioned after
    the header.  The maximum value is read and dropped. *)
Lemma loadPPM_header (w H m : Z) (body : list ascii) (junk : nat -> Pixel)
    (h : gmap positive Image) :
  0 <= w <= INT_MAX -> 0 <= H <= INT_MAX -> 0 <= m <= INT_MAX ->
  loadPPM (Some (header_text w H m ++ body)) junk h
  = (img0 <- lift (Image_new w H junk) ;;
     img <- alloc img0 ;;
     forM (seqZ 0 H) (fun y st =>
       forM (seqZ 0 w) (fun x st => load_pixel img x y st) st)
       (mkIstream (nl :: body) false false, None, None, None) ;;;
     ret (Some img)) h.
Proof.
  intros Hw HH Hm.
  assert (E : header_text w H m ++ body
              = ("P" :: "3" :: nl :: show_int w ++ spc :: show_int H ++ nl
                 :: show_int m ++ nl :: body)%char).
  { unfold header_text. by rewrite <- !app_assoc. }
  rewrite E. unfold loadPPM, ifstream_open. cbn [failbit].
  rewrite read_string_P3.
  rewrite bool_decide_eq_true_2 by done. cbn [negb].
  destruct (read_header_field nl w spc
              (show_int H ++ nl :: show_int m ++ nl :: body))
    as (sw & Ew1 & Ew2); [done|lia|done|].
  erewrite bind_eq by (unfold lift; by rewrite Ew1). rewrite Ew2.
  destruct (read_header_field spc H nl (show_int m ++ nl :: body))
    as (sh & Eh1 & Eh2); [done|lia|done|].
  erewrite bind_eq by (unfold lift; by rewrite Eh1). rewrite Eh2.
  destruct (read_header_field nl m nl body)
    as (sm & Em1 & Em2); [done|done|done|].
  erewrite bind_eq by (unfold lift; by rewrite Em1). rewrite Em2.
  erewrite bind_eq by reflexivity.
  erewrite bind_eq by reflexivity.
  reflexivity.
Qed.

(** X23.  [loadPPM] stores every channel number of the file modulo 256
    and never consults the maximum value: for a P3 text with any
    maximum value [m] whose pixel numbers are non-negative [int]s, the
    loaded image has the dimensions of the header and holds at every
    coordinate the three numbers reduced modulo 256. *)
Theorem loadPPM_wraps_and_ignores_maxval
    (w H m : Z) (P : Z -> Z -> Pixel) (junk : nat -> Pixel)
    (h : gmap positive Image) :
  0 < w <= INT_MAX -> 0 < H <= INT_MAX -> w * H <= INT_MAX ->
  0 <= m <= INT_MAX ->
  (forall x y, 0 <= x < w -> 0 <= y < H -> int_pixel (P x y)) ->
  exists l' res,
    h !! l' = None /\
    loadPPM (Some (header_text w H m ++ rows_text P (seqZ 0 H) (seqZ 0 w)))
      junk h
    = Some (Some l', <[l' := res]> h) /\
    wf_image res /\ width res = w /\ height res = H /\
    forall x y, 0 <= x < w -> 0 <= y < H ->
      getPixel res x y = Some (cast_pixel (P x y)).
Proof.
  intros Hw HH _ Hm HP.
  destruct (Image_new_ok w H junk) as (B & EB & HB & HwB & HhB); [lia|lia|].
  set (F := fun x y => cast_pixel (P x y)).
  destruct (fill_shape F (seqZ 0 H) (seqZ 0 w) B HB) as (Hwf' & Hw' & Hh').
  exists (fresh (dom h)), (fill (seqZ 0 H) (seqZ 0 w) F B).
  split; [apply fresh_unused|]. split.
  - rewrite loadPPM_header by lia.
    erewrite bind_eq by (unfold lift; by rewrite EB).
    erewrite bind_eq by reflexivity.
    destruct (load_rows h (fresh (dom h)) P [] (seqZ 0 w) (seqZ 0 H) [nl] B
                (None, None, None))
      as (ws' & _ & E).
    { apply all_space_nl. }
    { intros x y Hx%elem_of_seqZ Hy%elem_of_seqZ. apply HP; lia. }
    { done. }
    rewrite app_nil_r in E. cbn [app fst snd] in E.
    by erewrite bind_eq by exact E.
  - split; [done|]. split; [congruence|]. split; [congruence|].
    intros x y Hx Hy. rewrite getPixel_px by done. f_equal.
    apply (px_fill_written F); try done; try lia; apply elem_of_seqZ; lia.
Qed.

(** The image [fill] builds from the pixels of [img] is [img]. *)
Lemma fill_all (F : Z -> Z -> Pixel) (img d : Image) :
  wf_image img -> wf_image d ->
  width d = width img -> height d = height img ->
  (forall x y, 0 <= x < width img -> 0 <= y < height img ->
     F x y = px img x y) ->
  fill (seqZ 0 (height img)) (seqZ 0 (width img)) F d = img.
Proof.
  intros Hwf Hd Hw Hh HF.
  destruct (fill_shape F (seqZ 0 (height img)) (seqZ 0 (width img))
              d Hd) as (Hwf' & Hw' & Hh').
  apply image_ext; [done|done|congruence|congruence|].
  rewrite Hw', Hh', Hw, Hh. intros x y Hx Hy.
  rewrite px_fill_written; try done; try lia; try (apply elem_of_seqZ; lia).
  by apply HF.
Qed.

(** X19.  [loadPPM] reads back what [savePPM] writes: for a well-formed
    image whose channels are bytes, [savePPM] returns normally without
    changing the heap, and [loadPPM] on the text it wrote allocates one
    new image, equal by value to the one saved. *)
Theorem ppm_round_trip (h : gmap positive Image) (l : positive) (img : Image)
    (junk : nat -> Pixel) :
  h !! l = Some img -> wf_image img -> valid_image img ->
  width img * height img <= INT_MAX ->
  exists text l',
    savePPM l h = Some (text, h) /\
    h !! l' = None /\
    loadPPM (Some text) junk h = Some (Some l', <[l' := img]> h).
Proof.
  intros Hl Hwf Hv HM. pose proof Hwf as (Hw & Hh & _).
  assert (HwM : width img <= INT_MAX) by nia.
  assert (HhM : height img <= INT_MAX) by nia.
  exists (ppm_text img), (fresh (dom h)).
  split; [by apply savePPM_text|]. split; [apply fresh_unused|].
  unfold ppm_text. rewrite ppm_header_255, loadPPM_header by (done || lia).
  destruct (Image_new_ok (width img) (height img) junk Hw Hh)
    as (B & EB & HB & HwB & HhB).
  erewrite bind_eq by (unfold lift; by rewrite EB).
  erewrite bind_eq by reflexivity.
  destruct (load_rows h (fresh (dom h)) (px img) []
              (seqZ 0 (width img)) (seqZ 0 (height img)) [nl] B
              (None, None, None))
    as (ws' & _ & E).
  { apply all_space_nl. }
  { intros x y _ _. by apply pixel_ok_int, px_valid. }
  { done. }
  rewrite app_nil_r in E. cbn [app fst snd] in E.
  erewrite bind_eq by exact E.
  unfold ret. rewrite fill_all; try done.
  intros x y _ _. by apply cast_pixel_ok, px_valid.
Qed.

(** *** Truncated pixel data *)

Lemma drop_while_all (f : ascii -> bool) (l : list ascii) :
  Forall (fun c => f c = true) l -> drop_while f l = [].
Proof. induction 1 as [|c l Hc _ IH]; [done|]. simpl. by rewrite Hc. Qed.

Lemma read_int_dry (s : istream) (old : option Z) :
  dry s -> exists s', read_int s old = (old, s') /\ failbit s' = true.
Proof.
  intros [[Hg Hws]|Hf]; unfold read_int, sentry.
  - rewrite Hg, drop_while_all by done. by eexists.
  - assert (Hg : good s = false).
    { unfold good. rewrite Hf. by destruct (eofbit s). }
    rewrite Hg. by eexists.
Qed.

Lemma load_pixel_dry (h0 : gmap positive Image) (img : positive) (x y : Z)
    (d : Image) (s : istream) (p : Pixel) :
  dry s -> wf_image d ->
  exists s',
    failbit s' = true /\
    load_pixel img x y (s, Some (r p), Some (g p), Some (b p))
      (<[img := d]> h0)
    = Some ((s', Some (r p), Some (g p), Some (b p)),
            <[img := upd d x y (cast_pixel p)]> h0).
Proof.
  intros Hs Hd.
  destruct (read_int_dry s (Some (r p)) Hs) as (s1 & E1 & F1).
  destruct (read_int_dry s1 (Some (g p)) (or_intror F1)) as (s2 & E2 & F2).
  destruct (read_int_dry s2 (Some (b p)) (or_intror F2)) as (s3 & E3 & F3).
  exists s3. split; [done|].
  unfold load_pixel. rewrite E1, E2, E3.
  unfold bind, lift. by rewrite write_dest.
Qed.

Lemma load_rows_dry (h0 : gmap positive Image) (img : positive)
    (p : Pixel) (xs ys : list Z) :
  forall (s : istream) (d : Image),
    dry s -> wf_image d ->
    exists s',
      dry s' /\
      forM ys (fun y st => forM xs (fun x st => load_pixel img x y st) st)
        (s, Some (r p), Some (g p), Some (b p)) (<[img := d]> h0)
      = Some ((s', Some (r p), Some (g p), Some (b p)),
              <[img := fill ys xs (fun _ _ => cast_pixel p) d]> h0).
Proof.
  set (F := fun _ _ : Z => cast_pixel p).
  assert (Hrow : forall y xs s d, dry s -> wf_image d ->
            exists s', dry s' /\
              forM xs (fun x st => load_pixel img x y st)
                (s, Some (r p), Some (g p), Some (b p)) (<[img := d]> h0)
              = Some ((s', Some (r p), Some (g p), Some (b p)),
                      <[img := fill_row xs F d y]> h0)).
  { intros y. induction xs0 as [|x xs0 IH]; intros s d Hs Hd.
    - by exists s.
    - destruct (load_pixel_dry h0 img x y d s p Hs Hd) as (s1 & F1 & E1).
      destruct (IH s1 (upd d x y (F x y))) as (s' & Hs' & E');
        [by right|by apply wf_upd|].
      exists s'. split; [done|]. cbn [forM].
      erewrite bind_eq by exact E1. exact E'. }
  induction ys as [|y ys IH]; intros s d Hs Hd.
  - by exists s.
  - destruct (Hrow y xs s d Hs Hd) as (s1 & Hs1 & E1).
    destruct (fill_row_shape F xs y d Hd) as (Hwf1 & _ & _).
    destruct (IH s1 (fill_row xs F d y) Hs1 Hwf1) as (s' & Hs' & E').
    exists s'. split; [done|]. cbn [forM].
    erewrite bind_eq by exact E1. exact E'.
Qed.

Lemma forM_app {A S} (l1 l2 : list A) (body : A -> S -> M S) (s : S)
    (h : gmap positive Image) :
  forM (l1 ++ l2) body s h
  = match forM l1 body s h with
    | Some (s', h') => forM l2 body s' h'
    | None => None
    end.
Proof.
  revert s h. induction l1 as [|a l1 IH]; intros s h; [done|].
  cbn [app forM]. unfold bind at 1.
  destruct (body a s h) as [[s1 h1]|] eqn:E.
  - rewrite IH. unfold bind. by rewrite E.
  - unfold bind. by rewrite E.
Qed.

Lemma seqZ_snoc (n : Z) : 0 < n -> seqZ 0 n = seqZ 0 (n - 1) ++ [n - 1].
Proof.
  intros Hn. replace n with ((n - 1) + 1) at 1 by lia.
  rewrite seqZ_app by lia. f_equal.
Qed.

Lemma vars_after_last (P : Z -> Z -> Pixel) (w k : Z)
    (v0 : option Z * option Z * option Z) :
  0 < w -> 0 < k ->
  vars_after (rows_pixels P (seqZ 0 k) (seqZ 0 w)) v0
  = (Some (r (P (w - 1) (k - 1))), Some (g (P (w - 1) (k - 1))),
     Some (b (P (w - 1) (k - 1)))).
Proof.
  intros Hw Hk. unfold rows_pixels, row_pixels.
  rewrite (seqZ_snoc k Hk), fmap_app, concat_app. cbn [fmap list_fmap concat].
  rewrite (seqZ_snoc w Hw), fmap_app, app_nil_r. cbn [fmap list_fmap].
  by rewrite app_assoc, vars_after_app.
Qed.

(** X22.  [loadPPM] does not notice missing pixel data.  When the text
    holds the header of a [width] x [H] image but the pixel rows of a
    [width] x [height] image with [height <= H] and then ends, the call
    returns an image of the announced dimensions: its first [height]
    rows are the rows of the text, and every pixel of the rows that are
    missing repeats the last pixel read. *)
Theorem loadPPM_repeats_last_pixel_when_truncated
    (h : gmap positive Image) (img : Image) (H : Z) (junk : nat -> Pixel) :
  wf_image img -> valid_image img ->
  width img <= INT_MAX -> height img <= H <= INT_MAX ->
  width img * H <= INT_MAX ->
  exists l' res,
    h !! l' = None /\
    loadPPM (Some (ppm_header (width img) H
                   ++ rows_text (px img) (seqZ 0 (height img))
                        (seqZ 0 (width img)))) junk h
    = Some (Some l', <[l' := res]> h) /\
    wf_image res /\ width res = width img /\ height res = H /\
    (forall x y, 0 <= x < width img -> 0 <= y < height img ->
       getPixel res x y = getPixel img x y) /\
    (forall x y, 0 <= x < width img -> height img <= y < H ->
       getPixel res x y = getPixel img (width img - 1) (height img - 1)).
Proof.
  intros Hwf Hv HwM HHM _. pose proof Hwf as (Hw & Hh & _).
  set (w := width img) in *. set (k := height img) in *.
  set (l' := fresh (dom h)).
  destruct (Image_new_ok w H junk) as (B & EB & HB & HwB & HhB); [lia|lia|].
  set (plast := px img (w - 1) (k - 1)).
  set (F1 := fun x y => cast_pixel (px img x y)).
  set (F := fun _ _ : Z => cast_pixel plast).
  set (d1 := fill (seqZ 0 k) (seqZ 0 w) F1 B).
  set (res := fill (seqZ k (H - k)) (seqZ 0 w) F d1).
  destruct (fill_shape F1 (seqZ 0 k) (seqZ 0 w) B HB)
    as (Hwf1 & Hw1 & Hh1). fold d1 in Hwf1, Hw1, Hh1.
  destruct (fill_shape F (seqZ k (H - k)) (seqZ 0 w) d1 Hwf1)
    as (Hwf2 & Hw2 & Hh2). fold res in Hwf2, Hw2, Hh2.
  exists l', res. split; [apply fresh_unused|]. split.
  - rewrite ppm_header_255, loadPPM_header by (done || lia).
    erewrite bind_eq by (unfold lift; by rewrite EB).
    erewrite bind_eq by reflexivity. fold l'.
    replace H with (k + (H - k)) at 1 by lia.
    rewrite seqZ_app by lia. rewrite Z.add_0_l.
    unfold bind at 1. rewrite forM_app.
    destruct (load_rows h l' (px img) [] (seqZ 0 w) (seqZ 0 k) [nl] B
                (None, None, None))
      as (ws' & Hws' & E).
    { apply all_space_nl. }
    { intros x y _ _. by apply pixel_ok_int, px_valid. }
    { done. }
    rewrite app_nil_r in E. cbn [app fst snd] in E. rewrite E.
    rewrite vars_after_last by done. cbn [fst snd].
    destruct (load_rows_dry h l' plast (seqZ 0 w) (seqZ k (H - k))
                (mkIstream (ws' ++ []) false false) d1)
      as (s' & _ & E2).
    { left. split; [done|]. cbn [rest]. by rewrite app_nil_r. }
    { done. }
    unfold d1, F1, plast in E2. by rewrite E2.
  - split; [done|]. split; [congruence|]. split; [congruence|]. split.
    + intros x y Hx Hy. rewrite !getPixel_px by done. f_equal.
      unfold res. rewrite px_fill_other; [|done|rewrite !elem_of_seqZ; lia].
      unfold d1. rewrite (px_fill_written F1); try done; try lia;
        try (apply elem_of_seqZ; lia).
      by apply cast_pixel_ok, px_valid.
    + intros x y Hx Hy. rewrite !getPixel_px by done. f_equal.
      unfold res. rewrite (px_fill_written F); try done; try lia;
        try (apply elem_of_seqZ; lia).
      by apply cast_pixel_ok, px_valid.
Qed.

(** *** Files [loadPPM] refuses *)

(** X20.  [loadPPM] returns [nullptr] and allocates nothing when the
    file cannot be opened or when its first white-space delimited token
    is not [P3]. *)
Theorem loadPPM_rejects_other_formats
    (file : option (list ascii)) (junk : nat -> Pixel)
    (h : gmap positive Image) :
  file = None \/
  (exists text, file = Some text /\ first_token text <> ["P"; "3"]%char) ->
  loadPPM file junk h = Some (None, h).
Proof.
  intros [->|(text & -> & Htok)]; [done|].
  unfold loadPPM, ifstream_open. cbn [failbit].
  unfold read_string, sentry. cbn [good eofbit failbit negb andb rest].
  unfold first_token in Htok.
  destruct (drop_while is_space text) as [|c r] eqn:Hr; [done|].
  cbn [rest]. by rewrite bool_decide_eq_false_2.
Qed.

Lemma loadPPM_rejects_other_formats_witness :
  loadPPM (Some ["P"; "6"; " "; "1"; " "; "1"; " "; "2"; "5"; "5"]%char)
    (fun _ => mkPixel 7 7 7) ∅ = Some (None, ∅).
Proof.
  apply (loadPPM_rejects_other_formats
           (Some ["P"; "6"; " "; "1"; " "; "1"; " "; "2"; "5"; "5"]%char)).
  right. eexists. split; [reflexivity|]. by vm_compute.
Defined.

(** *** Comment lines *)

Lemma ignore_loop_line (l tl : list ascii) :
  forall n, Forall (fun c => c <> nl) l -> (length l < n)%nat ->
    ignore_loop n nl (l ++ nl :: tl) = (tl, false).
Proof.
  induction l as [|c l IH]; intros n Hl Hn.
  - destruct n; [simpl in Hn; lia|]. done.
  - destruct n; [simpl in Hn; lia|].
    apply Forall_cons in Hl as [Hc Hl].
    cbn [app ignore_loop].
    destruct (Ascii.eqb_spec c nl); [done|].
    apply IH; [done|]. simpl in Hn. lia.
Qed.

Lemma ignoreComments_loop_skips (cs : list (list ascii * list ascii))
    (ws : list ascii) (c : ascii) (tl : list ascii) :
  Forall short_comment cs ->
  all_space ws -> is_space c = false -> Ascii.eqb c "#" = false ->
  forall fuel, (length cs < fuel)%nat ->
    ignoreComments_loop fuel
      (mkIstream (concat (comment_line <$> cs) ++ ws ++ c :: tl) false false)
    = Some (mkIstream (c :: tl) false false).
Proof.
  intros Hcs Hws Hc Hh.
  induction Hcs as [|[w cm] cs (Hw & Hcm & Hlen) _ IH]; intros fuel Hf.
  - destruct fuel; [simpl in Hf; lia|].
    cbn [fmap list_fmap concat app ignoreComments_loop].
    unfold skip_ws, sentry. cbn [good eofbit failbit negb andb rest].
    rewrite drop_while_app, drop_while_stop by done.
    cbn [is_nil orb failbit]. unfold peek, sentry.
    cbn [good eofbit failbit negb andb rest]. by rewrite Hh.
  - destruct fuel; [simpl in Hf; lia|].
    cbn [fmap list_fmap concat]. unfold comment_line at 1. cbn [fst snd].
    rewrite <- !app_assoc. cbn [app ignoreComments_loop].
    unfold skip_ws, sentry. cbn [good eofbit failbit negb andb rest].
    rewrite drop_while_app, drop_while_stop by done.
    cbn [is_nil orb failbit]. unfold peek, sentry.
    cbn [good eofbit failbit negb andb rest].
    change (Ascii.eqb "#" "#") with true. cbv iota.
    unfold ignore, sentry. cbn [good eofbit failbit negb andb rest].
    rewrite <- (app_assoc cm [nl]). cbn [app].
    pose proof (ignore_loop_line ("#"%char :: cm)
                  (concat (comment_line <$> cs) ++ ws ++ c :: tl) 4096) as E.
    cbn [app] in E. rewrite E.
    + cbn [orb]. apply IH. simpl in Hf. lia.
    + by constructor.
    + simpl. simpl in Hlen. lia.
Qed.

(** X21.  [ignoreComments] skips white space and any number of comment
    lines, each a ['#'] followed by fewer than 4095 characters and a
    newline, and stops in front of the first character that is neither
    white space nor ['#'], leaving the stream good. *)
Theorem ignoreComments_skips_comment_lines
    (cs : list (list ascii * list ascii)) (ws : list ascii) (c : ascii)
    (tl : list ascii) :
  Forall short_comment cs ->
  all_space ws -> is_space c = false -> c <> "#"%char ->
  ignoreComments
    (mkIstream (concat (comment_line <$> cs) ++ ws ++ c :: tl) false false)
  = Some (mkIstream (c :: tl) false false).
Proof.
  intros Hcs Hws Hc Hh. unfold ignoreComments.
  apply ignoreComments_loop_skips; try done.
  - by destruct (Ascii.eqb_spec c "#").
  - cbn [rest]. rewrite length_app.
    assert (Hlen : (length cs <= length (concat (comment_line <$> cs)))%nat).
    { clear. induction cs as [|[w cm] cs IH]; [done|].
      cbn [fmap list_fmap concat]. rewrite length_app.
      unfold comment_line at 1. cbn [fst snd].
      rewrite length_app. simpl. simpl in IH. lia. }
    lia.
Qed.


Lemma ignoreComments_skips_comment_lines_witness :
  ignoreComments
    (mkIstream (concat (comment_line <$> [([nl], ["h"; "i"]%char)])
                ++ [spc] ++ "7"%char :: [nl]) false false)
  = Some (mkIstream ("7"%char :: [nl]) false false).
Proof.
  apply (ignoreComments_skips_comment_lines [([nl], ["h"; "i"]%char)]
           [spc] "7"%char [nl]).
  - repeat constructor; simpl; (done || lia).
  - by repeat constructor.
  - done.
  - done.
Defined.

Lemma ppm_round_trip_witness :
  exists text l',
    savePPM 1%positive {[1%positive := step3]}
    = Some (text, {[1%positive := step3]}) /\
    ({[1%positive := step3]} : gmap positive Image) !! l' = None /\
    loadPPM (Some text) (fun _ => mkPixel 7 7 7) {[1%positive := step3]}
    = Some (Some l', <[l' := step3]> {[1%positive := step3]}).
Proof.
  apply (ppm_round_trip {[1%positive := step3]} 1%positive step3).
  - done.
  - apply step3_wf.
  - apply step3_valid.
  - done.
Defined.

Lemma loadPPM_repeats_last_pixel_when_truncated_witness :
  exists l' res,
    (∅ : gmap positive Image) !! l' = None /\
    loadPPM (Some (ppm_header 1 2
                   ++ rows_text (px (mkImage 1 1 [mkPixel 1 2 3]))
                        (seqZ 0 1) (seqZ 0 1)))
      (fun _ => mkPixel 7 7 7) ∅
    = Some (Some l', <[l' := res]> ∅) /\
    wf_image res /\ width res = 1 /\ height res = 2 /\
    (forall x y, 0 <= x < 1 -> 0 <= y < 1 ->
       getPixel res x y = getPixel (mkImage 1 1 [mkPixel 1 2 3]) x y) /\
    (forall x y, 0 <= x < 1 -> 1 <= y < 2 ->
       getPixel res x y
       = getPixel (mkImage 1 1 [mkPixel 1 2 3]) (1 - 1) (1 - 1)).
Proof.
  apply (loadPPM_repeats_last_pixel_when_truncated ∅
           (mkImage 1 1 [mkPixel 1 2 3]) 2 (fun _ => mkPixel 7 7 7)).
  - unfold wf_image. simpl. lia.
  - unfold valid_image, pixel_ok, byte_ok. simpl.
    repeat constructor; simpl; lia.
  - done.
  - simpl. done.
  - done.
Defined.

Lemma loadPPM_wraps_and_ignores_maxval_witness :
  exists l' res,
    (∅ : gmap positive Image) !! l' = None /\
    loadPPM (Some (header_text 1 1 65535
                   ++ rows_text (fun _ _ => mkPixel 261 300 65535)
                        (seqZ 0 1) (seqZ 0 1)))
      (fun _ => mkPixel 7 7 7) ∅
    = Some (Some l', <[l' := res]> ∅) /\
    wf_image res /\ width res = 1 /\ height res = 1 /\
    forall x y, 0 <= x < 1 -> 0 <= y < 1 ->
      getPixel res x y = Some (cast_pixel (mkPixel 261 300 65535)).
Proof.
  apply (loadPPM_wraps_and_ignores_maxval 1 1 65535
           (fun _ _ => mkPixel 261 300 65535) (fun _ => mkPixel 7 7 7) ∅).
  - done.
  - done.
  - done.
  - done.
  - intros x y _ _. unfold int_pixel, INT_MAX. simpl. lia.
Defined.

(** * Debug frames and [main] *)

(** ** The frames [execute] writes *)

Lemma frames_of_length (fs : list Filter) :
  forall step bufs, length (frames_of step fs bufs) = length fs.
Proof.
  induction fs as [|f fs IH]; intros step bufs; simpl; [done|].
  by rewrite IH.
Qed.

Lemma frames_of_lookup (fs : list Filter) :
  forall (k : nat) step bufs, (k < length fs)%nat ->
    frames_of step fs bufs !! k
    = Some (debug_name (step + Z.of_nat k),
            ppm_text (fst (ping_pong (take (S k) fs) bufs))).
Proof.
  induction fs as [|f fs IH]; intros k step [a c] Hk; simpl in Hk; [lia|].
  destruct k as [|k].
  - simpl. by rewrite Z.add_0_r.
  - cbn [frames_of lookup list_lookup]. rewrite IH by lia.
    f_equal. f_equal. f_equal. lia.
Qed.

(** The stage loop with its frames: the buffers and the heap are those
    of the loop without the frames ([stage_loop]), and the files are
    [frames_of]. *)
Lemma stage_loop_frames (fs : list Filter) :
  forall (h : heap) (wb bb : loc) (a c : Image) (step : Z)
         (files : file_log),
    wb <> bb -> h !! wb = Some a -> h !! bb = Some c ->
    wf_image a -> wf_image c ->
    exists wb' bb' h',
      forM fs (fun filter '(wb, back) =>
                 Filter_apply filter wb back ;;; ret (back, wb)) (wb, bb) h
      = Some ((wb', bb'), h') /\
      forM fs (fun filter '(wb, back, step, files) =>
          Filter_apply filter wb back ;;;
          let '(wb, back) := (back, wb) in
          text <- savePPM wb ;;
          ret (wb, back, step + 1, files ++ [(debug_name step, text)]))
        (wb, bb, step, files) h
      = Some ((wb', bb', step + Z.of_nat (length fs),
               files ++ frames_of step fs (a, c)), h').
Proof.
  induction fs as [|f fs IH]; intros h wb bb a c step files Hne Hwb Hbb Ha Hc.
  { exists wb, bb, h. simpl. unfold ret.
    by rewrite Z.add_0_r, app_nil_r. }
  destruct (stage_output_shape f a c Hc) as (Hwf & _ & _).
  set (h1 := <[bb := stage_output f a c]> h).
  destruct (IH h1 bb wb (stage_output f a c) a (step + 1)
              (files ++ [(debug_name step, ppm_text (stage_output f a c))]))
    as (wb' & bb' & h' & E1 & E2); try done.
  { apply lookup_insert_eq. }
  { unfold h1. by rewrite lookup_insert_ne. }
  exists wb', bb', h'. split.
  - cbn [forM].
    erewrite bind_eq
      by (erewrite bind_eq by (by apply (Filter_apply_eq f h wb bb a c)); done).
    exact E1.
  - cbn [forM].
    erewrite bind_eq.
    2:{ erewrite bind_eq by (by apply (Filter_apply_eq f h wb bb a c)).
        erewrite bind_eq
          by (apply (savePPM_text h1 bb (stage_output f a c));
              [apply lookup_insert_eq | done]).
        done. }
    etrans; [exact E2|]. cbn [frames_of fst snd length].
    rewrite <- app_assoc. cbn [app].
    do 4 f_equal. lia.
Qed.

Lemma execute_frames_ok (P : Pipeline) (junk : nat -> Pixel) (h : heap)
    (W : Image) :
  h !! workingBuffer P = Some W -> wf_image W ->
  exists B P' h',
    Image_new (width W) (height W) junk = Some B /\
    execute P junk h = Some (P', h') /\
    execute_frames P junk h
    = Some ((P', frames_of 1 (stages P) (W, B)), h').
Proof.
  intros HW Hwf. pose proof Hwf as (Hw & Hh & _).
  destruct (Image_new_ok (width W) (height W) junk Hw Hh)
    as (B & EB & HB & HwB & HhB).
  pose proof (fresh_unused h) as Hfresh. set (bb := fresh (dom h)) in *.
  assert (Hne : workingBuffer P <> bb) by congruence.
  destruct (stage_loop_frames (stages P) (<[bb := B]> h) (workingBuffer P)
              bb W B 1 [])
    as (wb' & bb' & h' & E1 & E2); try done.
  { by rewrite lookup_insert_ne. }
  { apply lookup_insert_eq. }
  destruct (stage_loop (stages P) (<[bb := B]> h) (workingBuffer P) bb W B)
    as (wb2 & bb2 & h2 & E & _ & _ & Hb & _); try done.
  { by rewrite lookup_insert_ne. }
  { apply lookup_insert_eq. }
  rewrite E1 in E. injection E as <- <- <-.
  exists B, (mkPipeline (stages P) wb'), (delete bb' h').
  split; [done|]. split.
  - unfold execute.
    erewrite bind_eq by (by apply p_getWidth_ok).
    erewrite bind_eq by (by apply p_getHeight_ok).
    unfold getWidth, getHeight.
    erewrite bind_eq by (unfold lift; by rewrite EB).
    erewrite bind_eq by (unfold alloc; fold bb; done).
    erewrite bind_eq by apply E1.
    simpl. unfold bind, free, ret. by rewrite Hb.
  - unfold execute_frames.
    erewrite bind_eq by (by apply p_getWidth_ok).
    erewrite bind_eq by (by apply p_getHeight_ok).
    unfold getWidth, getHeight.
    erewrite bind_eq by (unfold lift; by rewrite EB).
    erewrite bind_eq by (unfold alloc; fold bb; done).
    erewrite bind_eq by apply E2.
    cbn [app]. unfold bind, free, ret. by rewrite Hb.
Qed.

(** X24.  The debug frames of [execute]: for any list of stages,
    writing the frames changes neither the heap nor the result of
    [execute]; one file is written per stage, the k-th is named
    [debug_stage_k.ppm], and it holds the PPM text of the front buffer
    after the first k stages. *)
Theorem execute_writes_one_frame_per_stage
    (P : Pipeline) (junk : nat -> Pixel) (h : heap) (W : Image) :
  h !! workingBuffer P = Some W -> wf_image W ->
  exists B P' h' files,
    Image_new (width W) (height W) junk = Some B /\
    execute_frames P junk h = Some ((P', files), h') /\
    execute P junk h = Some (P', h') /\
    length files = length (stages P) /\
    forall k : nat, (k < length (stages P))%nat ->
      files !! k
      = Some (debug_name (Z.of_nat (S k)),
              ppm_text (fst (ping_pong (take (S k) (stages P)) (W, B)))).
Proof.
  intros HW Hwf.
  destruct (execute_frames_ok P junk h W HW Hwf) as (B & P' & h' & EB & E & EF).
  exists B, P', h', (frames_of 1 (stages P) (W, B)).
  split; [done|]. split; [done|]. split; [done|].
  split; [apply frames_of_length|].
  intros k Hk. rewrite frames_of_lookup by done.
  do 3 f_equal. lia.
Qed.

Lemma execute_writes_one_frame_per_stage_witness :
  exists B P' h' files,
    Image_new 3 3 (fun _ => mkPixel 7 7 7) = Some B /\
    execute_frames (mkPipeline [Grayscale; Sobel] 1%positive)
      (fun _ => mkPixel 7 7 7) {[1%positive := step3]}
    = Some ((P', files), h') /\
    files !! 1%nat
    = Some (debug_name 2,
            ppm_text (fst (ping_pong [Grayscale; Sobel] (step3, B)))).
Proof.
  destruct (execute_writes_one_frame_per_stage
              (mkPipeline [Grayscale; Sobel] 1%positive)
              (fun _ => mkPixel 7 7 7) {[1%positive := step3]} step3)
    as (B & P' & h' & files & EB & EF & _ & _ & Hk);
    [done | unfold wf_image; simpl; lia |].
  exists B, P', h', files. split; [done|]. split; [done|].
  apply (Hk 1%nat). simpl. lia.
Defined.

(** ** The processing part of [main] *)

(** X25.  What [main] does with a loaded image: it returns normally; it
    writes four files, [debug_stage_1.ppm] to [debug_stage_3.ppm] and
    [final_output.ppm], in this order; the first holds the grayscale
    stage's output, the second the blur of it, the third the Sobel
    stage's output written over the first stage's buffer, and
    [final_output.ppm] holds the same text as [debug_stage_3.ppm];
    afterwards the input image and both pipeline buffers are freed and
    every other object is as it was. *)
Theorem main_run_writes_final_equal_to_last_frame
    (h : heap) (inputImg : loc) (img : Image) (junk1 junk2 : nat -> Pixel) :
  h !! inputImg = Some img -> wf_image img ->
  exists B,
    Image_new (width img) (height img) junk2 = Some B /\
    let s1 := stage_output Grayscale img B in
    let s2 := stage_output Blur s1 img in
    let s3 := stage_output Sobel s2 s1 in
    main_run inputImg junk1 junk2 h
    = Some ([(debug_name 1, ppm_text s1); (debug_name 2, ppm_text s2);
             (debug_name 3, ppm_text s3); (final_output, ppm_text s3)],
            delete inputImg h).
Proof.
  intros Hin Hwf.
  pose proof (fresh_unused h) as Hfresh. set (wb := fresh (dom h)) in *.
  pose proof (fresh_unused (<[wb := img]> h)) as Hfresh2.
  set (P := addStage (addStage (addStage (mkPipeline [] wb) Grayscale) Blur)
              Sobel).
  assert (HW : <[wb := img]> h !! workingBuffer P = Some img)
    by apply lookup_insert_eq.
  destruct (execute_frames_ok P junk2 (<[wb := img]> h) img HW Hwf)
    as (B & P' & h' & EB & E & EF).
  destruct (execute_ok P junk2 (<[wb := img]> h) img HW Hwf)
    as (B2 & P2 & h2 & EB2 & E2 & _ & Hres & _).
  rewrite EB in EB2. injection EB2 as <-.
  rewrite E in E2. injection E2 as <- <-.
  destruct (execute_exact P junk2 (<[wb := img]> h) img HW Hwf)
    as (wb' & bb' & h3 & E3 & Hpar & _ & Hfreed & Hframe).
  rewrite E in E3. injection E3 as -> <-.
  cbn [P addStage stages workingBuffer app length Nat.even] in Hpar, Hframe.
  injection Hpar as -> ->.
  set (bb := fresh (dom (<[wb := img]> h))) in *.
  assert (Hbb : h !! bb = None /\ bb <> wb).
  { destruct (decide (bb = wb)) as [Eq|Hne].
    - rewrite Eq, lookup_insert_eq in Hfresh2. done.
    - by rewrite lookup_insert_ne in Hfresh2. }
  destruct Hbb as [Hbb Hne].
  assert (Hi1 : inputImg <> wb) by congruence.
  assert (Hi2 : inputImg <> bb) by congruence.
  exists B. split; [done|]. intros s1 s2 s3.
  cbn [P addStage stages workingBuffer app getResult ping_pong foldl fst]
    in Hres.
  fold s1 s2 s3 in Hres.
  assert (Hwf3 : wf_image s3).
  { destruct (Image_new_ok (width img) (height img) junk2) as
      (B' & EB' & HB' & _); try (destruct Hwf; tauto).
    rewrite EB in EB'. injection EB' as <-.
    destruct (stage_output_shape Grayscale img B HB') as (H1 & _ & _).
    destruct (stage_output_shape Blur s1 img Hwf) as (H2 & _ & _).
    by destruct (stage_output_shape Sobel s2 s1 H1) as (H3 & _ & _). }
  unfold main_run.
  erewrite bind_eq by (by apply Pipeline_new_ok).
  fold wb. fold P.
  erewrite bind_eq by apply EF.
  cbv iota beta. cbn [getResult workingBuffer].
  erewrite bind_eq by (by apply savePPM_text).
  assert (Hin' : h' !! inputImg = Some img).
  { rewrite Hframe by done. by rewrite lookup_insert_ne. }
  unfold bind, free, Pipeline_delete, ret. rewrite Hin'.
  unfold free. rewrite lookup_delete_ne by done.
  cbn [workingBuffer]. rewrite Hres.
  cbn [P addStage stages app frames_of fst snd].
  fold s1 s2 s3. cbn [app].
  replace (1 + 1) with 2 by lia. replace (2 + 1) with 3 by lia.
  do 2 f_equal.
  apply map_eq. intros l.
  destruct (decide (l = bb)) as [->|H1];
    [rewrite lookup_delete_eq | rewrite lookup_delete_ne by done].
  { by rewrite lookup_delete_ne. }
  destruct (decide (l = inputImg)) as [->|H2];
    [by rewrite !lookup_delete_eq | rewrite !lookup_delete_ne by done].
  destruct (decide (l = wb)) as [->|H3]; [by rewrite Hfreed, Hfresh|].
  rewrite Hframe by done. by rewrite lookup_insert_ne.
Qed.

Lemma main_run_writes_final_equal_to_last_frame_witness :
  exists B,
    Image_new 3 3 (fun _ => mkPixel 8 8 8) = Some B /\
    let s1 := stage_output Grayscale white3 B in
    let s2 := stage_output Blur s1 white3 in
    let s3 := stage_output Sobel s2 s1 in
    main_run 1%positive (fun _ => mkPixel 7 7 7) (fun _ => mkPixel 8 8 8)
      {[1%positive := white3]}
    = Some ([(debug_name 1, ppm_text s1); (debug_name 2, ppm_text s2);
             (debug_name 3, ppm_text s3); (final_output, ppm_text s3)],
            delete 1%positive {[1%positive := white3]}).
Proof.
  apply (main_run_writes_final_equal_to_last_frame {[1%positive := white3]}
           1%positive white3).
  - done.
  - unfold wf_image. simpl. lia.
Defined.

(** ** The input loop of [main] *)

Lemma take_while_all (f : ascii -> bool) (l : list ascii) :
  Forall (fun c => f c = true) l -> take_while f l = l.
Proof.
  induction 1 as [|c l Hc _ IH]; [done|].
  simpl. by rewrite Hc, IH.
Qed.

Lemma word_not_space (w : list ascii) :
  word w -> Forall (fun c => negb (is_space c) = true) w.
Proof.
  intros [_ Hw]. eapply Forall_impl; [exact Hw|].
  intros c Hc. simpl in Hc. by rewrite Hc.
Qed.

(** [cin >> filename] on a line that starts, after white space, with
    the word [name], followed by white space or by the end of the
    input. *)
Lemma read_string_word (lead name tl old : list ascii) :
  all_space lead -> word name ->
  tl = [] \/ (exists c t, tl = c :: t /\ is_space c = true) ->
  read_string (mkIstream (lead ++ name ++ tl) false false) old
  = (name, mkIstream tl (is_nil tl) false).
Proof.
  intros Hlead Hname Htl.
  pose proof (word_not_space name Hname) as Hns.
  destruct Hname as [Hne Hw].
  destruct name as [|n0 ns]; [done|].
  apply Forall_cons in Hw as [Hn0 Hw].
  unfold read_string. cbn [app].
  rewrite sentry_skip by done. cbn [rest eofbit failbit orb].
  change (n0 :: ns ++ tl) with ((n0 :: ns) ++ tl).
  destruct Htl as [->|(c & t & -> & Hc)].
  - rewrite app_nil_r.
    rewrite take_while_all, drop_while_all by done. done.
  - rewrite take_while_app by (by rewrite ?Hc).
    rewrite drop_while_app by done.
    rewrite drop_while_stop by (by rewrite Hc). done.
Qed.

(** [cin >> choice] finds a character. *)
Lemma read_char_some (ws : list ascii) (c : ascii) (tl : list ascii) :
  all_space ws -> is_space c = false ->
  read_char (mkIstream (ws ++ c :: tl) false false) None
  = (Some c, mkIstream tl false false).
Proof.
  intros Hws Hc. unfold read_char. by rewrite sentry_skip.
Qed.

(** [cin >> choice] at the end of the input assigns nothing. *)
Lemma read_char_dry (tl : list ascii) (eof : bool) :
  all_space tl -> is_nil tl = eof ->
  fst (read_char (mkIstream tl eof false) None) = None.
Proof.
  intros Htl He. unfold read_char, sentry.
  destruct eof; [done|].
  cbn [good eofbit failbit negb andb rest].
  by rewrite drop_while_all.
Qed.

Lemma loadPPM_nullptr (file : option (list ascii)) (junk : nat -> Pixel)
    (h : heap) :
  unloadable file -> loadPPM file junk h = Some (None, h).
Proof.
  intros [->|(text & -> & Htok)]; [done|].
  unfold loadPPM, ifstream_open. cbn [failbit].
  unfold read_string, sentry. cbn [good eofbit failbit negb andb rest].
  unfold first_token in Htok.
  destruct (drop_while is_space text) as [|c r] eqn:Hr; [done|].
  cbn [rest]. by rewrite bool_decide_eq_false_2.
Qed.

(** One failed attempt answered by a character other than [n]: the loop
    goes round once. *)
Lemma main_loop_retry (fs : list ascii -> option (list ascii))
    (junk : nat -> Pixel) (a : list ascii * ascii)
    (lead tl old : list ascii) (fuel : nat) (h : heap) :
  retry fs a -> all_space lead ->
  main_loop (S fuel) fs junk
    (mkIstream (lead ++ attempt_text a ++ tl) false false) old h
  = main_loop fuel fs junk (mkIstream (nl :: tl) false false) a.1 h.
Proof.
  intros (Hw & Hbad & Hsp & Hn) Hlead.
  destruct a as [name c]. cbn [fst snd] in *.
  unfold attempt_text. cbn [fst snd].
  rewrite <- app_assoc. cbn [app main_loop].
  rewrite read_string_word; [|done|done|right; by exists nl, (c :: nl :: tl)].
  cbn [is_nil].
  erewrite bind_eq by (by apply loadPPM_nullptr).
  change (nl :: c :: nl :: tl) with ([nl] ++ c :: nl :: tl).
  rewrite read_char_some; [|by repeat constructor|done].
  unfold bind at 1. unfold lift at 1.
  destruct (Ascii.eqb_spec c "n"); done.
Qed.

Lemma main_loop_attempts (fs : list ascii -> option (list ascii))
    (junk : nat -> Pixel) (attempts : list (list ascii * ascii))
    (tl : list ascii) (h : heap) :
  Forall (retry fs) attempts ->
  forall (lead old : list ascii) (fuel : nat),
    all_space lead ->
    exists lead' old',
      all_space lead' /\
      main_loop (length attempts + fuel) fs junk
        (mkIstream (lead ++ concat (attempt_text <$> attempts) ++ tl)
           false false) old h
      = main_loop fuel fs junk (mkIstream (lead' ++ tl) false false) old' h.
Proof.
  induction 1 as [|a attempts Ha _ IH]; intros lead old fuel Hlead.
  { by exists lead, old. }
  destruct (IH [nl] a.1 fuel) as (lead' & old' & Hl' & E);
    [by repeat constructor|].
  exists lead', old'. split; [done|].
  cbn [fmap list_fmap concat length Nat.add].
  rewrite <- app_assoc. rewrite main_loop_retry by done.
  exact E.
Qed.

Lemma attempts_length (attempts : list (list ascii * ascii)) :
  (length attempts <= length (concat (attempt_text <$> attempts)))%nat.
Proof.
  induction attempts as [|a l IH]; [done|].
  cbn [fmap list_fmap concat]. unfold attempt_text at 1.
  rewrite !length_app. simpl. lia.
Qed.

(** The last round of the loop, in its three outcomes. *)
Lemma main_loop_quit (fs : list ascii -> option (list ascii))
    (junk : nat -> Pixel) (lead name tl old : list ascii) (fuel : nat)
    (h : heap) :
  all_space lead -> word name -> unloadable (fs name) ->
  main_loop (S fuel) fs junk
    (mkIstream (lead ++ name ++ nl :: "n"%char :: tl) false false) old h
  = Some (Some Quit, h).
Proof.
  intros Hlead Hw Hbad. cbn [main_loop].
  rewrite read_string_word;
    [|done|done|right; by exists nl, ("n"%char :: tl)].
  cbn [is_nil].
  erewrite bind_eq by (by apply loadPPM_nullptr).
  change (nl :: "n"%char :: tl) with ([nl] ++ "n"%char :: tl).
  by rewrite read_char_some; [|by repeat constructor|done].
Qed.


Lemma main_loop_dry (fs : list ascii -> option (list ascii))
    (junk : nat -> Pixel) (lead name tl old : list ascii) (fuel : nat)
    (h : heap) :
  all_space lead -> word name -> unloadable (fs name) -> all_space tl ->
  main_loop (S fuel) fs junk
    (mkIstream (lead ++ name ++ tl) false false) old h
  = None.
Proof.
  intros Hlead Hw Hbad Htl. cbn [main_loop].
  rewrite read_string_word; [|done|done|].
  2:{ destruct Htl as [|c t Hc _]; [by left|right; by exists c, t]. }
  erewrite bind_eq by (by apply loadPPM_nullptr).
  pose proof (read_char_dry tl (is_nil tl) Htl eq_refl) as Hdry.
  destruct (read_char _ None) as [choice cin]. simpl in Hdry. by subst.
Qed.

(** *** The loop ends *)






(** X27.  [main] gives up on the answer [n]: after any number of
    failed attempts answered otherwise, a name that does not load
    followed by the answer [n] makes [main] return without writing a
    file and without allocating anything. *)
Theorem main_quits_on_n
    (fs : list ascii -> option (list ascii))
    (attempts : list (list ascii * ascii)) (name tl : list ascii)
    (junk0 junk1 junk2 : nat -> Pixel) (h : heap) :
  Forall (retry fs) attempts -> word name -> unloadable (fs name) ->
  main (mkIstream (concat (attempt_text <$> attempts)
                   ++ name ++ nl :: "n"%char :: tl) false false)
    fs junk0 junk1 junk2 h
  = Some (Some [], h).
Proof.
  intros Hat Hw Hbad. unfold main. cbn [rest].
  rewrite length_app.
  pose proof (attempts_length attempts) as Hlen.
  set (text := concat (attempt_text <$> attempts)) in *.
  replace (S (length text + length (name ++ nl :: "n"%char :: tl)))
    with (length attempts
          + S (length text - length attempts
               + length (name ++ nl :: "n"%char :: tl)))%nat by lia.
  destruct (main_loop_attempts fs junk0 attempts
              (name ++ nl :: "n"%char :: tl) h Hat [] []
              (S (length text - length attempts
                  + length (name ++ nl :: "n"%char :: tl))))
    as (lead' & old' & Hl' & E); [constructor|].
  cbn [app] in E. fold text in E.
  erewrite bind_eq.
  2:{ rewrite E. by apply main_loop_quit. }
  done.
Qed.

Lemma main_quits_on_n_witness :
  main (mkIstream ["a"; nl; "y"; nl; "b"; nl; "n"; nl]%char false false)
    (fun _ => None) (fun _ => mkPixel 7 7 7) (fun _ => mkPixel 7 7 7)
    (fun _ => mkPixel 7 7 7) ∅
  = Some (Some [], ∅).
Proof.
  apply (main_quits_on_n (fun _ => None) [(["a"]%char, "y"%char)]
           ["b"]%char [nl]).
  - apply Forall_cons. split; [|constructor].
    split; [split; [done|by repeat constructor]|].
    split; [by left|done].
  - split; [done|by repeat constructor].
  - by left.
Defined.



(** X29.  When standard input ends after a name that does not load,
    [main] has undefined behaviour: [cin >> choice] assigns nothing and
    the uninitialised [choice] is compared with ['n']. *)
Theorem main_undefined_at_end_of_input
    (fs : list ascii -> option (list ascii))
    (attempts : list (list ascii * ascii)) (name tl : list ascii)
    (junk0 junk1 junk2 : nat -> Pixel) (h : heap) :
  Forall (retry fs) attempts -> word name -> unloadable (fs name) ->
  all_space tl ->
  main (mkIstream (concat (attempt_text <$> attempts) ++ name ++ tl)
          false false) fs junk0 junk1 junk2 h
  = None.
Proof.
  intros Hat Hw Hbad Htl. unfold main. cbn [rest].
  rewrite length_app.
  pose proof (attempts_length attempts) as Hlen.
  set (text := concat (attempt_text <$> attempts)) in *.
  replace (S (length text + length (name ++ tl)))
    with (length attempts
          + S (length text - length attempts + length (name ++ tl)))%nat
    by lia.
  destruct (main_loop_attempts fs junk0 attempts (name ++ tl) h Hat [] []
              (S (length text - length attempts + length (name ++ tl))))
    as (lead' & old' & Hl' & E); [constructor|].
  cbn [app] in E. fold text in E.
  unfold bind. rewrite E. by rewrite main_loop_dry.
Qed.

Lemma main_undefined_at_end_of_input_witness :
  main (mkIstream ["a"; nl; "y"; nl; "b"; nl]%char false false)
    (fun _ => None) (fun _ => mkPixel 7 7 7) (fun _ => mkPixel 7 7 7)
    (fun _ => mkPixel 7 7 7) ∅
  = None.
Proof.
  apply (main_undefined_at_end_of_input (fun _ => None)
           [(["a"]%char, "y"%char)] ["b"]%char [nl]).
  - apply Forall_cons. split; [|constructor].
    split; [split; [done|by repeat constructor]|].
    split; [by left|done].
  - split; [done|by repeat constructor].
  - by left.
  - by repeat constructor.
Defined.
